(** * fftool: a shallow embedding of the topology and force-field core

    The development follows fftool.py class by class.  Python floats are
    IEEE binary64 numbers and are modelled by Rocq's primitive floats, which
    compute with the same rounding.  Python ints are modelled by [Z],
    strings by [string], lists by [list].  A run of a Python function either
    returns, leaves through [sys.exit(1)], or raises; what it printed on the
    way is kept as a list of lines. *)

From Stdlib Require Import Floats ZArith Ascii String List Lia.
From stdpp Require Import base option list functions gmap strings.

Set Warnings "-inexact-float".
Open Scope Z_scope.
Open Scope list_scope.

(* ===================================================================== *)
(** ** Python runs: results and printed lines *)
(* ===================================================================== *)

Inductive pyexn : Type :=
| IndexError
| AttributeError
| UnboundLocalError
| ValueError
| ZeroDivisionError
| OverflowError.

(** The outcome of a call: a returned value, [sys.exit(1)], or an uncaught
    exception. *)
Inductive result (A : Type) : Type :=
| Ok (a : A)
| SysExit
| Raise (e : pyexn).
Arguments Ok {A} a.
Arguments SysExit {A}.
Arguments Raise {A} e.

(** One constructor per [print] statement of the modelled functions; the
    arguments are the values substituted into the format string. *)
Inductive line : Type :=
| warn_unknown_weight (name : string)
| err_no_atom (molname atname : string)
| warn_dup_atom (atname ff : string)
| err_no_bond (molname bdname : string)
| warn_dup_bond (bdname ff : string)
| warn_bond (molname bdname : string) (i j : Z) (r : float)
| warn_dup_angle (anname ff : string)
| warn_angle_removed (molname anname : string) (i j k : Z) (th : float)
| warn_dup_improper (diname ff : string)
| warn_missing
| miss_angle (s : string)
| miss_dihed (s : string)
| miss_improper (s : string)
| err_zmat_natom (molname : string)
| err_bond_pot (pot : string)
| err_angle_pot (pot : string)
| err_vdw_pot (i j : string)
| err_vdw_len (i j : string).

(** A run: the lines printed, in order, and the outcome. *)
Definition py (A : Type) : Type := (list line * result A)%type.

Definition ret {A} (a : A) : py A := ([], Ok a).
Definition print (l : line) : py unit := ([l], Ok tt).
Definition sys_exit {A} : py A := ([], SysExit).
Definition raise {A} (e : pyexn) : py A := ([], Raise e).
(** A call that prints nothing and returns ([inr]) or raises ([inl]). *)
Definition lift {A} (r : pyexn + A) : py A :=
  match r with
  | inr a => ret a
  | inl e => raise e
  end.

Definition bind {A B} (c : py A) (k : A -> py B) : py B :=
  match c with
  | (out, Ok a) => let (out', r) := k a in (out ++ out', r)
  | (out, SysExit) => (out, SysExit)
  | (out, Raise e) => (out, Raise e)
  end.

Notation "'let*' x := c 'in' k" := (bind c (fun x => k))
  (at level 10, x name, c at level 100, k at level 200).
Notation "'let*' ' pat := c 'in' k" :=
  (bind c (fun x => match x with pat => k end))
  (at level 10, pat pattern, c at level 100, k at level 200).
Notation "c ;;; k" := (bind c (fun _ => k))
  (at level 100, right associativity).

(** [when b c]: an [if] without [else]. *)
Definition when (b : bool) (c : py unit) : py unit := if b then c else ret tt.

(** Reading an attribute that is set only by some method ([hasattr]):
    an absent attribute raises. *)
Definition getattr {A} (o : option A) : py A :=
  match o with
  | Some a => ret a
  | None => raise AttributeError
  end.

(** [l[i]] on a Python list: negative indices count from the end. *)
Definition py_index {A} (l : list A) (i : Z) : py A :=
  let n := Z.of_nat (length l) in
  let k := if i <? 0 then i + n else i in
  if (k <? 0) || (n <=? k) then raise IndexError
  else match l !! Z.to_nat k with
       | Some a => ret a
       | None => raise IndexError
       end.

(** Truth value of a string: non-empty. *)
Definition truthy (s : string) : bool := negb (String.eqb s "").

(** ['%s-%s' % (a, b)] and its longer forms. *)
Definition dash (a b : string) : string := a +:+ "-" +:+ b.
Definition dash3 (a b c : string) : string := a +:+ "-" +:+ b +:+ "-" +:+ c.
Definition dash4 (a b c d : string) : string :=
  a +:+ "-" +:+ b +:+ "-" +:+ c +:+ "-" +:+ d.

(** [math.sqrt]: a negative argument is a domain error. *)
Definition math_sqrt (x : float) : py float :=
  if PrimFloat.ltb x 0%float then raise ValueError else ret (PrimFloat.sqrt x).

(* ===================================================================== *)
(** ** Atomic weights and atoms *)
(* ===================================================================== *)

Definition atomic_wt : gmap string float :=
  list_to_map
    [("H", 1.008); ("Li", 6.941); ("B", 10.811); ("C", 12.011);
     ("N", 14.006); ("O", 15.999); ("F", 18.998); ("Ne", 20.180);
     ("Na", 22.990); ("Mg", 24.305); ("Al", 26.982); ("Si", 28.086);
     ("P", 30.974); ("S", 32.065); ("Cl", 35.453); ("Ar", 39.948);
     ("K", 39.098); ("Ca", 40.078); ("Fe", 55.845); ("Zn", 65.38);
     ("Br", 79.904); ("Mo", 95.96); ("I", 126.904)]%float.

(** [name[:2]]: the first two characters, or fewer when the name is shorter. *)
Definition prefix2 (name : string) : string := substring 0 2 name.

(** [name[0]]: raises on the empty string. *)
Definition first_char (name : string) : py string :=
  match name with
  | EmptyString => raise IndexError
  | String c _ => ret (String c EmptyString)
  end.

Definition atomic_weight (name : string) : py float :=
  match atomic_wt !! prefix2 name with
  | Some w => ret w
  | None =>
      let* c := first_char name in
      match atomic_wt !! c with
      | Some w => ret w
      | None => print (warn_unknown_weight name) ;;; ret 0%float
      end
  end.

(** class atom.  [type], [q], [pot] and [par] exist only once [setpar] (or,
    for [type], [connectivity]) has run. *)
Record atom : Type := mk_atom {
  at_name : string;
  at_m : float;
  at_ityp : Z;
  at_x : float;
  at_y : float;
  at_z : float;
  at_type : option string;
  at_q : option float;
  at_pot : option string;
  at_par : option (list float)
}.

(** atom.__init__ *)
Definition atom_init (name : string) (m : float) : py atom :=
  let* m' := (if PrimFloat.eqb m 0%float then atomic_weight name else ret m) in
  ret {| at_name := name; at_m := m'; at_ityp := -1;
         at_x := 0%float; at_y := 0%float; at_z := 0%float;
         at_type := None; at_q := None; at_pot := None; at_par := None |}.

(** atom.setpar *)
Definition atom_setpar (attp : string) (q : float) (pot : string)
    (par : list float) (a : atom) : atom :=
  {| at_name := at_name a; at_m := at_m a; at_ityp := at_ityp a;
     at_x := at_x a; at_y := at_y a; at_z := at_z a;
     at_type := Some attp; at_q := Some q; at_pot := Some pot;
     at_par := Some par |}.

(* ===================================================================== *)
(** ** Simulation cell *)
(* ===================================================================== *)

Record cell : Type := mk_cell {
  c_a : float;
  c_b : float;
  c_c : float;
  c_pbc : string;
  c_tol : float;
  c_center : bool
}.

(** cell.__init__ *)
Definition cell_init (a b c : float) (pbc : string) (tol : float)
    (center : bool) : cell :=
  {| c_a := a; c_b := b; c_c := c; c_pbc := pbc;
     c_tol := if truthy pbc then 0%float else tol;
     c_center := center |}.

(* ===================================================================== *)
(** ** Bonded terms of a molecule *)
(* ===================================================================== *)

(** class bond, as held by a molecule.  [name] is set by [mol.setff];
    [iatp], [jatp], [pot] and [par] by [setpar]. *)
Record bond : Type := mk_bond {
  b_i : Z;
  b_j : Z;
  b_r : float;
  b_ityp : Z;
  b_name : option string;
  b_iatp : option string;
  b_jatp : option string;
  b_pot : option string;
  b_par : option (list float)
}.

(** bond.__init__ *)
Definition bond_init (i j : Z) : bond :=
  {| b_i := i; b_j := j; b_r := 0%float; b_ityp := -1; b_name := None;
     b_iatp := None; b_jatp := None; b_pot := None; b_par := None |}.

Definition bond_set_name (s : string) (b : bond) : bond :=
  {| b_i := b_i b; b_j := b_j b; b_r := b_r b; b_ityp := b_ityp b;
     b_name := Some s; b_iatp := b_iatp b; b_jatp := b_jatp b;
     b_pot := b_pot b; b_par := b_par b |}.

(** bond.setpar *)
Definition bond_setpar (iatp jatp pot : string) (par : list float)
    (b : bond) : bond :=
  {| b_i := b_i b; b_j := b_j b; b_r := b_r b; b_ityp := b_ityp b;
     b_name := Some (dash iatp jatp); b_iatp := Some iatp;
     b_jatp := Some jatp; b_pot := Some pot; b_par := Some par |}.

(** class angle *)
Record angle : Type := mk_angle {
  an_i : Z;
  an_j : Z;
  an_k : Z;
  an_theta : float;
  an_ityp : Z;
  an_name : option string;
  an_iatp : option string;
  an_jatp : option string;
  an_katp : option string;
  an_pot : option string;
  an_par : option (list float)
}.

Definition angle_init (i j k : Z) : angle :=
  {| an_i := i; an_j := j; an_k := k; an_theta := 0%float; an_ityp := -1;
     an_name := None; an_iatp := None; an_jatp := None; an_katp := None;
     an_pot := None; an_par := None |}.

Definition angle_set_name (s : string) (a : angle) : angle :=
  {| an_i := an_i a; an_j := an_j a; an_k := an_k a; an_theta := an_theta a;
     an_ityp := an_ityp a; an_name := Some s; an_iatp := an_iatp a;
     an_jatp := an_jatp a; an_katp := an_katp a; an_pot := an_pot a;
     an_par := an_par a |}.

(** angle.setpar *)
Definition angle_setpar (iatp jatp katp pot : string) (par : list float)
    (a : angle) : angle :=
  {| an_i := an_i a; an_j := an_j a; an_k := an_k a; an_theta := an_theta a;
     an_ityp := an_ityp a; an_name := Some (dash3 iatp jatp katp);
     an_iatp := Some iatp; an_jatp := Some jatp; an_katp := Some katp;
     an_pot := Some pot; an_par := Some par |}.

(** class dihed; the improper list of a molecule holds [dihed] instances
    too. *)
Record dihed : Type := mk_dihed {
  dh_i : Z;
  dh_j : Z;
  dh_k : Z;
  dh_l : Z;
  dh_phi : float;
  dh_ityp : Z;
  dh_name : option string;
  dh_iatp : option string;
  dh_jatp : option string;
  dh_katp : option string;
  dh_latp : option string;
  dh_pot : option string;
  dh_par : option (list float)
}.

Definition dihed_init (i j k l : Z) : dihed :=
  {| dh_i := i; dh_j := j; dh_k := k; dh_l := l; dh_phi := 0%float;
     dh_ityp := -1; dh_name := None; dh_iatp := None; dh_jatp := None;
     dh_katp := None; dh_latp := None; dh_pot := None; dh_par := None |}.

Definition dihed_set_name (s : string) (d : dihed) : dihed :=
  {| dh_i := dh_i d; dh_j := dh_j d; dh_k := dh_k d; dh_l := dh_l d;
     dh_phi := dh_phi d; dh_ityp := dh_ityp d; dh_name := Some s;
     dh_iatp := dh_iatp d; dh_jatp := dh_jatp d; dh_katp := dh_katp d;
     dh_latp := dh_latp d; dh_pot := dh_pot d; dh_par := dh_par d |}.

(** dihed.setpar *)
Definition dihed_setpar (iatp jatp katp latp pot : string) (par : list float)
    (d : dihed) : dihed :=
  {| dh_i := dh_i d; dh_j := dh_j d; dh_k := dh_k d; dh_l := dh_l d;
     dh_phi := dh_phi d; dh_ityp := dh_ityp d;
     dh_name := Some (dash4 iatp jatp katp latp);
     dh_iatp := Some iatp; dh_jatp := Some jatp; dh_katp := Some katp;
     dh_latp := Some latp; dh_pot := Some pot; dh_par := Some par |}.

(* ===================================================================== *)
(** ** Force-field database *)
(* ===================================================================== *)

(** The records of the database are instances of the same classes, built by
    [forcefield.__init__]: every one of them went through [setpar], and every
    bond and angle record through [seteqval], before the constructor
    returned.  Their attributes are therefore always present and the records
    are given types of their own. *)
Record ff_atom : Type := mk_ff_atom {
  fa_name : string;
  fa_type : string;
  fa_m : float;
  fa_q : float;
  fa_pot : string;
  fa_par : list float
}.

Record ff_bond : Type := mk_ff_bond {
  fb_iatp : string;
  fb_jatp : string;
  fb_pot : string;
  fb_par : list float;
  fb_eqval : float
}.

Record ff_angle : Type := mk_ff_angle {
  fn_iatp : string;
  fn_jatp : string;
  fn_katp : string;
  fn_pot : string;
  fn_par : list float;
  fn_eqval : float
}.

Record ff_dihed : Type := mk_ff_dihed {
  fd_iatp : string;
  fd_jatp : string;
  fd_katp : string;
  fd_latp : string;
  fd_pot : string;
  fd_par : list float
}.

Record forcefield : Type := mk_forcefield {
  ff_atom_list : list ff_atom;
  ff_bond_list : list ff_bond;
  ff_angle_list : list ff_angle;
  ff_dihed_list : list ff_dihed;
  ff_dimpr_list : list ff_dihed
}.

(** bond.seteqval and angle.seteqval: the equilibrium value is the first
    parameter of a 'harm' or 'cons' record. *)
Definition seteqval (unknown : string -> line) (pot : string)
    (par : list float) : py float :=
  if String.eqb pot "harm" then py_index par 0
  else if String.eqb pot "cons" then py_index par 0
  else print (unknown pot) ;;; sys_exit.

(** bond.checkval *)
Definition bond_checkval (eqval r : float) : bool :=
  let delta := PrimFloat.abs (r - eqval)%float in
  if PrimFloat.ltb delta 0.25%float then true else false.

(** angle.checkval *)
Definition angle_checkval (eqval th : float) : bool :=
  let delta := PrimFloat.abs (th - eqval)%float in
  if PrimFloat.ltb delta 15.0%float then true else false.

(** The data lines of a parameter file, split into fields and tagged with
    the section they stand in. *)
Inductive ff_row : Type :=
| row_atom (name attp : string) (m q : float) (pot : string)
    (par : list float)
| row_bond (iatp jatp pot : string) (par : list float)
| row_angle (iatp jatp katp pot : string) (par : list float)
| row_dihed (iatp jatp katp latp pot : string) (par : list float)
| row_dimpr (iatp jatp katp latp pot : string) (par : list float).

(** The parsing loop of forcefield.__init__: each row is appended to the
    list of its section.  Bond and angle rows are kept without their
    equilibrium value until the loop is over. *)
Fixpoint ff_rows (rows : list ff_row)
    (acc : list ff_atom * list (string * string * string * list float) *
           list (string * string * string * string * list float) *
           list ff_dihed * list ff_dihed) :
    py (list ff_atom * list (string * string * string * list float) *
        list (string * string * string * string * list float) *
        list ff_dihed * list ff_dihed) :=
  match rows with
  | [] => ret acc
  | row :: rest =>
      let '(ats, bds, ans, dhs, dis) := acc in
      match row with
      | row_atom name attp m q pot par =>
          let* a := atom_init name m in
          ff_rows rest
            (ats ++ [mk_ff_atom name attp (at_m a) q pot par],
             bds, ans, dhs, dis)
      | row_bond iatp jatp pot par =>
          ff_rows rest (ats, bds ++ [(iatp, jatp, pot, par)], ans, dhs, dis)
      | row_angle iatp jatp katp pot par =>
          ff_rows rest
            (ats, bds, ans ++ [(iatp, jatp, katp, pot, par)], dhs, dis)
      | row_dihed iatp jatp katp latp pot par =>
          ff_rows rest
            (ats, bds, ans,
             dhs ++ [mk_ff_dihed iatp jatp katp latp pot par], dis)
      | row_dimpr iatp jatp katp latp pot par =>
          ff_rows rest
            (ats, bds, ans, dhs,
             dis ++ [mk_ff_dihed iatp jatp katp latp pot par])
      end
  end.

Fixpoint bonds_seteqval (bds : list (string * string * string * list float))
    : py (list ff_bond) :=
  match bds with
  | [] => ret []
  | (iatp, jatp, pot, par) :: rest =>
      let* e := seteqval err_bond_pot pot par in
      let* rest' := bonds_seteqval rest in
      ret (mk_ff_bond iatp jatp pot par e :: rest')
  end.

Fixpoint angles_seteqval
    (ans : list (string * string * string * string * list float))
    : py (list ff_angle) :=
  match ans with
  | [] => ret []
  | (iatp, jatp, katp, pot, par) :: rest =>
      let* e := seteqval err_angle_pot pot par in
      let* rest' := angles_seteqval rest in
      ret (mk_ff_angle iatp jatp katp pot par e :: rest')
  end.

(** forcefield.__init__, from the rows of the file. *)
Definition forcefield_init (rows : list ff_row) : py forcefield :=
  let* '(ats, bds, ans, dhs, dis) := ff_rows rows ([], [], [], [], []) in
  let* bds' := bonds_seteqval bds in
  let* ans' := angles_seteqval ans in
  ret (mk_forcefield ats bds' ans' dhs dis).

(* ===================================================================== *)
(** ** van der Waals records *)
(* ===================================================================== *)

(** class vdw.  [par] is assigned on the 'lj' branch only. *)
Record vdw : Type := mk_vdw {
  v_i : string;
  v_j : string;
  v_ityp : Z;
  v_jtyp : Z;
  v_pot : string;
  v_par : option (list float)
}.

(** vdw.__init__ *)
Definition vdw_init (iat jat : atom) (mix : string) : py vdw :=
  let i := at_name iat in
  let j := at_name jat in
  let* ipot := getattr (at_pot iat) in
  let* jpot := getattr (at_pot jat) in
  (if negb (String.eqb ipot jpot)
   then print (err_vdw_pot i j) ;;; sys_exit else ret tt) ;;;
  let* ipar := getattr (at_par iat) in
  let* jpar := getattr (at_par jat) in
  (if negb (length ipar =? length jpar)%nat
   then print (err_vdw_len i j) ;;; sys_exit else ret tt) ;;;
  if String.eqb ipot "lj" then
    if String.eqb (at_name iat) (at_name jat) then
      ret (mk_vdw i j (at_ityp iat) (at_ityp jat) ipot (Some ipar))
    else
      let* par0 :=
        (if String.eqb mix "g" then
           let* p := py_index ipar 0 in
           let* q := py_index jpar 0 in
           math_sqrt (p * q)%float
         else
           let* p := py_index ipar 0 in
           let* q := py_index jpar 0 in
           ret ((p + q) / 2)%float) in
      let* p1 := py_index ipar 1 in
      let* q1 := py_index jpar 1 in
      let* par1 := math_sqrt (p1 * q1)%float in
      ret (mk_vdw i j (at_ityp iat) (at_ityp jat) ipot (Some [par0; par1]))
  else
    ret (mk_vdw i j (at_ityp iat) (at_ityp jat) ipot None).

(* ===================================================================== *)
(** ** Molecules *)
(* ===================================================================== *)

(** One record of a z-matrix (the dictionary built by zmat.__init__). *)
Record zatom : Type := mk_zatom {
  z_name : string;
  z_ir : Z;
  z_rvar : string;
  z_r : float;
  z_ia : Z;
  z_avar : string;
  z_a : float;
  z_id : Z;
  z_dvar : string;
  z_d : float
}.

(** class zmat, after the file has been read. *)
Record zmat : Type := mk_zmat {
  zm_name : string;
  zm_zatom : list zatom;
  zm_connect : list (Z * Z);
  zm_improper : list (Z * Z * Z * Z);
  zm_ff : string;
  zm_reconnect : bool
}.

(** class mol *)
Record mol : Type := mk_mol {
  m_name : string;
  m_ff : string;
  m_atom : list atom;
  m_bond : list bond;
  m_angle : list angle;
  m_dihed : list dihed;
  m_dimpr : list dihed;
  m_m : float;
  m_nmol : Z;
  m_topol : string
}.

(** The numerical geometry of the program is kept abstract: the distance
    between two atoms and the angle at the middle one of three, each with
    the optional periodic cell, and the Cartesian positions that
    [zmat2cart] computes from the records of a z-matrix.  They use square
    roots, rounding and trigonometric functions and may raise. *)
Class Geometry : Type := {
  dist2atoms : atom -> atom -> option cell -> pyexn + float;
  angle3atoms : atom -> atom -> atom -> option cell -> pyexn + float;
  zmat_positions : list zatom -> pyexn + list (float * float * float)
}.

Definition set_xyz (p : float * float * float) (a : atom) : atom :=
  let '(x, y, z) := p in
  {| at_name := at_name a; at_m := at_m a; at_ityp := at_ityp a;
     at_x := x; at_y := y; at_z := z;
     at_type := at_type a; at_q := at_q a; at_pot := at_pot a;
     at_par := at_par a |}.

Definition set_type (t : string) (a : atom) : atom :=
  {| at_name := at_name a; at_m := at_m a; at_ityp := at_ityp a;
     at_x := at_x a; at_y := at_y a; at_z := at_z a;
     at_type := Some t; at_q := at_q a; at_pot := at_pot a;
     at_par := at_par a |}.

Definition set_m (m : float) (a : atom) : atom :=
  {| at_name := at_name a; at_m := m; at_ityp := at_ityp a;
     at_x := at_x a; at_y := at_y a; at_z := at_z a;
     at_type := at_type a; at_q := at_q a; at_pot := at_pot a;
     at_par := at_par a |}.

Global Instance bond_inhabited : Inhabited bond := populate (bond_init (-1) (-1)).

(** [self.atom[i].type] *)
Definition atom_type (atoms : list atom) (i : Z) : py string :=
  let* a := py_index atoms i in getattr (at_type a).

Section Mol.
Context `{Geometry}.

(** mol.zmat2cart: only the positions of the atoms change. *)
Definition zmat2cart (molname : string) (z : zmat) (atoms : list atom)
    : py (list atom) :=
  if negb (length atoms =? length (zm_zatom z))%nat then
    print (err_zmat_natom molname) ;;; sys_exit
  else
    let* pos := lift (zmat_positions (zm_zatom z)) in
    ret (zip_with set_xyz pos atoms ++ drop (length pos) atoms).

(** *** mol.connectivity *)

(** The inner loop over [ff.atom]: the type of the last record with the
    atom's name is kept. *)
Fixpoint connectivity_atom (ffatoms : list ff_atom) (found : bool)
    (a : atom) : atom * bool :=
  match ffatoms with
  | [] => (a, found)
  | ffat :: rest =>
      if String.eqb (at_name a) (fa_name ffat)
      then connectivity_atom rest true (set_type (fa_type ffat) a)
      else connectivity_atom rest found a
  end.

Fixpoint connectivity_atoms (molname : string) (ffatoms : list ff_atom)
    (atoms : list atom) (error : bool) : py (list atom * bool) :=
  match atoms with
  | [] => ret ([], error)
  | a :: rest =>
      let '(a', found) := connectivity_atom ffatoms false a in
      (if found then ret tt
       else print (err_no_atom molname (at_name a))) ;;;
      let* '(rest', error') :=
        connectivity_atoms molname ffatoms rest (error || negb found) in
      ret (a' :: rest', error')
  end.

(** The loop over [ff.bond] for one pair (i, j): one bond is appended for
    every record that has the pair's name, in either order, and whose
    equilibrium length is close enough to [r]. *)
Fixpoint connectivity_pair (i j : Z) (bdname : string) (r : float)
    (ffbonds : list ff_bond) : list bond :=
  match ffbonds with
  | [] => []
  | ffbd :: rest =>
      let namestr := dash (fb_iatp ffbd) (fb_jatp ffbd) in
      let namerev := dash (fb_jatp ffbd) (fb_iatp ffbd) in
      (if String.eqb bdname namestr || String.eqb bdname namerev then
         if bond_checkval (fb_eqval ffbd) r then [bond_init i j] else []
       else [])
      ++ connectivity_pair i j bdname r rest
  end.

(** [for j in range(i+1, natom)], given as the list of its values. *)
Fixpoint connectivity_row (ff : forcefield) (box : option cell)
    (atoms : list atom) (i : nat) (js : list nat) : py (list bond) :=
  match js with
  | [] => ret []
  | j :: rest =>
      let* ai := py_index atoms (Z.of_nat i) in
      let* aj := py_index atoms (Z.of_nat j) in
      let* r := lift (dist2atoms ai aj box) in
      let* ti := getattr (at_type ai) in
      let* tj := getattr (at_type aj) in
      let new := connectivity_pair (Z.of_nat i) (Z.of_nat j) (dash ti tj) r
                   (ff_bond_list ff) in
      let* more := connectivity_row ff box atoms i rest in
      ret (new ++ more)
  end.

(** [for i in range(0, natom-1)] *)
Fixpoint connectivity_rows (ff : forcefield) (box : option cell)
    (atoms : list atom) (natom : nat) (idx : list nat) : py (list bond) :=
  match idx with
  | [] => ret []
  | i :: rest =>
      let* new := connectivity_row ff box atoms i
                    (seq (i + 1) (natom - (i + 1))) in
      let* more := connectivity_rows ff box atoms natom rest in
      ret (new ++ more)
  end.

(** mol.connectivity; [ff] is the database [forcefield(self.ff)]. *)
Definition connectivity (ff : forcefield) (box : option cell) (self : mol)
    : py mol :=
  let* '(atoms, error) :=
    connectivity_atoms (m_name self) (ff_atom_list ff) (m_atom self) false in
  (if error : bool then sys_exit else ret tt) ;;;
  let natom := length atoms in
  let* new := connectivity_rows ff box atoms natom (seq 0 (natom - 1)) in
  ret {| m_name := m_name self; m_ff := m_ff self; m_atom := atoms;
         m_bond := m_bond self ++ new; m_angle := m_angle self;
         m_dihed := m_dihed self; m_dimpr := m_dimpr self;
         m_m := m_m self; m_nmol := m_nmol self; m_topol := m_topol self |}.

(** *** mol.anglesdiheds *)

(** The neighbours of atom [i], in the order of the bond list. *)
Fixpoint neighbours (i : Z) (bonds : list bond) : list Z :=
  match bonds with
  | [] => []
  | bd :: rest =>
      if i =? b_i bd then b_j bd :: neighbours i rest
      else if i =? b_j bd then b_i bd :: neighbours i rest
      else neighbours i rest
  end.

(** The angles centred on atom [i]: one for each [k < l < nb]. *)
Definition angles_at (i : Z) (bonds : list bond) : list angle :=
  let neib := neighbours i bonds in
  let nb := length neib in
  flat_map (fun k =>
    map (fun l => angle_init (neib !!! k) i (neib !!! l))
        (seq (k + 1) (nb - (k + 1))))
    (seq 0 (nb - 1)).

(** The innermost loop of the dihedral search: [first] is the outer atom
    found on bond [l]. *)
Definition diheds_klj (bonds : list bond) (k l : nat) (first : Z)
    : list dihed :=
  let nbond := length bonds in
  let bk := bonds !!! k in
  flat_map (fun j =>
    if (j =? k)%nat || (j =? l)%nat then []
    else
      let bj := bonds !!! j in
      if b_j bk =? b_i bj then [dihed_init first (b_i bk) (b_j bk) (b_j bj)]
      else if b_j bk =? b_j bj
           then [dihed_init first (b_i bk) (b_j bk) (b_i bj)]
           else [])
    (seq 0 nbond).

Definition diheds_kl (bonds : list bond) (k l : nat) : list dihed :=
  let bk := bonds !!! k in
  let bl := bonds !!! l in
  if (k =? l)%nat then []
  else if b_i bk =? b_i bl then diheds_klj bonds k l (b_j bl)
  else if b_i bk =? b_j bl then diheds_klj bonds k l (b_i bl)
  else [].

Definition all_angles (natom : nat) (bonds : list bond) : list angle :=
  flat_map (fun i => angles_at (Z.of_nat i) bonds) (seq 0 natom).

Definition all_diheds (bonds : list bond) : list dihed :=
  let nbond := length bonds in
  flat_map (fun k => flat_map (fun l => diheds_kl bonds k l) (seq 0 nbond))
    (seq 0 nbond).

(** mol.anglesdiheds *)
Definition anglesdiheds (self : mol) : mol :=
  {| m_name := m_name self; m_ff := m_ff self; m_atom := m_atom self;
     m_bond := m_bond self;
     m_angle := m_angle self ++ all_angles (length (m_atom self)) (m_bond self);
     m_dihed := m_dihed self ++ all_diheds (m_bond self);
     m_dimpr := m_dimpr self;
     m_m := m_m self; m_nmol := m_nmol self; m_topol := m_topol self |}.

(** *** mol.fromzmat *)

(** The loop that creates the atoms and sums their weights. *)
Fixpoint fromzmat_atoms (zatoms : list zatom) (atoms : list atom)
    (m : float) : py (list atom * float) :=
  match zatoms with
  | [] => ret (atoms, m)
  | zat :: rest =>
      let* a := atom_init (z_name zat) 0%float in
      let* w := atomic_weight (z_name zat) in
      fromzmat_atoms rest (atoms ++ [a]) (m + w)%float
  end.

(** [for i in range(1, len(z.zatom))]: the bond of atom [i] to the atom
    its distance refers to. *)
Definition zmat_bonds (zatoms : list zatom) : list bond :=
  flat_map (fun i =>
    match zatoms !! i with
    | Some zat => [bond_init (Z.of_nat i) (z_ir zat - 1)]
    | None => []
    end) (seq 1 (length zatoms - 1)).

Definition connect_bonds (connect : list (Z * Z)) : list bond :=
  map (fun cn => bond_init (fst cn - 1) (snd cn - 1)) connect.

Definition improper_terms (improper : list (Z * Z * Z * Z)) : list dihed :=
  map (fun di => let '(a, b, c, d) := di in
                 dihed_init (a - 1) (b - 1) (c - 1) (d - 1)) improper.

(** The molecule mol.__init__ starts from. *)
Definition mol_empty : mol :=
  {| m_name := ""; m_ff := ""; m_atom := []; m_bond := []; m_angle := [];
     m_dihed := []; m_dimpr := []; m_m := 0%float; m_nmol := 0;
     m_topol := "none" |}.

(** mol.fromzmat; [z] is [zmat(filename)] and [ff] is the database that
    [connectivity] loads. *)
Definition fromzmat (ff : forcefield) (z : zmat) (connect : bool)
    (self : mol) : py mol :=
  let* '(atoms, m) := fromzmat_atoms (zm_zatom z) (m_atom self) (m_m self) in
  let* atoms := zmat2cart (zm_name z) z atoms in
  let self :=
    {| m_name := zm_name z; m_ff := zm_ff z; m_atom := atoms;
       m_bond := m_bond self; m_angle := m_angle self;
       m_dihed := m_dihed self; m_dimpr := m_dimpr self;
       m_m := m; m_nmol := m_nmol self; m_topol := m_topol self |} in
  if connect && truthy (zm_ff z) then
    let* self :=
      (if negb (zm_reconnect z) then
         ret {| m_name := m_name self; m_ff := m_ff self;
                m_atom := m_atom self;
                m_bond := m_bond self ++ zmat_bonds (zm_zatom z)
                            ++ connect_bonds (zm_connect z);
                m_angle := m_angle self; m_dihed := m_dihed self;
                m_dimpr := m_dimpr self; m_m := m_m self;
                m_nmol := m_nmol self; m_topol := "file" |}
       else
         let* self := connectivity ff None self in
         ret {| m_name := m_name self; m_ff := m_ff self;
                m_atom := m_atom self; m_bond := m_bond self;
                m_angle := m_angle self; m_dihed := m_dihed self;
                m_dimpr := m_dimpr self; m_m := m_m self;
                m_nmol := m_nmol self; m_topol := "guess" |}) in
    let self := anglesdiheds self in
    ret {| m_name := m_name self; m_ff := m_ff self; m_atom := m_atom self;
           m_bond := m_bond self; m_angle := m_angle self;
           m_dihed := m_dihed self;
           m_dimpr := m_dimpr self ++ improper_terms (zm_improper z);
           m_m := m_m self; m_nmol := m_nmol self;
           m_topol := m_topol self |}
  else ret self.

(** *** mol.setff *)

(** The loop over [ff.atom] for one atom.  Every record with the atom's
    name overwrites the parameters set by the one before. *)
Fixpoint setff_atom (selfff : string) (ffatoms : list ff_atom)
    (found : bool) (a : atom) : py (atom * bool) :=
  match ffatoms with
  | [] => ret (a, found)
  | ffat :: rest =>
      if String.eqb (at_name a) (fa_name ffat) then
        when found (print (warn_dup_atom (at_name a) selfff)) ;;;
        let a := atom_setpar (fa_type ffat) (fa_q ffat) (fa_pot ffat)
                   (fa_par ffat) a in
        let a := set_m (fa_m ffat) a in
        setff_atom selfff rest true a
      else setff_atom selfff rest found a
  end.

(** The body of the loop over [self.atom]. *)
Definition visit_atom (molname selfff : string) (ff : forcefield)
    (a : atom) : py (atom * bool) :=
  let* '(a', found) := setff_atom selfff (ff_atom_list ff) false a in
  (if found : bool then ret tt
   else print (err_no_atom molname (at_name a))) ;;;
  ret (a', found).

(** A loop that types every term of a list and raises the [error] flag
    for those without a record: the loops over [self.atom] and
    [self.bond]. *)
Fixpoint setff_each {T} (visit : T -> py (T * bool)) (terms : list T)
    (error : bool) : py (list T * bool) :=
  match terms with
  | [] => ret ([], error)
  | t :: rest =>
      let* '(t', found) := visit t in
      let* '(rest', error') :=
        setff_each visit rest (error || negb found) in
      ret (t' :: rest', error')
  end.

(** The loop over [ff.bond] for one bond; [r] is the observed length.
    [setpar] renames the bond after the record, and the records that
    follow are compared with the new name. *)
Fixpoint setff_bond (molname selfff : string) (r : float)
    (ffbonds : list ff_bond) (found : bool) (bd : bond)
    : py (bond * bool) :=
  match ffbonds with
  | [] => ret (bd, found)
  | ffbd :: rest =>
      let namestr := dash (fb_iatp ffbd) (fb_jatp ffbd) in
      let namerev := dash (fb_jatp ffbd) (fb_iatp ffbd) in
      let* name := getattr (b_name bd) in
      if String.eqb name namestr || String.eqb name namerev then
        when found (print (warn_dup_bond name selfff)) ;;;
        let bd := bond_setpar (fb_iatp ffbd) (fb_jatp ffbd) (fb_pot ffbd)
                    (fb_par ffbd) bd in
        when (negb (bond_checkval (fb_eqval ffbd) r))
          (print (warn_bond molname namestr (b_i bd + 1) (b_j bd + 1) r)) ;;;
        setff_bond molname selfff r rest true bd
      else setff_bond molname selfff r rest found bd
  end.

(** ['%s-%s' % (self.atom[bd.i].type, self.atom[bd.j].type)] *)
Definition bond_name (atoms : list atom) (bd : bond) : py string :=
  let* ti := atom_type atoms (b_i bd) in
  let* tj := atom_type atoms (b_j bd) in
  ret (dash ti tj).

(** [dist2atoms(self.atom[bd.i], self.atom[bd.j], box)] *)
Definition bond_length (box : option cell) (atoms : list atom) (bd : bond)
    : py float :=
  let* ai := py_index atoms (b_i bd) in
  let* aj := py_index atoms (b_j bd) in
  lift (dist2atoms ai aj box).

(** The body of the loop over [self.bond]. *)
Definition visit_bond (molname selfff : string) (ff : forcefield)
    (box : option cell) (atoms : list atom) (bd : bond)
    : py (bond * bool) :=
  let* name := bond_name atoms bd in
  let bd := bond_set_name name bd in
  let* r := bond_length box atoms bd in
  let* '(bd', found) :=
    setff_bond molname selfff r (ff_bond_list ff) false bd in
  (if found : bool then ret tt
   else print (err_no_bond molname name)) ;;;
  ret (bd', found).

(** The loop over [ff.angle] for one angle; [th] is the observed value.
    [check] turns false as soon as one matching record is too far from
    [th]. *)
Fixpoint setff_angle (selfff : string) (th : float)
    (ffangles : list ff_angle) (found check : bool) (an : angle)
    : py (angle * bool * bool) :=
  match ffangles with
  | [] => ret (an, found, check)
  | ffan :: rest =>
      let namestr := dash3 (fn_iatp ffan) (fn_jatp ffan) (fn_katp ffan) in
      let namerev := dash3 (fn_katp ffan) (fn_jatp ffan) (fn_iatp ffan) in
      let* name := getattr (an_name an) in
      if String.eqb name namestr || String.eqb name namerev then
        when found (print (warn_dup_angle name selfff)) ;;;
        let an := angle_setpar (fn_iatp ffan) (fn_jatp ffan) (fn_katp ffan)
                    (fn_pot ffan) (fn_par ffan) an in
        setff_angle selfff th rest true
          (if negb (angle_checkval (fn_eqval ffan) th) then false
           else check) an
      else setff_angle selfff th rest found check an
  end.

Definition angle_name (atoms : list atom) (an : angle) : py string :=
  let* ti := atom_type atoms (an_i an) in
  let* tj := atom_type atoms (an_j an) in
  let* tk := atom_type atoms (an_k an) in
  ret (dash3 ti tj tk).

(** [angle3atoms(self.atom[an.i], self.atom[an.j], self.atom[an.k], box)] *)
Definition angle_value (box : option cell) (atoms : list atom) (an : angle)
    : py float :=
  let* ai := py_index atoms (an_i an) in
  let* aj := py_index atoms (an_j an) in
  let* ak := py_index atoms (an_k an) in
  lift (angle3atoms ai aj ak box).

(** The body of the loop over the angles, up to the removal warning.  It
    returns the angle as the visit leaves it, [found] and [check]. *)
Definition visit_angle (molname selfff : string) (ff : forcefield)
    (box : option cell) (atoms : list atom) (an : angle)
    : py (angle * bool * bool) :=
  let* name := angle_name atoms an in
  let an := angle_set_name name an in
  let* th := angle_value box atoms an in
  let* '(an', found, check) :=
    setff_angle selfff th (ff_angle_list ff) false true an in
  (if check : bool then ret tt
   else
     let* name' := getattr (an_name an') in
     print (warn_angle_removed molname name'
              (an_i an + 1) (an_j an + 1) (an_k an + 1) th)) ;;;
  ret (an', found, check).

(** The loop over [ff.dihed] for one dihedral.  The duplicate warning of
    this loop formats [di.name], and [di] is the variable of the loop
    over the impropers, which has not started: the second match raises. *)
Fixpoint setff_dihed (ffdiheds : list ff_dihed) (found : bool) (dh : dihed)
    : py (dihed * bool) :=
  match ffdiheds with
  | [] => ret (dh, found)
  | ffdh :: rest =>
      let namestr := dash4 (fd_iatp ffdh) (fd_jatp ffdh) (fd_katp ffdh)
                       (fd_latp ffdh) in
      let namerev := dash4 (fd_latp ffdh) (fd_katp ffdh) (fd_jatp ffdh)
                       (fd_iatp ffdh) in
      let* name := getattr (dh_name dh) in
      if String.eqb name namestr || String.eqb name namerev then
        (if found then raise UnboundLocalError else ret tt) ;;;
        let dh := dihed_setpar (fd_iatp ffdh) (fd_jatp ffdh) (fd_katp ffdh)
                    (fd_latp ffdh) (fd_pot ffdh) (fd_par ffdh) dh in
        setff_dihed rest true dh
      else setff_dihed rest found dh
  end.

(** The name of a dihedral or improper from the types of its atoms. *)
Definition dihed_name (atoms : list atom) (d : dihed) : py string :=
  let* ti := atom_type atoms (dh_i d) in
  let* tj := atom_type atoms (dh_j d) in
  let* tk := atom_type atoms (dh_k d) in
  let* tl := atom_type atoms (dh_l d) in
  ret (dash4 ti tj tk tl).

(** The body of the loop over the dihedrals; there is no check, which is
    returned as [true]. *)
Definition visit_dihed (ff : forcefield) (atoms : list atom) (dh : dihed)
    : py (dihed * bool * bool) :=
  let* name := dihed_name atoms dh in
  let dh := dihed_set_name name dh in
  let* '(dh', found) := setff_dihed (ff_dihed_list ff) false dh in
  ret (dh', found, true).

(** The loop over [ff.dimpr] for one improper. *)
Fixpoint setff_dimpr (selfff : string) (ffdimprs : list ff_dihed)
    (found : bool) (di : dihed) : py (dihed * bool) :=
  match ffdimprs with
  | [] => ret (di, found)
  | ffdi :: rest =>
      let namestr := dash4 (fd_iatp ffdi) (fd_jatp ffdi) (fd_katp ffdi)
                       (fd_latp ffdi) in
      let namerev := dash4 (fd_latp ffdi) (fd_katp ffdi) (fd_jatp ffdi)
                       (fd_iatp ffdi) in
      let* name := getattr (dh_name di) in
      if String.eqb name namestr || String.eqb name namerev then
        when found (print (warn_dup_improper name selfff)) ;;;
        let di := dihed_setpar (fd_iatp ffdi) (fd_jatp ffdi) (fd_katp ffdi)
                    (fd_latp ffdi) (fd_pot ffdi) (fd_par ffdi) di in
        setff_dimpr selfff rest true di
      else setff_dimpr selfff rest found di
  end.

(** The body of the loop over the impropers. *)
Definition visit_dimpr (selfff : string) (ff : forcefield)
    (atoms : list atom) (di : dihed) : py (dihed * bool * bool) :=
  let* name := dihed_name atoms di in
  let di := dihed_set_name name di in
  let* '(di', found) := setff_dimpr selfff (ff_dimpr_list ff) false di in
  ret (di', found, true).

(** [if s not in miss: miss.append(s)] *)
Definition add_missing (s : string) (miss : list string) : list string :=
  if existsb (String.eqb s) miss then miss else miss ++ [s].

(** The loops over copies of [self.angle], [self.dihed] and [self.dimpr]
    have one shape.  The entries of a list are distinct instances and
    instances are compared by identity, so [remove] takes out exactly the
    entry being visited: the loop returns the entries that stay, in order,
    and the names of the missing types. *)
Fixpoint setff_prune {T} (visit : T -> py (T * bool * bool))
    (name_of : T -> option string) (snapshot : list T)
    (miss : list string) : py (list T * list string) :=
  match snapshot with
  | [] => ret ([], miss)
  | t :: rest =>
      let* '(t', found, check) := visit t in
      let* miss :=
        (if found : bool then ret miss
         else let* n := getattr (name_of t') in ret (add_missing n miss)) in
      let* '(kept, miss') := setff_prune visit name_of rest miss in
      ret (if check && found then t' :: kept else kept, miss')
  end.

(** The lines printed once all terms have been visited. *)
Definition missing_report (anmiss dhmiss dimiss : list string)
    : list line :=
  match anmiss, dhmiss, dimiss with
  | [], [], [] => []
  | _, _, _ =>
      warn_missing :: map miss_angle anmiss ++ map miss_dihed dhmiss
        ++ map miss_improper dimiss
  end.

(** mol.setff; [ff] is the database [forcefield(self.ff)], read only when
    the molecule names a force field. *)
Definition setff (ff : forcefield) (box : option cell) (self : mol)
    : py mol :=
  if negb (truthy (m_ff self)) then
    ret {| m_name := m_name self; m_ff := m_ff self;
           m_atom := map (fun a => atom_setpar (at_name a) 0%float "lj"
                                     [0%float; 0%float] a) (m_atom self);
           m_bond := m_bond self; m_angle := m_angle self;
           m_dihed := m_dihed self; m_dimpr := m_dimpr self;
           m_m := m_m self; m_nmol := m_nmol self;
           m_topol := m_topol self |}
  else
    let* '(atoms, error) :=
      setff_each (visit_atom (m_name self) (m_ff self) ff)
        (m_atom self) false in
    (if error : bool then sys_exit else ret tt) ;;;
    let* '(bonds, error) :=
      setff_each (visit_bond (m_name self) (m_ff self) ff box atoms)
        (m_bond self) false in
    (if error : bool then sys_exit else ret tt) ;;;
    let* '(angles, anmiss) :=
      setff_prune (visit_angle (m_name self) (m_ff self) ff box atoms)
        an_name (m_angle self) [] in
    let* '(diheds, dhmiss) :=
      setff_prune (visit_dihed ff atoms) dh_name (m_dihed self) [] in
    let* '(dimprs, dimiss) :=
      setff_prune (visit_dimpr (m_ff self) ff atoms) dh_name
        (m_dimpr self) [] in
    (missing_report anmiss dhmiss dimiss, Ok tt) ;;;
    ret {| m_name := m_name self; m_ff := m_ff self; m_atom := atoms;
           m_bond := bonds; m_angle := angles; m_dihed := diheds;
           m_dimpr := dimprs; m_m := m_m self; m_nmol := m_nmol self;
           m_topol := m_topol self |}.

(** mol.__init__ for a '.zmat' file. *)
Definition mol_init_zmat (ff : forcefield) (z : zmat) (connect : bool)
    (box : option cell) : py mol :=
  let* self := fromzmat ff z connect mol_empty in
  setff ff box self.

End Mol.

(* ===================================================================== *)
(** ** The system: type tables and type indices *)
(* ===================================================================== *)

(** [build_type_list] appends the terms of the species themselves to the
    type table, and [assign_type_index] writes [ityp] both through the term
    and through the table entry.  Terms are therefore handled by identity:
    [obj] is the type of the objects of one class, [name] reads their [name]
    attribute, which no function of the system changes, and the [ityp]
    attributes of all of them form the state, a function from objects to
    integers. *)
Section Aggregator.
Context {obj : Type} `{EqDecision obj}.
Variable name : obj -> string.

(** The inner loop of [build_type_list]. *)
Fixpoint name_found (a : obj) (termtype : list obj) (found : bool) : bool :=
  match termtype with
  | [] => found
  | b :: rest =>
      name_found a rest (if String.eqb (name a) (name b) then true
                         else found)
  end.

(** system.build_type_list; returns the table after the appends. *)
Fixpoint build_type_list (term termtype : list obj) : list obj :=
  match term with
  | [] => termtype
  | a :: rest =>
      let found := name_found a termtype false in
      build_type_list rest (if found then termtype else termtype ++ [a])
  end.

(** [for i in range(ntypes)] with its [break]: [entries] are the table
    entries from index [i] on. *)
Fixpoint assign_one (a : obj) (entries : list obj) (i : nat)
    (ityp : obj -> Z) : obj -> Z :=
  match entries with
  | [] => ityp
  | t :: rest =>
      if String.eqb (name a) (name t)
      then <[t := Z.of_nat i]> (<[a := Z.of_nat i]> ityp)
      else assign_one a rest (S i) ityp
  end.

(** system.assign_type_index *)
Fixpoint assign_type_index (term termtype : list obj) (ityp : obj -> Z)
    : obj -> Z :=
  match term with
  | [] => ityp
  | a :: rest =>
      assign_type_index rest termtype (assign_one a termtype 0 ityp)
  end.

(** The terms a table should hold: the first term of each name, in the
    order of the list.  [seen] are the names met so far. *)
Fixpoint first_of_each_name (seen : list string) (l : list obj)
    : list obj :=
  match l with
  | [] => []
  | a :: rest =>
      if bool_decide (name a ∈ seen) then first_of_each_name seen rest
      else a :: first_of_each_name (seen ++ [name a]) rest
  end.

(** [i] is the index of the first entry of the table with name [s]. *)
Definition first_index (termtype : list obj) (s : string) (i : nat) : Prop :=
  (exists t, termtype !! i = Some t /\ name t = s) /\
  forall j t, (j < i)%nat -> termtype !! j = Some t -> name t <> s.

(** The [ityp] attribute of [o] is the index of its name in the table. *)
Definition indexed (termtype : list obj) (ityp : obj -> Z) (o : obj) : Prop :=
  exists i, first_index termtype (name o) i /\ ityp o = Z.of_nat i.
End Aggregator.

(** The five classes of terms. *)
Inductive category : Type :=
| cat_atom | cat_bond | cat_angle | cat_dihed | cat_dimpr.

(** A species, as the system sees it: its five lists of terms. *)
Record species (obj : Type) : Type := mk_species {
  sp_atom : list obj;
  sp_bond : list obj;
  sp_angle : list obj;
  sp_dihed : list obj;
  sp_dimpr : list obj
}.
Arguments mk_species {obj}.
Arguments sp_atom {obj}.
Arguments sp_bond {obj}.
Arguments sp_angle {obj}.
Arguments sp_dihed {obj}.
Arguments sp_dimpr {obj}.

(** The type tables of class system, and the [ityp] attributes of the
    objects of each class. *)
Record system (obj : Type) : Type := mk_system {
  attype : list obj;
  bdtype : list obj;
  antype : list obj;
  dhtype : list obj;
  ditype : list obj;
  ityp_atom : obj -> Z;
  ityp_bond : obj -> Z;
  ityp_angle : obj -> Z;
  ityp_dihed : obj -> Z;
  ityp_dimpr : obj -> Z
}.
Arguments mk_system {obj}.
Arguments attype {obj}.
Arguments bdtype {obj}.
Arguments antype {obj}.
Arguments dhtype {obj}.
Arguments ditype {obj}.
Arguments ityp_atom {obj}.
Arguments ityp_bond {obj}.
Arguments ityp_angle {obj}.
Arguments ityp_dihed {obj}.
Arguments ityp_dimpr {obj}.

Section System.
Context {obj : Type} `{EqDecision obj}.
Variable name : obj -> string.

(** The first loop of system.__init__ over the species. *)
Fixpoint build_tables (spec : list (species obj)) (s : system obj)
    : system obj :=
  match spec with
  | [] => s
  | sp :: rest =>
      build_tables rest
        {| attype := build_type_list name (sp_atom sp) (attype s);
           bdtype := build_type_list name (sp_bond sp) (bdtype s);
           antype := build_type_list name (sp_angle sp) (antype s);
           dhtype := build_type_list name (sp_dihed sp) (dhtype s);
           ditype := build_type_list name (sp_dimpr sp) (ditype s);
           ityp_atom := ityp_atom s; ityp_bond := ityp_bond s;
           ityp_angle := ityp_angle s; ityp_dihed := ityp_dihed s;
           ityp_dimpr := ityp_dimpr s |}
  end.

(** The second loop of system.__init__ over the species. *)
Fixpoint assign_indices (spec : list (species obj)) (s : system obj)
    : system obj :=
  match spec with
  | [] => s
  | sp :: rest =>
      assign_indices rest
        {| attype := attype s; bdtype := bdtype s; antype := antype s;
           dhtype := dhtype s; ditype := ditype s;
           ityp_atom :=
             assign_type_index name (sp_atom sp) (attype s) (ityp_atom s);
           ityp_bond :=
             assign_type_index name (sp_bond sp) (bdtype s) (ityp_bond s);
           ityp_angle :=
             assign_type_index name (sp_angle sp) (antype s) (ityp_angle s);
           ityp_dihed :=
             assign_type_index name (sp_dihed sp) (dhtype s) (ityp_dihed s);
           ityp_dimpr :=
             assign_type_index name (sp_dimpr sp) (ditype s)
               (ityp_dimpr s) |}
  end.

(** system.__init__, up to the type indices; [ityp0] are the [ityp]
    attributes the objects come with (-1 from their constructors). *)
Definition system_init (spec : list (species obj)) (ityp0 : obj -> Z)
    : system obj :=
  assign_indices spec
    (build_tables spec
       {| attype := []; bdtype := []; antype := []; dhtype := [];
          ditype := []; ityp_atom := ityp0; ityp_bond := ityp0;
          ityp_angle := ityp0; ityp_dihed := ityp0; ityp_dimpr := ityp0 |}).

Definition sp_terms (c : category) (sp : species obj) : list obj :=
  match c with
  | cat_atom => sp_atom sp
  | cat_bond => sp_bond sp
  | cat_angle => sp_angle sp
  | cat_dihed => sp_dihed sp
  | cat_dimpr => sp_dimpr sp
  end.

Definition type_table (c : category) (s : system obj) : list obj :=
  match c with
  | cat_atom => attype s
  | cat_bond => bdtype s
  | cat_angle => antype s
  | cat_dihed => dhtype s
  | cat_dimpr => ditype s
  end.

Definition ityp_of (c : category) (s : system obj) : obj -> Z :=
  match c with
  | cat_atom => ityp_atom s
  | cat_bond => ityp_bond s
  | cat_angle => ityp_angle s
  | cat_dihed => ityp_dihed s
  | cat_dimpr => ityp_dimpr s
  end.

(** All terms of one class, species after species. *)
Definition all_terms (c : category) (spec : list (species obj)) : list obj :=
  concat (map (sp_terms c) spec).
End System.

(* ===================================================================== *)
(** ** Vocabulary of the properties *)
(* ===================================================================== *)

(** Matching a term name against the records of a database, as the loops
    of [setff] do it: a record has a forward and a reversed name, and a term
    matches it when its name is one of the two.  [hits] lists the records a
    scan matches: after each match the term carries the forward name of the
    record, which is what the records that follow are compared with. *)
Section Matching.
Context {R : Type}.
Variables fwd rev : R -> string.

Definition name_match (name : string) (r : R) : bool :=
  String.eqb name (fwd r) || String.eqb name (rev r).

Fixpoint hits (name : string) (rs : list R) : list R :=
  match rs with
  | [] => []
  | r :: rest =>
      if name_match name r then r :: hits (fwd r) rest
      else hits name rest
  end.

(** The records that match a name, whichever way it is written. *)
Definition matching (name : string) (rs : list R) : list R :=
  List.filter (name_match name) rs.

(** A database in which the two names of a record match the same
    records.  It is so whenever no type label contains a '-'
    ([coherent_bonds], [coherent_angles], [coherent_diheds]). *)
Definition coherent (rs : list R) : bool :=
  forallb (fun r =>
    forallb (fun r' =>
      Bool.eqb (name_match (fwd r) r') (name_match (rev r) r')) rs) rs.
End Matching.

Definition bond_fwd (r : ff_bond) : string := dash (fb_iatp r) (fb_jatp r).
Definition bond_rev (r : ff_bond) : string := dash (fb_jatp r) (fb_iatp r).
Definition angle_fwd (r : ff_angle) : string :=
  dash3 (fn_iatp r) (fn_jatp r) (fn_katp r).
Definition angle_rev (r : ff_angle) : string :=
  dash3 (fn_katp r) (fn_jatp r) (fn_iatp r).
Definition dihed_fwd (r : ff_dihed) : string :=
  dash4 (fd_iatp r) (fd_jatp r) (fd_katp r) (fd_latp r).
Definition dihed_rev (r : ff_dihed) : string :=
  dash4 (fd_latp r) (fd_katp r) (fd_jatp r) (fd_iatp r).

(** A type label without the character '-'. *)
Fixpoint dashless (s : string) : bool :=
  match s with
  | EmptyString => true
  | String c rest => negb (Ascii.eqb c "-") && dashless rest
  end.

(** Records whose labels have no '-'. *)
Definition bond_dashless (r : ff_bond) : bool :=
  dashless (fb_iatp r) && dashless (fb_jatp r).
Definition angle_dashless (r : ff_angle) : bool :=
  dashless (fn_iatp r) && dashless (fn_jatp r) && dashless (fn_katp r).
Definition dihed_dashless (r : ff_dihed) : bool :=
  dashless (fd_iatp r) && dashless (fd_jatp r) && dashless (fd_katp r)
  && dashless (fd_latp r).

(** The records of the database with the name of an atom. *)
Definition atom_matching (ff : forcefield) (a : atom) : list ff_atom :=
  List.filter (fun r => String.eqb (at_name a) (fa_name r)) (ff_atom_list ff).

(** A term with the parameters of a record. *)
Definition atom_typed (r : ff_atom) (a : atom) : atom :=
  set_m (fa_m r) (atom_setpar (fa_type r) (fa_q r) (fa_pot r) (fa_par r) a).
Definition bond_typed (r : ff_bond) (b : bond) : bond :=
  bond_setpar (fb_iatp r) (fb_jatp r) (fb_pot r) (fb_par r) b.
Definition angle_typed (r : ff_angle) (a : angle) : angle :=
  angle_setpar (fn_iatp r) (fn_jatp r) (fn_katp r) (fn_pot r) (fn_par r) a.
Definition dihed_typed (r : ff_dihed) (d : dihed) : dihed :=
  dihed_setpar (fd_iatp r) (fd_jatp r) (fd_katp r) (fd_latp r) (fd_pot r)
    (fd_par r) d.

(** The atoms as the first loop of [setff] leaves them: each with the
    parameters of the last record of its name, or untouched when there is
    none. *)
Definition atoms_typed (ff : forcefield) (atoms : list atom) : list atom :=
  map (fun a => match last (atom_matching ff a) with
                | Some r => atom_typed r a
                | None => a
                end) atoms.

(** The lines of the report on missing parameters. *)
Definition is_missing_line (l : line) : bool :=
  match l with
  | warn_missing | miss_angle _ | miss_dihed _ | miss_improper _ => true
  | _ => false
  end.

(** What a visit of the pruning loops leaves in the list: the term, when it
    was found and passed the check. *)
Definition kept {T} (v : py (T * bool * bool)) : option T :=
  match v with
  | (_, Ok (t', found, check)) => if check && found then Some t' else None
  | _ => None
  end.

(** A deviation beyond a tolerance, on binary64 numbers. *)
Definition deviates (tol eqval observed : float) : Prop :=
  PrimFloat.ltb tol (PrimFloat.abs (observed - eqval)%float) = true.

(** The two means of the mixing rules, on binary64 numbers. *)
Definition geometric_mean (a b : float) : float := PrimFloat.sqrt (a * b)%float.
Definition arithmetic_mean (a b : float) : float := ((a + b) / 2)%float.

(** An atom as [setpar] leaves it, for examples. *)
Definition typed_atom (name : string) (ityp : Z) (pot : string)
    (par : list float) : atom :=
  {| at_name := name; at_m := 0%float; at_ityp := ityp;
     at_x := 0%float; at_y := 0%float; at_z := 0%float;
     at_type := Some name; at_q := Some 0%float; at_pot := Some pot;
     at_par := Some par |}.

(* ===================================================================== *)
(** ** Vocabulary of the runs *)
(* ===================================================================== *)

(** Computations that print nothing. *)
Definition silent {A} (c : py A) : Prop := c.1 = [].

Definition nonempty {A} (l : list A) : bool := negb (Nat.eqb (length l) 0).

(** Runs that do not end in [sys.exit]. *)
Definition no_exit {A} (c : py A) : Prop := c.2 <> SysExit.

Definition bond_unmatched (ff : forcefield) (atoms : list atom) (bd : bond)
    (s : string) : Prop :=
  bond_name atoms bd = ([], Ok s) /\
  matching bond_fwd bond_rev s (ff_bond_list ff) = [].
Definition angle_unmatched (ff : forcefield) (atoms : list atom) (an : angle)
    (s : string) : Prop :=
  angle_name atoms an = ([], Ok s) /\
  matching angle_fwd angle_rev s (ff_angle_list ff) = [].
Definition dihed_unmatched (ff : forcefield) (atoms : list atom) (dh : dihed)
    (s : string) : Prop :=
  dihed_name atoms dh = ([], Ok s) /\
  matching dihed_fwd dihed_rev s (ff_dihed_list ff) = [].
Definition dimpr_unmatched (ff : forcefield) (atoms : list atom) (di : dihed)
    (s : string) : Prop :=
  dihed_name atoms di = ([], Ok s) /\
  matching dihed_fwd dihed_rev s (ff_dimpr_list ff) = [].

(* ===================================================================== *)
(** ** Linear chains *)
(* ===================================================================== *)

(** The two atoms a bond joins, smaller index first. *)
Definition ends (b : bond) : Z * Z :=
  (Z.min (b_i b) (b_j b), Z.max (b_i b) (b_j b)).

(** The pairs of consecutive atoms among [n]. *)
Definition chain_ends (n : nat) : list (Z * Z) :=
  map (fun k => (Z.of_nat k, Z.of_nat k + 1)) (seq 0 (n - 1)).

(** The bonds of a linear chain over [n] atoms: up to the order of the list
    and the order of the two indices in each bond, the bonds between
    consecutive atoms, each once. *)
Definition linear_chain (n : nat) (bonds : list bond) : Prop :=
  Permutation (map ends bonds) (chain_ends n).

(** Whether atom [i] is one of the two atoms of a pair, as a number. *)
Definition touches (i : Z) (e : Z * Z) : nat :=
  if (i =? e.1) || (i =? e.2) then 1%nat else 0%nat.

Definition touchb (x : Z) (e : Z * Z) : bool := (x =? e.1) || (x =? e.2).

(** The loops of the dihedral search count, for a middle bond with atoms
    [(x, y)] and pair [ek]: the third bonds, which are neither the middle
    bond nor the first one (pair [el]) and hold atom [y]; and the first
    bonds, which are not the middle bond and hold atom [x], each with its
    third bonds. *)
Definition third_term (ek : Z * Z) (y : Z) (el e : Z * Z) : nat :=
  if bool_decide (e = ek) || bool_decide (e = el) then 0%nat
  else if touchb y e then 1%nat else 0%nat.

Definition third_count (bonds : list bond) (ek : Z * Z) (y : Z) (el : Z * Z)
    : nat :=
  sum_list_with (fun bj => third_term ek y el (ends bj)) bonds.

Definition first_term (bonds : list bond) (ek : Z * Z) (x y : Z)
    (el : Z * Z) : nat :=
  if bool_decide (el = ek) then 0%nat
  else if touchb x el then third_count bonds ek y el else 0%nat.

Definition first_count (bonds : list bond) (bk : bond) : nat :=
  sum_list_with
    (fun bl => first_term bonds (ends bk) (b_i bk) (b_j bk) (ends bl)) bonds.

(* ===================================================================== *)
(** ** Examples *)
(* ===================================================================== *)

(** A geometry for the examples: distances as [dist2atoms] computes them
    without periodic wrapping (and below overflow); angles only where the
    cosine of the program is exactly 0, -1 or 1, for which [math.acos]
    times [180.0 / math.pi] gives 90.0, 180.0 and 0.0; positions of a
    z-matrix only for its first two atoms, which [zmat2cart] puts at the
    origin and on the x axis. *)
Definition example_geometry : Geometry :=
  {| dist2atoms := fun ai aj _ =>
       let dx := (at_x aj - at_x ai)%float in
       let dy := (at_y aj - at_y ai)%float in
       let dz := (at_z aj - at_z ai)%float in
       inr (PrimFloat.sqrt (dx * dx + dy * dy + dz * dz))%float;
     angle3atoms := fun ai aj ak _ =>
       let djix := (at_x ai - at_x aj)%float in
       let djiy := (at_y ai - at_y aj)%float in
       let djiz := (at_z ai - at_z aj)%float in
       let djkx := (at_x ak - at_x aj)%float in
       let djky := (at_y ak - at_y aj)%float in
       let djkz := (at_z ak - at_z aj)%float in
       let dot := (djix * djkx + djiy * djky + djiz * djkz)%float in
       let nji := PrimFloat.sqrt (djix * djix + djiy * djiy + djiz * djiz) in
       let njk := PrimFloat.sqrt (djkx * djkx + djky * djky + djkz * djkz) in
       let c := (dot / (nji * njk))%float in
       if PrimFloat.eqb c 0 then inr 90%float
       else if PrimFloat.eqb c (-1) then inr 180%float
       else if PrimFloat.eqb c 1 then inr 0%float
       else inl ValueError;
     zmat_positions := fun zs =>
       match zs with
       | [] => inr []
       | [_] => inr [(0, 0, 0)%float]
       | [_; z2] => inr [(0, 0, 0)%float; (z_r z2, 0, 0)%float]
       | _ => inl ValueError
       end |}.

(** An atom read from a file, at a position. *)
Definition placed_atom (name : string) (m x y z : float) : atom :=
  {| at_name := name; at_m := m; at_ityp := -1;
     at_x := x; at_y := y; at_z := z;
     at_type := None; at_q := None; at_pot := None; at_par := None |}.

(** A small parameter file.  The name "C" has two atom records, the bond
    between "CA" and "HC" and the improper have two records each, written
    in opposite orders, and there is no record for the angle CA-CA-OH nor
    for any dihedral. *)
Definition example_rows : list ff_row :=
  [ row_atom "C" "CT" 12.011 (-0.18) "lj" [0.066; 3.5];
    row_atom "C" "CA" 12.011 (-0.115) "lj" [0.07; 3.55];
    row_atom "H" "HC" 1.008 0.06 "lj" [0.03; 2.5];
    row_atom "O" "OH" 15.999 (-0.683) "lj" [0.17; 3.12];
    row_bond "CA" "HC" "harm" [1.08; 3071];
    row_bond "HC" "CA" "cons" [1.09; 2845];
    row_bond "CA" "CA" "harm" [1.40; 3925];
    row_bond "CA" "OH" "harm" [1.36; 3766];
    row_angle "CA" "CA" "HC" "harm" [120; 293];
    row_dimpr "CA" "CA" "OH" "HC" "opls" [0; 9.2; 0; 0];
    row_dimpr "HC" "OH" "CA" "CA" "opls" [0; 10.5; 0; 0] ]%float.

Definition empty_forcefield : forcefield := mk_forcefield [] [] [] [] [].

(** The database a run of [forcefield.__init__] returns, if it returns. *)
Definition loaded (rows : list ff_row) : forcefield :=
  match forcefield_init rows with
  | (_, Ok ff) => ff
  | _ => empty_forcefield
  end.

Definition example_ff : forcefield := loaded example_rows.

(** H-C-C-O with right angles at the two carbons, bonds declared in the
    file, one improper. *)
Definition example_mol : mol :=
  anglesdiheds
    {| m_name := "ex"; m_ff := "ex.ff";
       m_atom := [placed_atom "H" 1.008 0 1.4 0;
                  placed_atom "C" 12.011 0 0 0;
                  placed_atom "C" 12.011 1.4 0 0;
                  placed_atom "O" 15.999 1.4 1.36 0]%float;
       m_bond := [bond_init 0 1; bond_init 1 2; bond_init 2 3];
       m_angle := []; m_dihed := []; m_dimpr := [dihed_init 1 2 3 0];
       m_m := 41.029%float; m_nmol := 1; m_topol := "file" |}.

Definition example_run : py mol :=
  setff (H := example_geometry) example_ff None example_mol.
Definition example_out : list line := example_run.1.
Definition example_typed : mol :=
  match example_run.2 with Ok m => m | _ => example_mol end.

(** The same atoms without bonds, for [connectivity]. *)
Definition example_unbonded : mol :=
  {| m_name := "ex"; m_ff := "ex.ff"; m_atom := m_atom example_mol;
     m_bond := []; m_angle := []; m_dihed := []; m_dimpr := [];
     m_m := 41.029%float; m_nmol := 1; m_topol := "none" |}.
Definition example_connected : mol :=
  match (connectivity (H := example_geometry) example_ff None
           example_unbonded).2 with
  | Ok m => m
  | _ => example_unbonded
  end.

(** A C-O pair under three parameter files: one with the bond record
    written CA OH, one with the same record written OH CA, one without
    bond records. *)
Definition co_mol (ffname : string) : mol :=
  {| m_name := "CO"; m_ff := ffname;
     m_atom := [placed_atom "C" 12.011 0 0 0;
                placed_atom "O" 15.999 1.36 0 0]%float;
     m_bond := [bond_init 0 1];
     m_angle := []; m_dihed := []; m_dimpr := [];
     m_m := 28.01%float; m_nmol := 1; m_topol := "file" |}.
Definition co_atoms : list ff_row :=
  [ row_atom "C" "CA" 12.011 (-0.115) "lj" [0.07; 3.55];
    row_atom "O" "OH" 15.999 (-0.683) "lj" [0.17; 3.12] ]%float.
Definition ff_fwd : forcefield :=
  loaded (co_atoms ++ [row_bond "CA" "OH" "harm" [1.36; 3766]%float]).
Definition ff_rev : forcefield :=
  loaded (co_atoms ++ [row_bond "OH" "CA" "harm" [1.36; 3766]%float]).
Definition ff_nobond : forcefield := loaded co_atoms.

Definition typed_by (ff : forcefield) (m : mol) : mol :=
  match (setff (H := example_geometry) ff None m).2 with
  | Ok m' => m'
  | _ => m
  end.

(** A dihedral H-C-C-O with two records in the database. *)
Definition ff_two_diheds : forcefield :=
  loaded (example_rows ++
          [row_dihed "HC" "CA" "CA" "OH" "opls" [0; 0; 0.3; 0]%float;
           row_dihed "OH" "CA" "CA" "HC" "opls" [0; 0; 0.3; 0]%float]).


(** The objects of the terms of a list of molecules: class, number of the
    species, position in the list of the species. *)
Definition term_ref : Type := category * nat * nat.

Global Instance category_eq_dec : EqDecision category.
Proof. solve_decision. Defined.

Definition refs (c : category) (k n : nat) : list term_ref :=
  map (fun p => (c, k, p)) (seq 0 n).

Definition mol_refs (k : nat) (m : mol) : species term_ref :=
  {| sp_atom := refs cat_atom k (length (m_atom m));
     sp_bond := refs cat_bond k (length (m_bond m));
     sp_angle := refs cat_angle k (length (m_angle m));
     sp_dihed := refs cat_dihed k (length (m_dihed m));
     sp_dimpr := refs cat_dimpr k (length (m_dimpr m)) |}.

(** The [name] attribute of an object.  Terms that reach the system were
    named by [setff]; the empty string stands for an object that does not
    exist. *)
Definition term_name (mols : list mol) (r : term_ref) : string :=
  let '(c, k, p) := r in
  match mols !! k with
  | None => ""
  | Some m =>
      match c with
      | cat_atom => from_option at_name "" (m_atom m !! p)
      | cat_bond => default "" (m_bond m !! p ≫= b_name)
      | cat_angle => default "" (m_angle m !! p ≫= an_name)
      | cat_dihed => default "" (m_dihed m !! p ≫= dh_name)
      | cat_dimpr => default "" (m_dimpr m !! p ≫= dh_name)
      end
  end.

(** system.__init__ on a list of molecules. *)
Definition system_of (mols : list mol) : system term_ref :=
  system_init (term_name mols) (imap mol_refs mols) (fun _ => -1).

(* ===================================================================== *)
(** ** Further functions of the program *)
(* ===================================================================== *)



(** mol.charge: [q = 0.0], then [q += at.q] for every atom. *)
Fixpoint charge_from (q : float) (atoms : list atom) : py float :=
  match atoms with
  | [] => ret q
  | a :: rest =>
      let* aq := getattr (at_q a) in
      charge_from (q + aq)%float rest
  end.

Definition charge (self : mol) : py float := charge_from 0%float (m_atom self).

(** The last loop of system.__init__: [for j in range(i, nattypes)], given
    as the list of its values. *)
Fixpoint vdw_row (attype : list atom) (mix : string) (i : nat)
    (js : list nat) : py (list vdw) :=
  match js with
  | [] => ret []
  | j :: rest =>
      let* iat := py_index attype (Z.of_nat i) in
      let* jat := py_index attype (Z.of_nat j) in
      let* v := vdw_init iat jat mix in
      let* more := vdw_row attype mix i rest in
      ret (v :: more)
  end.

(** [for i in range(nattypes)] *)
Fixpoint vdw_rows (attype : list atom) (mix : string) (nattypes : nat)
    (idx : list nat) : py (list vdw) :=
  match idx with
  | [] => ret []
  | i :: rest =>
      let* new := vdw_row attype mix i (seq i (nattypes - i)) in
      let* more := vdw_rows attype mix nattypes rest in
      ret (new ++ more)
  end.

(** The records [self.vdw] of a system whose table of atom types is
    [attype]. *)
Definition system_vdw (attype : list atom) (mix : string) : py (list vdw) :=
  let nattypes := length attype in
  vdw_rows attype mix nattypes (seq 0 nattypes).

(** The rows of one section of a parameter file, in the order of the
    file. *)
Definition atom_rows (rows : list ff_row)
    : list (string * string * float * float * string * list float) :=
  omap (fun row => match row with
                   | row_atom name attp m q pot par =>
                       Some (name, attp, m, q, pot, par)
                   | _ => None
                   end) rows.
Definition bond_rows (rows : list ff_row)
    : list (string * string * string * list float) :=
  omap (fun row => match row with
                   | row_bond iatp jatp pot par => Some (iatp, jatp, pot, par)
                   | _ => None
                   end) rows.
Definition angle_rows (rows : list ff_row)
    : list (string * string * string * string * list float) :=
  omap (fun row => match row with
                   | row_angle iatp jatp katp pot par =>
                       Some (iatp, jatp, katp, pot, par)
                   | _ => None
                   end) rows.
Definition dihed_rows (rows : list ff_row) : list ff_dihed :=
  omap (fun row => match row with
                   | row_dihed iatp jatp katp latp pot par =>
                       Some (mk_ff_dihed iatp jatp katp latp pot par)
                   | _ => None
                   end) rows.
Definition dimpr_rows (rows : list ff_row) : list ff_dihed :=
  omap (fun row => match row with
                   | row_dimpr iatp jatp katp latp pot par =>
                       Some (mk_ff_dihed iatp jatp katp latp pot par)
                   | _ => None
                   end) rows.

(** The two kinds of potential that [seteqval] knows. *)
Definition known_pot (pot : string) : bool :=
  String.eqb pot "harm" || String.eqb pot "cons".

(** The mass an atom record of the database gets from its row. *)
Definition row_mass (name : string) (m w : float) : Prop :=
  if PrimFloat.eqb m 0 then (atomic_weight name).2 = Ok w else w = m.

(** What the records of the database keep of their rows. *)
Definition atom_of_row
    (row : string * string * float * float * string * list float)
    (a : ff_atom) : Prop :=
  let '(name, attp, m, q, pot, par) := row in
  fa_name a = name /\ fa_type a = attp /\ fa_q a = q /\ fa_pot a = pot /\
  fa_par a = par /\ row_mass name m (fa_m a).

(** The warning of [atomic_weight]. *)
Definition is_weight_line (l : line) : bool :=
  match l with warn_unknown_weight _ => true | _ => false end.

Definition bond_of_row (row : string * string * string * list float)
    (b : ff_bond) : Prop :=
  row = (fb_iatp b, fb_jatp b, fb_pot b, fb_par b) /\
  known_pot (fb_pot b) = true /\ head (fb_par b) = Some (fb_eqval b).

Definition angle_of_row
    (row : string * string * string * string * list float)
    (a : ff_angle) : Prop :=
  row = (fn_iatp a, fn_jatp a, fn_katp a, fn_pot a, fn_par a) /\
  known_pot (fn_pot a) = true /\ head (fn_par a) = Some (fn_eqval a).

(** An atom as the first loop of [connectivity] leaves it: with the type
    of the last record of its name, or untouched when there is none. *)
Definition label_atom (ff : forcefield) (a : atom) : atom :=
  match last (atom_matching ff a) with
  | Some r => set_type (fa_type r) a
  | None => a
  end.

(** The atoms without a record in the database, in order. *)
Definition unmatched_atoms (ff : forcefield) (atoms : list atom) : list atom :=
  List.filter (fun a => negb (nonempty (atom_matching ff a))) atoms.

(** The bonds [connectivity] appends for the pair of positions [(i, j)]. *)
Definition pair_bonds `{Geometry} (ff : forcefield) (box : option cell)
    (atoms : list atom) (i j : nat) : list bond :=
  match atoms !! i, atoms !! j with
  | Some ai, Some aj =>
      match dist2atoms ai aj box, at_type ai, at_type aj with
      | inr r, Some ti, Some tj =>
          connectivity_pair (Z.of_nat i) (Z.of_nat j) (dash ti tj) r
            (ff_bond_list ff)
      | _, _, _ => []
      end
  | _, _ => []
  end.

(** The order in which [connectivity] visits the pairs. *)
Definition pair_le (b b' : bond) : Prop :=
  b_i b < b_i b' \/ (b_i b = b_i b' /\ b_j b <= b_j b').

(** A list whose entries come in the order [R], read by positions. *)
Definition ordered {B} (R : B -> B -> Prop) (l : list B) : Prop :=
  forall p q x y, (p < q)%nat -> l !! p = Some x -> l !! q = Some y -> R x y.

(** Whether a bond holds atom [i], and the atom at its other end. *)
Definition joins (i : Z) (b : bond) : bool := (i =? b_i b) || (i =? b_j b).
Definition other_end (i : Z) (b : bond) : Z :=
  if i =? b_i b then b_j b else b_i b.

(** [a] stands before [b] in a list. *)
Definition before {A} (l : list A) (a b : A) : Prop :=
  exists p q, (p < q)%nat /\ l !! p = Some a /\ l !! q = Some b.






(** What [setff] does not touch: the name, place and type index of an
    atom, and the atoms a bonded term joins. *)
Definition same_place (a a' : atom) : Prop :=
  at_name a' = at_name a /\ at_x a' = at_x a /\ at_y a' = at_y a /\
  at_z a' = at_z a /\ at_ityp a' = at_ityp a.
Definition bond_atoms (b : bond) : Z * Z := (b_i b, b_j b).
Definition angle_atoms (a : angle) : Z * Z * Z := (an_i a, an_j a, an_k a).
Definition dihed_atoms (d : dihed) : Z * Z * Z * Z :=
  (dh_i d, dh_j d, dh_k d, dh_l d).

(** An atom with the four attributes that [setpar] sets. *)
Definition has_parameters (a : atom) : Prop :=
  is_Some (at_type a) /\ is_Some (at_q a) /\ is_Some (at_pot a) /\
  is_Some (at_par a).

(** [q += at.q] over atoms whose charge is set. *)
Definition sum_charges (atoms : list atom) : float :=
  fold_left (fun q a => (q + default 0%float (at_q a))%float) atoms 0%float.

(** The pairs of atom types that get a van der Waals record: each type
    with itself and with every type after it in the table. *)
Fixpoint type_pairs (attype : list atom) : list (atom * atom) :=
  match attype with
  | [] => []
  | a :: rest => map (pair a) (a :: rest) ++ type_pairs rest
  end.

(** One van der Waals record after the other, for a list of pairs. *)
Fixpoint vdw_each (mix : string) (ps : list (atom * atom)) : py (list vdw) :=
  match ps with
  | [] => ret []
  | (a, b) :: rest =>
      let* v := vdw_init a b mix in
      let* more := vdw_each mix rest in
      ret (v :: more)
  end.

(* ===================================================================== *)
(** * Properties *)
(* ===================================================================== *)

Lemma truthy_spec (s : string) : truthy s = true <-> s <> ""%string.
Proof.
  unfold truthy. rewrite negb_true_iff.
  destruct (String.eqb_spec s "") as [->|Hne]; split; intros; congruence.
Qed.

(** C9: a cell built with a non-empty periodicity specification stores the gap
    0.0 whatever gap the caller passed; with an empty specification it stores
    the caller's gap. *)
Theorem cell_tol_pbc (a b c : float) (pbc : string) (tol : float)
    (center : bool) :
  (pbc <> ""%string -> c_tol (cell_init a b c pbc tol center) = 0%float) /\
  (pbc = ""%string -> c_tol (cell_init a b c pbc tol center) = tol).
Proof.
  split; intros H; cbn.
  - apply truthy_spec in H. now rewrite H.
  - subst pbc. reflexivity.
Qed.

Lemma cell_tol_pbc_witness :
  c_tol (cell_init 30 30 30 "xyz" 2 true) = 0%float /\
  c_tol (cell_init 30 30 30 "" 2 true) = 2%float.
Proof.
  split.
  - apply (proj1 (cell_tol_pbc 30 30 30 "xyz" 2 true)). discriminate.
  - apply (proj2 (cell_tol_pbc 30 30 30 "" 2 true)). reflexivity.
Defined.

(** C10: a name whose first two characters and whose first character are both
    missing from [atomic_wt] gets weight 0.0, with one warning printed and no
    abort; an atom built from it with no explicit mass has mass 0.0.  (The
    name [String c rest] is any name that has a first character.) *)
Theorem atomic_weight_unknown (c : ascii) (rest : string) :
  let name := String c rest in
  atomic_wt !! prefix2 name = None ->
  atomic_wt !! String c EmptyString = None ->
  atomic_weight name = ([warn_unknown_weight name], Ok 0%float) /\
  exists a, atom_init name 0%float = ([warn_unknown_weight name], Ok a) /\
            at_m a = 0%float /\ at_name a = name.
Proof.
  intros name H2 H1.
  assert (Hw : atomic_weight name = ([warn_unknown_weight name], Ok 0%float)).
  { unfold atomic_weight. rewrite H2. subst name. cbn [first_char bind ret].
    rewrite H1. reflexivity. }
  split; [exact Hw|].
  eexists. unfold atom_init.
  replace (PrimFloat.eqb 0 0) with true by reflexivity.
  rewrite Hw. cbn. repeat split.
Qed.

Lemma atomic_weight_unknown_witness :
  atomic_weight "Xx1" = ([warn_unknown_weight "Xx1"], Ok 0%float) /\
  exists a, atom_init "Xx1" 0%float = ([warn_unknown_weight "Xx1"], Ok a) /\
            at_m a = 0%float /\ at_name a = "Xx1"%string.
Proof.
  apply (atomic_weight_unknown "X" "x1"); vm_compute; reflexivity.
Defined.

(* ===================================================================== *)
(** ** van der Waals records *)
(* ===================================================================== *)

Lemma bind_ret_l {A B} (a : A) (k : A -> py B) : bind (ret a) k = k a.
Proof. unfold bind, ret. destruct (k a). reflexivity. Qed.

Lemma math_sqrt_ok (x : float) :
  PrimFloat.ltb x 0 = false -> math_sqrt x = ret (PrimFloat.sqrt x).
Proof. unfold math_sqrt. now intros ->. Qed.

(** Both guards of vdw.__init__ pass: equal kinds, lists of equal length. *)
Ltac vdw_pass_guards Hpi Hpj Hai Haj Hlen :=
  unfold vdw_init; rewrite Hpi, Hpj, Hai, Haj; cbn [getattr];
  rewrite !bind_ret_l, String.eqb_refl; cbn [negb];
  rewrite !bind_ret_l, Hlen, Nat.eqb_refl; cbn [negb];
  rewrite bind_ret_l.

(** C5 (amended): for two atom types of kind 'lj' with parameter lists of
    equal length, equal names copy the first type's list; different names,
    when each list has at least two entries and no product under a square
    root is negative, give the geometric ('g') or arithmetic (any other rule)
    mean of the first parameters and the geometric mean of the second. *)
Theorem vdw_lj_mixing (iat jat : atom) (mix : string)
    (ipar jpar : list float) :
  at_pot iat = Some "lj"%string -> at_pot jat = Some "lj"%string ->
  at_par iat = Some ipar -> at_par jat = Some jpar ->
  length ipar = length jpar ->
  (at_name iat = at_name jat ->
   exists v, vdw_init iat jat mix = ([], Ok v) /\ v_par v = Some ipar) /\
  (at_name iat <> at_name jat ->
   forall p0 p1 q0 q1 pr qr,
     ipar = p0 :: p1 :: pr -> jpar = q0 :: q1 :: qr ->
     PrimFloat.ltb (p1 * q1) 0 = false ->
     (mix = "g"%string -> PrimFloat.ltb (p0 * q0) 0 = false) ->
     exists v, vdw_init iat jat mix = ([], Ok v) /\
       v_par v = Some [if String.eqb mix "g" then geometric_mean p0 q0
                       else arithmetic_mean p0 q0;
                       geometric_mean p1 q1]).
Proof.
  intros Hpi Hpj Hai Haj Hlen. vdw_pass_guards Hpi Hpj Hai Haj Hlen.
  split.
  - intros Hn. rewrite Hn, String.eqb_refl. cbn. eauto.
  - intros Hn p0 p1 q0 q1 pr qr -> -> H1 H0.
    apply String.eqb_neq in Hn. rewrite Hn. cbn [String.eqb Ascii.eqb].
    change (String.eqb "lj" "lj") with true. cbv iota.
    assert (Hix : forall (x y : float) (r : list float),
               py_index (x :: y :: r) 0 = ret x /\
               py_index (x :: y :: r) 1 = ret y).
    { intros x y r. unfold py_index.
      assert (2 <= Z.of_nat (length (x :: y :: r))) by (cbn [length]; lia).
      split.
      - replace (0 <? 0) with false by reflexivity.
        replace (Z.of_nat (length (x :: y :: r)) <=? 0) with false
          by (symmetry; apply Z.leb_gt; lia). reflexivity.
      - replace (1 <? 0) with false by reflexivity.
        replace (Z.of_nat (length (x :: y :: r)) <=? 1) with false
          by (symmetry; apply Z.leb_gt; lia). reflexivity. }
    destruct (Hix p0 p1 pr) as [Hi0 Hi1]. destruct (Hix q0 q1 qr) as [Hj0 Hj1].
    rewrite Hi0, Hj0, Hi1, Hj1.
    destruct (String.eqb_spec mix "g") as [Hg|Hg].
    + rewrite !bind_ret_l, (math_sqrt_ok _ (H0 Hg)), !bind_ret_l.
      rewrite (math_sqrt_ok _ H1), bind_ret_l. cbn. eauto.
    + rewrite !bind_ret_l, (math_sqrt_ok _ H1), bind_ret_l. cbn. eauto.
Qed.

Lemma vdw_lj_mixing_witness :
  (exists v, vdw_init (typed_atom "CT" 0 "lj" [0.066; 3.5]%float)
                      (typed_atom "CT" 0 "lj" [0.066; 3.5]%float) "g"
             = ([], Ok v) /\ v_par v = Some [0.066; 3.5]%float) /\
  (exists v, vdw_init (typed_atom "CT" 0 "lj" [0.066; 3.5]%float)
                      (typed_atom "HC" 1 "lj" [0.03; 2.5]%float) "g"
             = ([], Ok v) /\
     v_par v = Some [geometric_mean 0.066 0.03; geometric_mean 3.5 2.5]) /\
  (exists v, vdw_init (typed_atom "CT" 0 "lj" [0.066; 3.5]%float)
                      (typed_atom "HC" 1 "lj" [0.03; 2.5]%float) "a"
             = ([], Ok v) /\
     v_par v = Some [arithmetic_mean 0.066 0.03; geometric_mean 3.5 2.5]).
Proof.
  split; [|split].
  - apply (vdw_lj_mixing (typed_atom "CT" 0 "lj" [0.066; 3.5]%float)
             (typed_atom "CT" 0 "lj" [0.066; 3.5]%float) "g"
             [0.066; 3.5]%float [0.066; 3.5]%float); reflexivity.
  - apply (proj2 (vdw_lj_mixing (typed_atom "CT" 0 "lj" [0.066; 3.5]%float)
             (typed_atom "HC" 1 "lj" [0.03; 2.5]%float) "g"
             [0.066; 3.5]%float [0.03; 2.5]%float
             eq_refl eq_refl eq_refl eq_refl eq_refl)
           ltac:(discriminate) 0.066%float 3.5%float 0.03%float 2.5%float
           [] [] eq_refl eq_refl); reflexivity.
  - apply (proj2 (vdw_lj_mixing (typed_atom "CT" 0 "lj" [0.066; 3.5]%float)
             (typed_atom "HC" 1 "lj" [0.03; 2.5]%float) "a"
             [0.066; 3.5]%float [0.03; 2.5]%float
             eq_refl eq_refl eq_refl eq_refl eq_refl)
           ltac:(discriminate) 0.066%float 3.5%float 0.03%float 2.5%float
           [] [] eq_refl eq_refl); [reflexivity | discriminate].
Defined.

(** C5 as stated fails: two 'lj' types with different names and parameter
    lists of equal length can make the constructor raise, either because the
    lists are shorter than two entries or because a product is negative. *)
Lemma vdw_lj_mixing_counterexample :
  vdw_init (typed_atom "A" 0 "lj" []) (typed_atom "B" 1 "lj" []) "g"
    = ([], Raise IndexError) /\
  vdw_init (typed_atom "A" 0 "lj" [1; 1]%float)
           (typed_atom "B" 1 "lj" [(-1); 1]%float) "g"
    = ([], Raise ValueError).
Proof. split; vm_compute; reflexivity. Qed.

(** C8 (amended): for two atom types of the same kind other than 'lj' with
    parameter lists of equal length, the constructor returns a record that
    has the two names, the two type indices and the kind, and no parameter
    list; nothing is printed. *)
Theorem vdw_other_kind (iat jat : atom) (mix pot : string)
    (ipar jpar : list float) :
  at_pot iat = Some pot -> at_pot jat = Some pot -> pot <> "lj"%string ->
  at_par iat = Some ipar -> at_par jat = Some jpar ->
  length ipar = length jpar ->
  vdw_init iat jat mix =
    ([], Ok {| v_i := at_name iat; v_j := at_name jat;
               v_ityp := at_ityp iat; v_jtyp := at_ityp jat;
               v_pot := pot; v_par := None |}).
Proof.
  intros Hpi Hpj Hlj Hai Haj Hlen. vdw_pass_guards Hpi Hpj Hai Haj Hlen.
  apply String.eqb_neq in Hlj. now rewrite Hlj.
Qed.

Lemma vdw_other_kind_witness :
  vdw_init (typed_atom "Na" 0 "buck" [1; 2; 3]%float)
           (typed_atom "Cl" 1 "buck" [4; 5; 6]%float) "g" =
    ([], Ok {| v_i := "Na"; v_j := "Cl"; v_ityp := 0; v_jtyp := 1;
               v_pot := "buck"; v_par := None |}).
Proof.
  apply (vdw_other_kind (typed_atom "Na" 0 "buck" [1; 2; 3]%float)
           (typed_atom "Cl" 1 "buck" [4; 5; 6]%float) "g" "buck"
           [1; 2; 3]%float [4; 5; 6]%float);
    (reflexivity || discriminate).
Defined.

(** C8 as stated fails: equal kinds other than 'lj' with parameter lists of
    different lengths end in [sys.exit(1)]. *)
Lemma vdw_other_kind_counterexample :
  vdw_init (typed_atom "Na" 0 "buck" [1; 2; 3]%float)
           (typed_atom "Cl" 1 "buck" [4; 5]%float) "g" =
    ([err_vdw_len "Na" "Cl"], SysExit).
Proof. vm_compute. reflexivity. Qed.

(* ===================================================================== *)
(** ** Type tables and type indices *)
(* ===================================================================== *)

Section AggregatorFacts.
Context {obj : Type} `{EqDecision obj}.
Variable name : obj -> string.

Lemma name_found_spec (a : obj) (termtype : list obj) (found : bool) :
  name_found name a termtype found
  = found || bool_decide (name a ∈ name <$> termtype).
Proof.
  revert found. induction termtype as [|b rest IH]; intros found; cbn.
  - rewrite bool_decide_eq_false_2 by apply not_elem_of_nil.
    now rewrite orb_false_r.
  - rewrite IH. destruct (String.eqb_spec (name a) (name b)) as [E|E].
    + rewrite (bool_decide_eq_true_2 (name a ∈ name b :: (name <$> rest)))
        by (rewrite E; apply list_elem_of_here).
      now rewrite orb_true_r.
    + f_equal. apply bool_decide_ext. rewrite elem_of_cons. tauto.
Qed.

Lemma build_type_list_spec (term termtype : list obj) :
  build_type_list name term termtype
  = termtype ++ first_of_each_name name (name <$> termtype) term.
Proof.
  revert termtype. induction term as [|a rest IH]; intros termtype; cbn.
  - now rewrite app_nil_r.
  - rewrite name_found_spec. cbn [orb].
    destruct (bool_decide (name a ∈ name <$> termtype)).
    + apply IH.
    + rewrite IH, fmap_app, <- app_assoc. reflexivity.
Qed.

Lemma build_type_list_app (l1 l2 termtype : list obj) :
  build_type_list name (l1 ++ l2) termtype
  = build_type_list name l2 (build_type_list name l1 termtype).
Proof.
  revert termtype. induction l1 as [|a l1 IH]; intros termtype; cbn;
    [reflexivity | apply IH].
Qed.

Lemma assign_type_index_app (l1 l2 termtype : list obj) (ityp : obj -> Z) :
  assign_type_index name (l1 ++ l2) termtype ityp
  = assign_type_index name l2 termtype
      (assign_type_index name l1 termtype ityp).
Proof.
  revert ityp. induction l1 as [|a l1 IH]; intros ityp; cbn;
    [reflexivity | apply IH].
Qed.

(** Every name of the list is in the table once the list is built in. *)
Lemma first_of_each_name_covers (seen : list string) (l : list obj) (a : obj) :
  a ∈ l -> name a ∈ seen ++ (name <$> first_of_each_name name seen l).
Proof.
  revert seen. induction l as [|b rest IH]; intros seen Ha.
  - now apply elem_of_nil in Ha.
  - apply elem_of_cons in Ha. cbn. case_bool_decide as Hb.
    + destruct Ha as [->|Ha]; [apply elem_of_app; auto | auto].
    + rewrite fmap_cons.
      replace (seen ++ name b :: (name <$> first_of_each_name name
                                    (seen ++ [name b]) rest))
        with ((seen ++ [name b])
              ++ (name <$> first_of_each_name name (seen ++ [name b]) rest))
        by now rewrite <- app_assoc.
      destruct Ha as [->|Ha]; [|auto].
      apply elem_of_app. left. apply elem_of_app. right.
      apply list_elem_of_here.
Qed.

(** No name occurs twice in a table. *)
Lemma first_of_each_name_NoDup (seen : list string) (l : list obj) :
  NoDup seen -> NoDup (seen ++ (name <$> first_of_each_name name seen l)).
Proof.
  revert seen. induction l as [|b rest IH]; intros seen Hs; cbn.
  - now rewrite app_nil_r.
  - case_bool_decide as Hb; [now apply IH|].
    rewrite fmap_cons.
    replace (seen ++ name b :: (name <$> first_of_each_name name
                                  (seen ++ [name b]) rest))
      with ((seen ++ [name b])
            ++ (name <$> first_of_each_name name (seen ++ [name b]) rest))
      by now rewrite <- app_assoc.
    apply IH. apply NoDup_app. repeat split; [exact Hs | | apply NoDup_singleton].
    intros x Hx Hx'. apply list_elem_of_singleton in Hx'. now subst x.
Qed.

Lemma build_type_list_NoDup (term : list obj) :
  NoDup (name <$> build_type_list name term []).
Proof.
  rewrite build_type_list_spec. cbn.
  exact (first_of_each_name_NoDup [] term (NoDup_nil_2)).
Qed.

Lemma build_type_list_covers (term termtype : list obj) (a : obj) :
  a ∈ term -> name a ∈ name <$> build_type_list name term termtype.
Proof.
  intros Ha. rewrite build_type_list_spec, fmap_app.
  now apply first_of_each_name_covers.
Qed.

Lemma first_index_unique (termtype : list obj) (s : string) (i j : nat) :
  first_index name termtype s i -> first_index name termtype s j -> i = j.
Proof.
  intros [[t [Ht Hn]] Hi] [[t' [Ht' Hn']] Hj].
  destruct (Nat.lt_trichotomy i j) as [L|[E|L]]; [|exact E|].
  - exfalso. exact (Hj i t L Ht Hn).
  - exfalso. exact (Hi j t' L Ht' Hn').
Qed.

(** What the loop with [break] does for one term: nothing when no entry
    has the term's name, otherwise both writes with the first index. *)
Lemma assign_one_spec (a : obj) (before entries : list obj)
    (ityp : obj -> Z) :
  (forall t, t ∈ before -> name t <> name a) ->
  ((name a ∉ name <$> entries) /\
   assign_one name a entries (length before) ityp = ityp) \/
  (exists i t, first_index name (before ++ entries) (name a) i /\
     (before ++ entries) !! i = Some t /\
     assign_one name a entries (length before) ityp
     = <[t := Z.of_nat i]> (<[a := Z.of_nat i]> ityp)).
Proof.
  revert before. induction entries as [|t rest IH]; intros before Hb; cbn.
  - left. split; [apply not_elem_of_nil | reflexivity].
  - destruct (String.eqb_spec (name a) (name t)) as [E|E].
    + right. exists (length before), t.
      assert (Hl : (before ++ t :: rest) !! length before = Some t).
      { rewrite lookup_app_r by lia. now rewrite Nat.sub_diag. }
      repeat split; [eauto | | exact Hl].
      intros j t' Hj Ht'. rewrite lookup_app_l in Ht' by exact Hj.
      apply Hb. eapply list_elem_of_lookup_2, Ht'.
    + specialize (IH (before ++ [t])).
      rewrite length_app, <- app_assoc in IH. cbn in IH.
      replace (length before + 1)%nat with (S (length before)) in IH by lia.
      destruct IH as [[Hn Heq]|Hex].
      * intros t' Ht'. apply elem_of_app in Ht' as [Ht'|Ht']; [auto|].
        apply list_elem_of_singleton in Ht'. subst t'. congruence.
      * left. split; [|exact Heq].
        rewrite ?fmap_cons, elem_of_cons. intros [?|?]; [congruence|auto].
      * right. exact Hex.
Qed.

Lemma assign_one_spec0 (a : obj) (termtype : list obj) (ityp : obj -> Z) :
  ((name a ∉ name <$> termtype) /\
   assign_one name a termtype 0 ityp = ityp) \/
  (exists i t, first_index name termtype (name a) i /\
     termtype !! i = Some t /\
     assign_one name a termtype 0 ityp
     = <[t := Z.of_nat i]> (<[a := Z.of_nat i]> ityp)).
Proof.
  apply (assign_one_spec a [] termtype ityp).
  intros t Ht. now apply elem_of_nil in Ht.
Qed.

Lemma assign_one_keeps (a o : obj) (termtype : list obj) (ityp : obj -> Z) :
  indexed name termtype ityp o ->
  indexed name termtype (assign_one name a termtype 0 ityp) o.
Proof.
  intros Ho.
  destruct (assign_one_spec0 a termtype ityp) as [[_ ->]|Hex];
    [exact Ho |].
  destruct Hex as (i & t & Hi & Ht & ->).
  destruct Ho as (k & Hk & Hv).
  destruct (decide (t = o)) as [->|Hto].
  - exists i. rewrite fn_lookup_insert. split; [|reflexivity].
    destruct Hi as [[t' [Ht' Hn]] Hmin]. rewrite Ht in Ht'.
    injection Ht' as <-. split; [eauto|].
    intros j t'' Hj Hl. rewrite Hn. eauto.
  - unfold indexed. rewrite fn_lookup_insert_ne by exact Hto.
    destruct (decide (a = o)) as [->|Hao].
    + exists i. rewrite fn_lookup_insert. split; [exact Hi | reflexivity].
    + rewrite fn_lookup_insert_ne by exact Hao. exists k. auto.
Qed.

Lemma assign_one_sets (a : obj) (termtype : list obj) (ityp : obj -> Z) :
  name a ∈ name <$> termtype ->
  indexed name termtype (assign_one name a termtype 0 ityp) a.
Proof.
  intros Ha.
  destruct (assign_one_spec0 a termtype ityp) as [[Hn _]|Hex];
    [contradiction |].
  destruct Hex as (i & t & Hi & Ht & ->).
  exists i. split; [exact Hi|].
  destruct (decide (t = a)) as [->|Hta].
  - now rewrite fn_lookup_insert.
  - rewrite fn_lookup_insert_ne by exact Hta. now rewrite fn_lookup_insert.
Qed.

Lemma assign_type_index_indexed (term termtype : list obj)
    (ityp : obj -> Z) (o : obj) :
  (forall a, a ∈ term -> name a ∈ name <$> termtype) ->
  o ∈ term \/ indexed name termtype ityp o ->
  indexed name termtype (assign_type_index name term termtype ityp) o.
Proof.
  revert ityp. induction term as [|a rest IH]; intros ityp Hcov Ho; cbn.
  - destruct Ho as [Ho|Ho]; [now apply elem_of_nil in Ho | exact Ho].
  - apply IH; [intros b Hb; apply Hcov; now right|].
    destruct Ho as [Ho|Ho].
    + apply elem_of_cons in Ho as [->|Ho]; [right | now left].
      apply assign_one_sets, Hcov. now left.
    + right. now apply assign_one_keeps.
Qed.

(** The two loops of system.__init__, one class at a time. *)
Lemma build_tables_table (c : category) (spec : list (species obj))
    (s : system obj) :
  type_table c (build_tables name spec s)
  = build_type_list name (all_terms c spec) (type_table c s).
Proof.
  revert s. induction spec as [|sp rest IH]; intros s; [reflexivity|].
  cbn [build_tables]. rewrite IH. unfold all_terms. cbn [map concat].
  rewrite build_type_list_app. now destruct c.
Qed.

Lemma build_tables_ityp (c : category) (spec : list (species obj))
    (s : system obj) :
  ityp_of c (build_tables name spec s) = ityp_of c s.
Proof.
  revert s. induction spec as [|sp rest IH]; intros s; [reflexivity|].
  cbn [build_tables]. rewrite IH. now destruct c.
Qed.

Lemma assign_indices_table (c : category) (spec : list (species obj))
    (s : system obj) :
  type_table c (assign_indices name spec s) = type_table c s.
Proof.
  revert s. induction spec as [|sp rest IH]; intros s; [reflexivity|].
  cbn [assign_indices]. rewrite IH. now destruct c.
Qed.

Lemma assign_indices_ityp (c : category) (spec : list (species obj))
    (s : system obj) :
  ityp_of c (assign_indices name spec s)
  = assign_type_index name (all_terms c spec) (type_table c s) (ityp_of c s).
Proof.
  revert s. induction spec as [|sp rest IH]; intros s; [reflexivity|].
  cbn [assign_indices]. rewrite IH. unfold all_terms. cbn [map concat].
  rewrite assign_type_index_app. now destruct c.
Qed.
End AggregatorFacts.

(** C3 (amended): two terms of the same class, anywhere in the species,
    whose [name] strings are equal are assigned the same zero-based index,
    the index of the single table entry with that name; the table holds the
    first term of each name in order of first occurrence across species. *)
Theorem type_index_by_name {obj : Type} `{EqDecision obj}
    (name : obj -> string) (spec : list (species obj)) (ityp0 : obj -> Z)
    (c : category) (a b : obj) :
  a ∈ all_terms c spec -> b ∈ all_terms c spec -> name a = name b ->
  let s := system_init name spec ityp0 in
  type_table c s = first_of_each_name name [] (all_terms c spec) /\
  exists i t, type_table c s !! i = Some t /\ name t = name a /\
    (forall j t', type_table c s !! j = Some t' -> name t' = name a -> j = i) /\
    ityp_of c s a = Z.of_nat i /\ ityp_of c s b = Z.of_nat i.
Proof.
  intros Ha Hb Hab s.
  set (s0 := {| attype := []; bdtype := []; antype := []; dhtype := [];
                ditype := []; ityp_atom := ityp0; ityp_bond := ityp0;
                ityp_angle := ityp0; ityp_dihed := ityp0;
                ityp_dimpr := ityp0 |}).
  assert (Ht : type_table c s = build_type_list name (all_terms c spec) []).
  { subst s. unfold system_init. rewrite assign_indices_table.
    fold s0. rewrite build_tables_table. now destruct c. }
  assert (Hi : forall o, o ∈ all_terms c spec ->
                 indexed name (type_table c s) (ityp_of c s) o).
  { intros o Ho. subst s. unfold system_init in *. fold s0 in Ht |- *.
    rewrite assign_indices_ityp. rewrite assign_indices_table in Ht |- *.
    apply assign_type_index_indexed; [|now left].
    intros x Hx. rewrite build_tables_table.
    now apply build_type_list_covers. }
  split.
  - rewrite Ht, build_type_list_spec. reflexivity.
  - destruct (Hi a Ha) as (i & Hfa & Hva). destruct (Hi b Hb) as (j & Hfb & Hvb).
    rewrite <- Hab in Hfb.
    assert (j = i) by (eapply first_index_unique; eauto). subst j.
    destruct Hfa as [[t [Hl Hn]] Hmin]. exists i, t.
    repeat split; try assumption.
    intros j t' Hj Hn'.
    assert (Hnd : NoDup (name <$> type_table c s))
      by (rewrite Ht; apply build_type_list_NoDup).
    eapply (NoDup_lookup _ j i (name a) Hnd);
      rewrite list_lookup_fmap; [rewrite Hj | rewrite Hl]; cbn; congruence.
Qed.

(* ===================================================================== *)
(** ** Runs *)
(* ===================================================================== *)

Lemma bind_Ok_inv {A B} (c : py A) (k : A -> py B) (out : list line) (b : B) :
  bind c k = (out, Ok b) ->
  exists o1 a o2, c = (o1, Ok a) /\ k a = (o2, Ok b) /\ out = o1 ++ o2.
Proof.
  destruct c as [o1 [a| |e]]; cbn; try discriminate.
  destruct (k a) as [o2 r] eqn:E. intros [= <- ->]. eauto 6.
Qed.

Lemma bind_SysExit_inv {A B} (c : py A) (k : A -> py B) (out : list line) :
  bind c k = (out, SysExit) ->
  c = (out, SysExit) \/
  exists o1 a o2, c = (o1, Ok a) /\ k a = (o2, SysExit) /\ out = o1 ++ o2.
Proof.
  destruct c as [o1 [a| |e]]; cbn; try discriminate.
  - destruct (k a) as [o2 r] eqn:E. intros [= <- ->]. right. eauto 6.
  - intros [= <-]. now left.
Qed.

Lemma bind_Ok {A B} (c : py A) (k : A -> py B) (o1 o2 : list line) (a : A)
    (r : result B) :
  c = (o1, Ok a) -> k a = (o2, r) -> bind c k = (o1 ++ o2, r).
Proof. intros -> E. cbn. now rewrite E. Qed.

Lemma silent_ret {A} (a : A) : silent (ret a).
Proof. reflexivity. Qed.
Lemma silent_raise {A} (e : pyexn) : silent (@raise A e).
Proof. reflexivity. Qed.
Lemma silent_bind {A B} (c : py A) (k : A -> py B) :
  silent c -> (forall a, silent (k a)) -> silent (bind c k).
Proof.
  unfold silent. destruct c as [o [a| |e]]; cbn; intros -> Hk; auto.
  specialize (Hk a). destruct (k a). cbn in *. now subst.
Qed.
Lemma silent_getattr {A} (o : option A) : silent (getattr o).
Proof. now destruct o. Qed.
Lemma silent_lift {A} (r : pyexn + A) : silent (lift r).
Proof. now destruct r. Qed.
Lemma silent_py_index {A} (l : list A) (i : Z) : silent (py_index l i).
Proof.
  unfold py_index. destruct (_ || _); [reflexivity|].
  now destruct (l !! _).
Qed.
Lemma silent_atom_type (atoms : list atom) (i : Z) : silent (atom_type atoms i).
Proof.
  apply silent_bind; [apply silent_py_index | intros; apply silent_getattr].
Qed.

Create HintDb silent.
#[export] Hint Resolve silent_ret silent_raise silent_getattr silent_lift
  silent_py_index silent_atom_type : silent.

Ltac silence := repeat (apply silent_bind; [|intros]); auto with silent.

Section MolFacts.
Context `{Geometry}.

Lemma silent_bond_name atoms bd : silent (bond_name atoms bd).
Proof. unfold bond_name. silence. Qed.
Lemma silent_bond_length box atoms bd : silent (bond_length box atoms bd).
Proof. unfold bond_length. silence. Qed.
Lemma silent_angle_name atoms an : silent (angle_name atoms an).
Proof. unfold angle_name. silence. Qed.
Lemma silent_angle_value box atoms an : silent (angle_value box atoms an).
Proof. unfold angle_value. silence. Qed.
Lemma silent_dihed_name atoms d : silent (dihed_name atoms d).
Proof. unfold dihed_name. silence. Qed.

Lemma silent_Ok {A} (c : py A) (w : list line) (a : A) :
  silent c -> c = (w, Ok a) -> w = [].
Proof. unfold silent. now intros Hs ->. Qed.
End MolFacts.

(* ===================================================================== *)
(** ** The scans of the force field *)
(* ===================================================================== *)

Lemma last_cons_typed {A B} (f : A -> B) (d : B) (x : A) (l : list A) :
  match last (x :: l) with Some y => f y | None => d end
  = match last l with Some y => f y | None => f x end.
Proof. rewrite last_cons. now destruct (last l). Qed.

Section AtomScan.
Context `{Geometry}.

Lemma setff_atom_spec (selfff : string) (rs : list ff_atom) (found : bool)
    (a : atom) :
  let ms := List.filter (fun r => String.eqb (at_name a) (fa_name r)) rs in
  exists w,
    setff_atom selfff rs found a
    = (w, Ok (match last ms with Some r => atom_typed r a | None => a end,
              found || nonempty ms)) /\
    (forall l, l ∈ w -> l = warn_dup_atom (at_name a) selfff) /\
    ((found = true /\ (1 <= length ms)%nat) \/ (2 <= length ms)%nat ->
     warn_dup_atom (at_name a) selfff ∈ w).
Proof.
  revert found a. induction rs as [|r rest IH]; intros found a; cbn.
  - exists []. rewrite orb_false_r. repeat split.
    + intros l Hl. now apply elem_of_nil in Hl.
    + intros [[_ ?]|?]; lia.
  - destruct (String.eqb (at_name a) (fa_name r)) eqn:E.
    + destruct (IH true (atom_typed r a)) as (w & Hw & Hall & Hdup).
      cbn [at_name atom_typed set_m atom_setpar] in Hw, Hall, Hdup.
      exists ((if found then [warn_dup_atom (at_name a) selfff] else []) ++ w).
      split; [|split].
      * unfold atom_typed in Hw. rewrite Hw.
        rewrite last_cons_typed, orb_true_r.
        destruct found; cbn; repeat f_equal;
          now destruct (last _).
      * intros l Hl. apply elem_of_app in Hl as [Hl|Hl]; [|auto].
        destruct found; [|now apply elem_of_nil in Hl].
        now apply list_elem_of_singleton in Hl.
      * cbn [length]. intros Hc. apply elem_of_app.
        destruct found; [left; apply list_elem_of_here|].
        right. apply Hdup. left. split; [reflexivity|].
        destruct Hc as [[? _]|?]; [discriminate | lia].
    + exact (IH found a).
Qed.
End AtomScan.

Section BondScan.
Context `{Geometry}.

Lemma setff_bond_spec (molname selfff : string) (r : float)
    (rs : list ff_bond) (found : bool) (bd : bond) (name : string) :
  b_name bd = Some name ->
  let hs := hits bond_fwd bond_rev name rs in
  exists w,
    setff_bond molname selfff r rs found bd
    = (w, Ok (match last hs with Some h => bond_typed h bd | None => bd end,
              found || nonempty hs)) /\
    (forall l, l ∈ w ->
       (exists n, l = warn_dup_bond n selfff) \/
       (exists h, h ∈ hs /\ bond_checkval (fb_eqval h) r = false /\
          l = warn_bond molname (bond_fwd h) (b_i bd + 1) (b_j bd + 1) r)) /\
    (forall h, h ∈ hs -> bond_checkval (fb_eqval h) r = false ->
       warn_bond molname (bond_fwd h) (b_i bd + 1) (b_j bd + 1) r ∈ w) /\
    ((found = true /\ (1 <= length hs)%nat) \/ (2 <= length hs)%nat ->
     exists n, warn_dup_bond n selfff ∈ w).
Proof.
  revert found bd name. induction rs as [|ffbd rest IH];
    intros found bd name Hname; cbn [hits setff_bond].
  - exists []. cbn. rewrite orb_false_r. repeat split.
    + intros l Hl. now apply elem_of_nil in Hl.
    + intros h Hh. now apply elem_of_nil in Hh.
    + intros [[_ ?]|?]; lia.
  - rewrite Hname. cbn [getattr]. rewrite bind_ret_l.
    change (String.eqb name (dash (fb_iatp ffbd) (fb_jatp ffbd))
            || String.eqb name (dash (fb_jatp ffbd) (fb_iatp ffbd)))
      with (name_match bond_fwd bond_rev name ffbd).
    change (dash (fb_iatp ffbd) (fb_jatp ffbd)) with (bond_fwd ffbd).
    destruct (name_match bond_fwd bond_rev name ffbd) eqn:E.
    + destruct (IH true (bond_typed ffbd bd) (bond_fwd ffbd) eq_refl)
        as (w & Hw & Hall & Hchk & Hdup).
      fold (bond_typed ffbd bd).
      cbn [b_i b_j bond_typed bond_setpar] in Hall, Hchk |- *.
      fold (bond_typed ffbd bd).
      set (w1 := if found then [warn_dup_bond name selfff] else []).
      set (w2 := if negb (bond_checkval (fb_eqval ffbd) r)
                 then [warn_bond molname (bond_fwd ffbd)
                         (b_i bd + 1) (b_j bd + 1) r] else []).
      exists (w1 ++ w2 ++ w). split; [|split; [|split]].
      * rewrite Hw, last_cons_typed. unfold nonempty.
        cbn [length Nat.eqb negb orb]. rewrite orb_true_r.
        subst w1 w2. unfold when.
        destruct found, (bond_checkval (fb_eqval ffbd) r); cbn;
          repeat f_equal; now destruct (last _).
      * intros l Hl. rewrite !elem_of_app in Hl. destruct Hl as [Hl|[Hl|Hl]].
        -- subst w1. destruct found; [|now apply elem_of_nil in Hl].
           apply list_elem_of_singleton in Hl. eauto.
        -- subst w2. destruct (bond_checkval _ r) eqn:C; cbn in Hl;
             [now apply elem_of_nil in Hl|].
           apply list_elem_of_singleton in Hl. right. exists ffbd.
           split; [apply list_elem_of_here | auto].
        -- destruct (Hall l Hl) as [?|(h & Hh & ? & ?)]; [now left|].
           right. exists h. split; [now apply list_elem_of_further | auto].
      * intros h Hh Hc. rewrite !elem_of_app.
        apply elem_of_cons in Hh as [->|Hh].
        -- right. left. subst w2. rewrite Hc. apply list_elem_of_here.
        -- right. right. now apply Hchk.
      * cbn [length]. intros Hc.
        destruct found.
        -- exists name. rewrite elem_of_app. left. apply list_elem_of_here.
        -- destruct Hdup as [n Hn].
           { left. split; [reflexivity|].
             destruct Hc as [[? _]|?]; [discriminate | lia]. }
           exists n. rewrite !elem_of_app. auto.
    + exact (IH found bd name Hname).
Qed.
End BondScan.

Section AngleScan.
Context `{Geometry}.

Lemma setff_angle_spec (selfff : string) (th : float) (rs : list ff_angle)
    (found check : bool) (an : angle) (name : string) :
  an_name an = Some name ->
  let hs := hits angle_fwd angle_rev name rs in
  exists w,
    setff_angle selfff th rs found check an
    = (w, Ok (match last hs with Some h => angle_typed h an | None => an end,
              found || nonempty hs,
              check && forallb (fun h => angle_checkval (fn_eqval h) th) hs))
    /\
    (forall l, l ∈ w -> exists n, l = warn_dup_angle n selfff) /\
    ((found = true /\ (1 <= length hs)%nat) \/ (2 <= length hs)%nat ->
     exists n, warn_dup_angle n selfff ∈ w).
Proof.
  revert found check an name. induction rs as [|ffan rest IH];
    intros found check an name Hname; cbn [hits setff_angle].
  - exists []. cbn. rewrite orb_false_r, andb_true_r. repeat split.
    + intros l Hl. now apply elem_of_nil in Hl.
    + intros [[_ ?]|?]; lia.
  - rewrite Hname. cbn [getattr]. rewrite bind_ret_l.
    change (String.eqb name
              (dash3 (fn_iatp ffan) (fn_jatp ffan) (fn_katp ffan))
            || String.eqb name
                 (dash3 (fn_katp ffan) (fn_jatp ffan) (fn_iatp ffan)))
      with (name_match angle_fwd angle_rev name ffan).
    destruct (name_match angle_fwd angle_rev name ffan) eqn:E.
    + fold (angle_typed ffan an).
      destruct (IH true
                  (if negb (angle_checkval (fn_eqval ffan) th) then false
                   else check)
                  (angle_typed ffan an) (angle_fwd ffan) eq_refl)
        as (w & Hw & Hall & Hdup).
      set (w1 := if found then [warn_dup_angle name selfff] else []).
      exists (w1 ++ w). split; [|split].
      * rewrite Hw, last_cons_typed. unfold nonempty.
        cbn [length Nat.eqb negb orb forallb]. rewrite orb_true_r.
        subst w1. unfold when.
        destruct found, (angle_checkval (fn_eqval ffan) th), check; cbn;
          repeat f_equal; now destruct (last _).
      * intros l Hl. apply elem_of_app in Hl as [Hl|Hl]; [|auto].
        subst w1. destruct found; [|now apply elem_of_nil in Hl].
        apply list_elem_of_singleton in Hl. eauto.
      * cbn [length]. intros Hc. destruct found.
        -- exists name. rewrite elem_of_app. left. apply list_elem_of_here.
        -- destruct Hdup as [n Hn].
           { left. split; [reflexivity|].
             destruct Hc as [[? _]|?]; [discriminate | lia]. }
           exists n. rewrite elem_of_app. auto.
    + exact (IH found check an name Hname).
Qed.

Lemma setff_dimpr_spec (selfff : string) (rs : list ff_dihed)
    (found : bool) (di : dihed) (name : string) :
  dh_name di = Some name ->
  let hs := hits dihed_fwd dihed_rev name rs in
  exists w,
    setff_dimpr selfff rs found di
    = (w, Ok (match last hs with Some h => dihed_typed h di | None => di end,
              found || nonempty hs)) /\
    (forall l, l ∈ w -> exists n, l = warn_dup_improper n selfff) /\
    ((found = true /\ (1 <= length hs)%nat) \/ (2 <= length hs)%nat ->
     exists n, warn_dup_improper n selfff ∈ w).
Proof.
  revert found di name. induction rs as [|ffdi rest IH];
    intros found di name Hname; cbn [hits setff_dimpr].
  - exists []. cbn. rewrite orb_false_r. repeat split.
    + intros l Hl. now apply elem_of_nil in Hl.
    + intros [[_ ?]|?]; lia.
  - rewrite Hname. cbn [getattr]. rewrite bind_ret_l.
    change (String.eqb name
              (dash4 (fd_iatp ffdi) (fd_jatp ffdi) (fd_katp ffdi)
                 (fd_latp ffdi))
            || String.eqb name
                 (dash4 (fd_latp ffdi) (fd_katp ffdi) (fd_jatp ffdi)
                    (fd_iatp ffdi)))
      with (name_match dihed_fwd dihed_rev name ffdi).
    destruct (name_match dihed_fwd dihed_rev name ffdi) eqn:E.
    + fold (dihed_typed ffdi di).
      destruct (IH true (dihed_typed ffdi di) (dihed_fwd ffdi) eq_refl)
        as (w & Hw & Hall & Hdup).
      set (w1 := if found then [warn_dup_improper name selfff] else []).
      exists (w1 ++ w). split; [|split].
      * rewrite Hw, last_cons_typed. unfold nonempty.
        cbn [length Nat.eqb negb orb]. rewrite orb_true_r.
        subst w1. unfold when.
        destruct found; cbn; repeat f_equal; now destruct (last _).
      * intros l Hl. apply elem_of_app in Hl as [Hl|Hl]; [|auto].
        subst w1. destruct found; [|now apply elem_of_nil in Hl].
        apply list_elem_of_singleton in Hl. eauto.
      * cbn [length]. intros Hc. destruct found.
        -- exists name. rewrite elem_of_app. left. apply list_elem_of_here.
        -- destruct Hdup as [n Hn].
           { left. split; [reflexivity|].
             destruct Hc as [[? _]|?]; [discriminate | lia]. }
           exists n. rewrite elem_of_app. auto.
    + exact (IH found di name Hname).
Qed.

(** The scan of the dihedral records returns only when at most one record
    matches. *)
Lemma setff_dihed_spec (rs : list ff_dihed) (found : bool) (dh : dihed)
    (name : string) :
  dh_name dh = Some name ->
  let hs := hits dihed_fwd dihed_rev name rs in
  setff_dihed rs found dh
  = if (found && nonempty hs) || (2 <=? length hs)%nat
    then ([], Raise UnboundLocalError)
    else ([], Ok (match last hs with Some h => dihed_typed h dh
                                | None => dh end,
                  found || nonempty hs)).
Proof.
  revert found dh name. induction rs as [|ffdh rest IH];
    intros found dh name Hname; cbn [hits setff_dihed].
  - cbn. now destruct found.
  - rewrite Hname. cbn [getattr]. rewrite bind_ret_l.
    change (String.eqb name
              (dash4 (fd_iatp ffdh) (fd_jatp ffdh) (fd_katp ffdh)
                 (fd_latp ffdh))
            || String.eqb name
                 (dash4 (fd_latp ffdh) (fd_katp ffdh) (fd_jatp ffdh)
                    (fd_iatp ffdh)))
      with (name_match dihed_fwd dihed_rev name ffdh).
    destruct (name_match dihed_fwd dihed_rev name ffdh) eqn:E.
    + fold (dihed_typed ffdh dh).
      rewrite (IH true (dihed_typed ffdh dh) (dihed_fwd ffdh) eq_refl).
      rewrite last_cons_typed. unfold nonempty.
      cbn [length Nat.eqb negb orb andb]. rewrite andb_true_r.
      destruct found; [reflexivity|]. cbn [orb]. rewrite bind_ret_l.
      destruct (hits dihed_fwd dihed_rev (dihed_fwd ffdh) rest) as [|h hs'];
        cbn; [reflexivity|].
      now destruct (last hs').
    + exact (IH found dh name Hname).
Qed.
End AngleScan.

(* ===================================================================== *)
(** ** Loops *)
(* ===================================================================== *)

Lemma no_exit_bind {A B} (c : py A) (k : A -> py B) :
  no_exit c -> (forall a, no_exit (k a)) -> no_exit (bind c k).
Proof.
  unfold no_exit. destruct c as [o [a| |e]]; cbn; intros Hc Hk; try easy.
  specialize (Hk a). now destruct (k a).
Qed.

Lemma silent_no_exit {A} (c : py A) (w : list line) (r : result A) :
  c = (w, r) -> r <> SysExit -> no_exit c.
Proof. now intros ->. Qed.

Lemma no_exit_getattr {A} (o : option A) : no_exit (getattr o).
Proof. now destruct o. Qed.
Lemma no_exit_lift {A} (r : pyexn + A) : no_exit (lift r).
Proof. now destruct r. Qed.
Lemma no_exit_py_index {A} (l : list A) (i : Z) : no_exit (py_index l i).
Proof.
  unfold py_index. destruct (_ || _); [easy|]. now destruct (l !! _).
Qed.
Lemma no_exit_ret {A} (a : A) : no_exit (ret a).
Proof. easy. Qed.
Lemma no_exit_print (l : line) : no_exit (print l).
Proof. easy. Qed.
Lemma no_exit_atom_type (atoms : list atom) (i : Z) : no_exit (atom_type atoms i).
Proof.
  apply no_exit_bind; [apply no_exit_py_index | intros; apply no_exit_getattr].
Qed.

Create HintDb no_exit.
#[export] Hint Resolve no_exit_getattr no_exit_lift no_exit_py_index
  no_exit_ret no_exit_print no_exit_atom_type : no_exit.

Ltac exitless := repeat (apply no_exit_bind; [|intros]); auto with no_exit.

Section MatchingFacts.
Context {R : Type}.
Variables fwd rev : R -> string.

Lemma coherent_spec (rs : list R) (r r' : R) :
  coherent fwd rev rs = true -> In r rs -> In r' rs ->
  name_match fwd rev (fwd r) r' = name_match fwd rev (rev r) r'.
Proof.
  unfold coherent. rewrite forallb_forall. intros Hc Hr Hr'.
  specialize (Hc r Hr). rewrite forallb_forall in Hc.
  now apply Bool.eqb_prop, Hc.
Qed.

(** In a coherent database the scan matches exactly the records that
    match the name the term starts with. *)
Lemma hits_matching_incl (all rs : list R) (name : string) :
  coherent fwd rev all = true -> (forall r, In r rs -> In r all) ->
  hits fwd rev name rs = matching fwd rev name rs.
Proof.
  intros Hc. revert name. induction rs as [|r rest IH]; intros name Hin;
    [reflexivity|].
  cbn [hits matching List.filter].
  assert (Hrest : forall x, In x rest -> In x all)
    by (intros x Hx; apply Hin; now right).
  destruct (name_match fwd rev name r) eqn:E.
  - f_equal. rewrite (IH _ Hrest). unfold matching.
    apply filter_ext_in. intros r' Hr'.
    unfold name_match in E. apply orb_true_iff in E as [E|E];
      apply String.eqb_eq in E; subst name; [reflexivity|].
    apply (coherent_spec all); auto. apply Hin. now left.
  - apply (IH _ Hrest).
Qed.

Lemma hits_matching (rs : list R) (name : string) :
  coherent fwd rev rs = true ->
  hits fwd rev name rs = matching fwd rev name rs.
Proof. intros Hc. now apply (hits_matching_incl rs). Qed.

(** The first record that matches is always a hit; with no matching
    record there is none. *)
Lemma hits_nil (rs : list R) (name : string) :
  hits fwd rev name rs = [] <-> matching fwd rev name rs = [].
Proof.
  induction rs as [|r rest IH]; [easy|].
  cbn [hits matching List.filter].
  destruct (name_match fwd rev name r); [easy | exact IH].
Qed.
End MatchingFacts.

(** Names built from labels without '-' determine the labels, and a
    database of such records is coherent. *)
Lemma dash_inj (a b c d : string) :
  dashless a = true -> dashless c = true ->
  dash a b = dash c d -> a = c /\ b = d.
Proof.
  unfold dash. revert c. induction a as [|x a IH]; intros [|y c] Ha Hc E.
  - cbn in E. injection E as E. auto.
  - cbn in E, Hc. injection E as <- _. discriminate.
  - cbn in E, Ha. injection E as -> _. discriminate.
  - cbn in E, Ha, Hc. injection E as -> E.
    apply andb_true_iff in Ha as [_ Ha], Hc as [_ Hc].
    destruct (IH c Ha Hc E) as [-> ->]. auto.
Qed.

Lemma dash3_inj (a b c a' b' c' : string) :
  dashless a = true -> dashless b = true ->
  dashless a' = true -> dashless b' = true ->
  dash3 a b c = dash3 a' b' c' -> a = a' /\ b = b' /\ c = c'.
Proof.
  intros Ha Hb Ha' Hb' E.
  apply (dash_inj a _ a' _ Ha Ha') in E as [-> E].
  apply (dash_inj b _ b' _ Hb Hb') in E as [-> ->]. auto.
Qed.

Lemma dash4_inj (a b c d a' b' c' d' : string) :
  dashless a = true -> dashless b = true -> dashless c = true ->
  dashless a' = true -> dashless b' = true -> dashless c' = true ->
  dash4 a b c d = dash4 a' b' c' d' -> a = a' /\ b = b' /\ c = c' /\ d = d'.
Proof.
  intros Ha Hb Hc Ha' Hb' Hc' E.
  apply (dash_inj a _ a' _ Ha Ha') in E as [-> E].
  apply (dash_inj b _ b' _ Hb Hb') in E as [-> E].
  apply (dash_inj c _ c' _ Hc Hc') in E as [-> ->]. auto.
Qed.

Lemma coherent_intro {R} (fwd rev : R -> string) (rs : list R) :
  (forall r r', r ∈ rs -> r' ∈ rs ->
     name_match fwd rev (fwd r) r' = name_match fwd rev (rev r) r') ->
  coherent fwd rev rs = true.
Proof.
  intros Hall. unfold coherent. apply forallb_forall. intros r Hr.
  apply forallb_forall. intros r' Hr'.
  rewrite (Hall r r') by now apply list_elem_of_In.
  now destruct (name_match fwd rev (rev r) r').
Qed.

Lemma orb_eq_iff (a b c d : bool) :
  (a = true \/ b = true <-> c = true \/ d = true) -> a || b = c || d.
Proof. destruct a, b, c, d; intuition discriminate. Qed.

Lemma coherent_bonds (rs : list ff_bond) :
  forallb bond_dashless rs = true -> coherent bond_fwd bond_rev rs = true.
Proof.
  intros Hall. rewrite forallb_forall in Hall.
  apply coherent_intro. intros r r' Hr Hr'.
  apply list_elem_of_In, Hall in Hr, Hr'.
  apply andb_true_iff in Hr as [Hi Hj], Hr' as [Hi' Hj'].
  unfold name_match, bond_fwd, bond_rev. apply orb_eq_iff.
  rewrite !String.eqb_eq.
  split; intros [E|E]; apply dash_inj in E as [E1 E2]; auto;
    rewrite E1, E2; auto.
Qed.

Lemma coherent_angles (rs : list ff_angle) :
  forallb angle_dashless rs = true -> coherent angle_fwd angle_rev rs = true.
Proof.
  intros Hall. rewrite forallb_forall in Hall.
  apply coherent_intro. intros r r' Hr Hr'.
  apply list_elem_of_In, Hall in Hr, Hr'.
  apply andb_true_iff in Hr as [Hr Hk], Hr' as [Hr' Hk'].
  apply andb_true_iff in Hr as [Hi Hj], Hr' as [Hi' Hj'].
  unfold name_match, angle_fwd, angle_rev. apply orb_eq_iff.
  rewrite !String.eqb_eq.
  split; intros [E|E]; apply dash3_inj in E as (E1 & E2 & E3); auto;
    rewrite E1, E2, E3; auto.
Qed.

Lemma coherent_diheds (rs : list ff_dihed) :
  forallb dihed_dashless rs = true -> coherent dihed_fwd dihed_rev rs = true.
Proof.
  intros Hall. rewrite forallb_forall in Hall.
  apply coherent_intro. intros r r' Hr Hr'.
  apply list_elem_of_In, Hall in Hr, Hr'.
  apply andb_true_iff in Hr as [Hr Hl], Hr' as [Hr' Hl'].
  apply andb_true_iff in Hr as [Hr Hk], Hr' as [Hr' Hk'].
  apply andb_true_iff in Hr as [Hi Hj], Hr' as [Hi' Hj'].
  unfold name_match, dihed_fwd, dihed_rev. apply orb_eq_iff.
  rewrite !String.eqb_eq.
  split; intros [E|E]; apply dash4_inj in E as (E1 & E2 & E3 & E4); auto;
    rewrite E1, E2, E3, E4; auto.
Qed.

Section LoopFacts.
Context {T : Type}.

Lemma setff_each_Ok_inv (visit : T -> py (T * bool)) (terms : list T)
    (error : bool) (out : list line) (terms' : list T) (error' : bool) :
  setff_each visit terms error = (out, Ok (terms', error')) ->
  Forall2 (fun t t' => exists w found, visit t = (w, Ok (t', found)) /\
                         forall l, l ∈ w -> l ∈ out) terms terms' /\
  (error' = false ->
   error = false /\
   Forall (fun t => exists w t', visit t = (w, Ok (t', true))) terms) /\
  (forall l, l ∈ out -> exists t, t ∈ terms /\ l ∈ (visit t).1).
Proof.
  revert error out terms' error'.
  induction terms as [|t rest IH]; intros error out terms' error' Hrun.
  - cbn in Hrun. injection Hrun as <- <- <-. repeat split; auto.
    intros l Hl. now apply elem_of_nil in Hl.
  - cbn [setff_each] in Hrun.
    apply bind_Ok_inv in Hrun as (o1 & [t' found] & o2 & Hv & Hrun & ->).
    apply bind_Ok_inv in Hrun as (o3 & [rest' e'] & o4 & Hrest & Hret & ->).
    cbn in Hret. injection Hret as <- <- <-.
    destruct (IH _ _ _ _ Hrest) as (Hf2 & Herr & Hout).
    rewrite app_nil_r. split; [|split].
    + constructor.
      * exists o1, found. split; [exact Hv|].
        intros l Hl. apply elem_of_app. now left.
      * eapply Forall2_impl; [exact Hf2|]. cbn.
        intros x y (w & f & Hx & Hw). exists w, f. split; [exact Hx|].
        intros l Hl. apply elem_of_app. right. auto.
    + intros He. destruct (Herr He) as [Hor Hall].
      apply orb_false_iff in Hor as [He1 Hf]. apply negb_false_iff in Hf.
      subst found error. split; [reflexivity|]. constructor; eauto.
    + intros l Hl. apply elem_of_app in Hl as [Hl|Hl].
      * exists t. split; [apply list_elem_of_here | now rewrite Hv].
      * destruct (Hout l Hl) as (x & Hx & Hlx). exists x.
        split; [now apply list_elem_of_further | exact Hlx].
Qed.

Lemma setff_each_no_exit (visit : T -> py (T * bool)) (terms : list T)
    (error : bool) :
  (forall t, no_exit (visit t)) -> no_exit (setff_each visit terms error).
Proof.
  intros Hv. revert error. induction terms as [|t rest IH]; intros error;
    [easy|].
  cbn [setff_each]. apply no_exit_bind; [apply Hv|]. intros [t' found].
  apply no_exit_bind; [apply IH|]. now intros [rest' e'].
Qed.

Lemma add_missing_elem (s x : string) (miss : list string) :
  x ∈ add_missing s miss <-> x ∈ miss \/ x = s.
Proof.
  unfold add_missing. destruct (existsb (String.eqb s) miss) eqn:E.
  - split; [auto|]. intros [?| ->]; [assumption|].
    apply existsb_exists in E as (y & Hy & Heq).
    apply String.eqb_eq in Heq. subst y. now apply list_elem_of_In.
  - rewrite elem_of_app, list_elem_of_singleton. tauto.
Qed.

Lemma add_missing_NoDup (s : string) (miss : list string) :
  NoDup miss -> NoDup (add_missing s miss).
Proof.
  intros Hn. unfold add_missing.
  destruct (existsb (String.eqb s) miss) eqn:E; [exact Hn|].
  apply NoDup_app. repeat split; [exact Hn | | apply NoDup_singleton].
  intros x Hx Hs. apply list_elem_of_singleton in Hs. subst x.
  apply Bool.not_true_iff_false in E. apply E, existsb_exists.
  exists s. split; [now apply list_elem_of_In | apply String.eqb_refl].
Qed.

Lemma setff_prune_Ok_inv (visit : T -> py (T * bool * bool))
    (name_of : T -> option string) (snapshot : list T)
    (miss : list string) (out : list line) (kept' : list T)
    (miss' : list string) :
  setff_prune visit name_of snapshot miss = (out, Ok (kept', miss')) ->
  kept' = omap (fun t => kept (visit t)) snapshot /\
  (forall t, t ∈ snapshot ->
     exists w v, visit t = (w, Ok v) /\ forall l, l ∈ w -> l ∈ out) /\
  (forall l, l ∈ out -> exists t, t ∈ snapshot /\ l ∈ (visit t).1) /\
  (NoDup miss -> NoDup miss') /\
  (forall s, s ∈ miss' <->
     s ∈ miss \/
     exists t w t' check, t ∈ snapshot /\
       visit t = (w, Ok (t', false, check)) /\ name_of t' = Some s).
Proof.
  revert miss out kept' miss'.
  induction snapshot as [|t rest IH]; intros miss out kept' miss' Hrun.
  - cbn in Hrun. injection Hrun as <- <- <-. repeat split; auto.
    + intros t Ht. now apply elem_of_nil in Ht.
    + intros l Hl. now apply elem_of_nil in Hl.
    + intros [?|(t & ? & ? & ? & Ht & _)]; [assumption|].
      now apply elem_of_nil in Ht.
  - cbn [setff_prune] in Hrun.
    apply bind_Ok_inv in Hrun as (o1 & [[t' found] check] & o2 & Hv & Hrun & ->).
    apply bind_Ok_inv in Hrun as (o3 & miss1 & o4 & Hm & Hrun & ->).
    apply bind_Ok_inv in Hrun as (o5 & [kept1 miss2] & o6 & Hrest & Hret & ->).
    cbn in Hret. injection Hret as <- <- <-.
    destruct (IH _ _ _ _ Hrest) as (Hk & Hvis & Hout & Hnd & Hmiss).
    assert (Ho3 : o3 = [] /\
              ((found = true /\ miss1 = miss) \/
               (found = false /\ exists n, name_of t' = Some n /\
                                  miss1 = add_missing n miss))).
    { destruct found; cbn in Hm.
      - injection Hm as <- <-. auto.
      - destruct (name_of t') as [n|]; cbn in Hm; [|discriminate].
        injection Hm as <- <-. split; [reflexivity|]. right. eauto. }
    destruct Ho3 as [-> Hm1]. rewrite app_nil_r. cbn [app].
    split; [|split; [|split; [|split]]].
    + change (omap (fun t => kept (visit t)) (t :: rest))
        with (match kept (visit t) with
              | Some y => y :: omap (fun t => kept (visit t)) rest
              | None => omap (fun t => kept (visit t)) rest
              end).
      rewrite Hv. cbn [kept]. rewrite <- Hk.
      now destruct (check && found).
    + intros x Hx. apply elem_of_cons in Hx as [->|Hx].
      * exists o1, (t', found, check). split; [exact Hv|].
        intros l Hl. apply elem_of_app. now left.
      * destruct (Hvis x Hx) as (w & v & Hxv & Hw). exists w, v.
        split; [exact Hxv|]. intros l Hl. apply elem_of_app. right. auto.
    + intros l Hl. apply elem_of_app in Hl as [Hl|Hl].
      * exists t. split; [apply list_elem_of_here | now rewrite Hv].
      * destruct (Hout l Hl) as (x & Hx & Hlx). exists x.
        split; [now apply list_elem_of_further | exact Hlx].
    + intros Hn. apply Hnd.
      destruct Hm1 as [[_ ->]|[_ (n & _ & ->)]];
        [exact Hn | now apply add_missing_NoDup].
    + intros s. rewrite Hmiss. split.
      * intros [Hs|(x & w & x' & c & Hx & Hxv & Hxn)].
        -- destruct Hm1 as [[_ ->]|[-> (n & Hn & ->)]]; [now left|].
           apply add_missing_elem in Hs as [Hs| ->]; [now left|].
           right. exists t, o1, t', check.
           split; [apply list_elem_of_here | auto].
        -- right. exists x, w, x', c.
           split; [now apply list_elem_of_further | auto].
      * intros [Hs|(x & w & x' & c & Hx & Hxv & Hxn)].
        -- left. destruct Hm1 as [[_ ->]|[_ (n & _ & ->)]]; [exact Hs|].
           apply add_missing_elem. now left.
        -- apply elem_of_cons in Hx as [->|Hx].
           ++ left. rewrite Hv in Hxv. injection Hxv as E1 E2 E3 E4.
              subst w x' found c.
              destruct Hm1 as [[? _]|[_ (n & Hn & ->)]]; [discriminate|].
              apply add_missing_elem. right. congruence.
           ++ right. exists x, w, x', c. auto.
Qed.

Lemma setff_prune_no_exit (visit : T -> py (T * bool * bool))
    (name_of : T -> option string) (snapshot : list T)
    (miss : list string) :
  (forall t, no_exit (visit t)) ->
  no_exit (setff_prune visit name_of snapshot miss).
Proof.
  intros Hv. revert miss. induction snapshot as [|t rest IH]; intros miss;
    [easy|].
  cbn [setff_prune]. apply no_exit_bind; [apply Hv|].
  intros [[t' found] check]. apply no_exit_bind.
  - destruct found; [easy|]. apply no_exit_bind; [apply no_exit_getattr|easy].
  - intros miss1. apply no_exit_bind; [apply IH|]. now intros [k m].
Qed.
End LoopFacts.

(* ===================================================================== *)
(** ** One term *)
(* ===================================================================== *)

Section VisitFacts.
Context `{Geometry}.

Lemma silent_Ok_inv {A} (c : py A) (w : list line) (a : A) :
  silent c -> c = (w, Ok a) -> c = ([], Ok a).
Proof. unfold silent. intros Hs ->. cbn in Hs. now subst. Qed.

(** An atom after its visit. *)
Lemma visit_atom_spec (molname selfff : string) (ff : forcefield) (a : atom) :
  let ms := atom_matching ff a in
  exists w,
    visit_atom molname selfff ff a
    = (w, Ok (match last ms with Some r => atom_typed r a | None => a end,
              nonempty ms)) /\
    (forall l, l ∈ w -> is_missing_line l = false) /\
    ((2 <= length ms)%nat -> warn_dup_atom (at_name a) selfff ∈ w).
Proof.
  intros ms. unfold visit_atom.
  destruct (setff_atom_spec selfff (ff_atom_list ff) false a)
    as (w & Hw & Hall & Hdup).
  fold (atom_matching ff a) in Hw, Hdup. fold ms in Hw, Hdup.
  cbn [orb] in Hw. rewrite Hw.
  exists (w ++ (if nonempty ms then [] else [err_no_atom molname (at_name a)])).
  split; [|split].
  - cbn. destruct (nonempty ms); cbn; now rewrite ?app_nil_r.
  - intros l Hl. apply elem_of_app in Hl as [Hl|Hl].
    + now rewrite (Hall l Hl).
    + destruct (nonempty ms); [now apply elem_of_nil in Hl|].
      apply list_elem_of_singleton in Hl. now subst l.
  - intros H2. apply elem_of_app. left. apply Hdup. now right.
Qed.

Lemma no_exit_visit_atom molname selfff ff a :
  no_exit (visit_atom molname selfff ff a).
Proof.
  destruct (visit_atom_spec molname selfff ff a) as (w & Hw & _).
  now rewrite Hw.
Qed.

(** The atom loop, when it returns, returns [atoms_typed]. *)
Lemma setff_each_atoms (molname selfff : string) (ff : forcefield)
    (atoms : list atom) (error : bool) (out : list line)
    (atoms' : list atom) (error' : bool) :
  setff_each (visit_atom molname selfff ff) atoms error
  = (out, Ok (atoms', error')) ->
  atoms' = atoms_typed ff atoms.
Proof.
  intros Hrun. apply setff_each_Ok_inv in Hrun as (Hf2 & _).
  induction Hf2 as [|a a' rest rest' (w & found & Hv & _) _ IH];
    [reflexivity|].
  destruct (visit_atom_spec molname selfff ff a) as (w' & Hw & _).
  rewrite Hw in Hv. injection Hv as _ Ha' _.
  cbn [atoms_typed map]. now rewrite Ha', IH.
Qed.

(** A bond after its visit. *)
Lemma visit_bond_inv (molname selfff : string) (ff : forcefield)
    (box : option cell) (atoms : list atom) (bd : bond) (w : list line)
    (bd' : bond) (found : bool) :
  visit_bond molname selfff ff box atoms bd = (w, Ok (bd', found)) ->
  exists name r,
    bond_name atoms bd = ([], Ok name) /\
    bond_length box atoms bd = ([], Ok r) /\
    let hs := hits bond_fwd bond_rev name (ff_bond_list ff) in
    found = nonempty hs /\
    bd' = match last hs with
          | Some h => bond_typed h bd
          | None => bond_set_name name bd
          end /\
    (forall l, l ∈ w -> is_missing_line l = false) /\
    (forall h, h ∈ hs -> bond_checkval (fb_eqval h) r = false ->
       warn_bond molname (bond_fwd h) (b_i bd + 1) (b_j bd + 1) r ∈ w) /\
    ((2 <= length hs)%nat -> exists n, warn_dup_bond n selfff ∈ w).
Proof.
  unfold visit_bond. intros Hrun.
  apply bind_Ok_inv in Hrun as (o1 & name & o2 & Hn & Hrun & ->).
  apply bind_Ok_inv in Hrun as (o3 & r & o4 & Hr & Hrun & ->).
  apply bind_Ok_inv in Hrun as (o5 & [b f] & o6 & Hs & Hrun & ->).
  apply (silent_Ok_inv _ _ _ (silent_bond_name atoms bd)) in Hn as Hn'.
  apply (silent_Ok_inv _ _ _ (silent_bond_length box atoms _)) in Hr as Hr'.
  rewrite Hn' in Hn. rewrite Hr' in Hr.
  injection Hn as <-. injection Hr as <-.
  exists name, r. split; [exact Hn'|]. split; [exact Hr'|].
  destruct (setff_bond_spec molname selfff r (ff_bond_list ff) false
              (bond_set_name name bd) name eq_refl)
    as (ws & Hws & Hall & Hchk & Hdup).
  rewrite Hws in Hs. injection Hs as <- <- <-. cbn [orb] in Hrun |- *.
  cbn zeta. cbn [b_i b_j bond_set_name] in Hall, Hchk.
  set (hs := hits bond_fwd bond_rev name (ff_bond_list ff)) in *.
  assert (Hout : o6 = (if nonempty hs then []
                       else [err_no_bond molname name]) /\
                 bd' = match last hs with
                       | Some h => bond_typed h (bond_set_name name bd)
                       | None => bond_set_name name bd
                       end /\ found = nonempty hs).
  { destruct (nonempty hs); cbn in Hrun; injection Hrun as <- <- <-; auto. }
  destruct Hout as (-> & -> & ->). cbn [app].
  split; [reflexivity|]. split; [now destruct (last hs)|].
  split; [|split].
  - intros l Hl. apply elem_of_app in Hl as [Hl|Hl].
    + destruct (Hall l Hl) as [[n ->]|(h & _ & _ & ->)]; reflexivity.
    + destruct (nonempty hs); [now apply elem_of_nil in Hl|].
      apply list_elem_of_singleton in Hl. now subst l.
  - intros h Hh Hc. apply elem_of_app. left. now apply Hchk.
  - intros H2. destruct Hdup as [n Hn]; [now right|].
    exists n. apply elem_of_app. now left.
Qed.

Lemma no_exit_scan_bond molname selfff r rs bd name :
  b_name bd = Some name ->
  no_exit (setff_bond molname selfff r rs false bd).
Proof.
  intros Hn.
  destruct (setff_bond_spec molname selfff r rs false bd name Hn)
    as (w & Hw & _). now rewrite Hw.
Qed.

Lemma no_exit_visit_bond molname selfff ff box atoms bd :
  no_exit (visit_bond molname selfff ff box atoms bd).
Proof.
  unfold visit_bond. apply no_exit_bind.
  { unfold bond_name. exitless. }
  intros name. apply no_exit_bind.
  { unfold bond_length. exitless. }
  intros r. apply no_exit_bind.
  { now apply (no_exit_scan_bond _ _ _ _ _ name). }
  intros [b f]. apply no_exit_bind; [now destruct f | easy].
Qed.

(** An angle after its visit. *)
Lemma visit_angle_inv (molname selfff : string) (ff : forcefield)
    (box : option cell) (atoms : list atom) (an : angle) (w : list line)
    (an' : angle) (found check : bool) :
  visit_angle molname selfff ff box atoms an = (w, Ok (an', found, check)) ->
  exists name th,
    angle_name atoms an = ([], Ok name) /\
    angle_value box atoms an = ([], Ok th) /\
    let hs := hits angle_fwd angle_rev name (ff_angle_list ff) in
    found = nonempty hs /\
    check = forallb (fun h => angle_checkval (fn_eqval h) th) hs /\
    an' = match last hs with
          | Some h => angle_typed h an
          | None => angle_set_name name an
          end /\
    (forall l, l ∈ w -> is_missing_line l = false) /\
    (check = false ->
     exists n, warn_angle_removed molname n (an_i an + 1) (an_j an + 1)
                 (an_k an + 1) th ∈ w) /\
    ((2 <= length hs)%nat -> exists n, warn_dup_angle n selfff ∈ w).
Proof.
  unfold visit_angle. intros Hrun.
  apply bind_Ok_inv in Hrun as (o1 & name & o2 & Hn & Hrun & ->).
  apply bind_Ok_inv in Hrun as (o3 & th & o4 & Hr & Hrun & ->).
  apply bind_Ok_inv in Hrun as (o5 & [[a f] c] & o6 & Hs & Hrun & ->).
  apply (silent_Ok_inv _ _ _ (silent_angle_name atoms an)) in Hn as Hn'.
  apply (silent_Ok_inv _ _ _ (silent_angle_value box atoms _)) in Hr as Hr'.
  rewrite Hn' in Hn. rewrite Hr' in Hr.
  injection Hn as <-. injection Hr as <-.
  exists name, th. split; [exact Hn'|]. split; [exact Hr'|].
  destruct (setff_angle_spec selfff th (ff_angle_list ff) false true
              (angle_set_name name an) name eq_refl)
    as (ws & Hws & Hall & Hdup).
  rewrite Hws in Hs. injection Hs as <- <- <- <-.
  cbn [orb andb] in Hrun |- *. cbn zeta.
  set (hs := hits angle_fwd angle_rev name (ff_angle_list ff)) in *.
  set (chk := forallb (fun h => angle_checkval (fn_eqval h) th) hs) in *.
  set (res := match last hs with
              | Some h => angle_typed h (angle_set_name name an)
              | None => angle_set_name name an
              end) in *.
  assert (Hname : exists n, an_name res = Some n).
  { subst res. destruct (last hs); cbn; eauto. }
  destruct Hname as [n Hname].
  assert (Hout : o6 = (if chk then []
                       else [warn_angle_removed molname n (an_i an + 1)
                               (an_j an + 1) (an_k an + 1) th]) /\
                 an' = res /\ found = nonempty hs /\ check = chk).
  { destruct chk; cbn in Hrun; [injection Hrun as <- <- <- <-; auto|].
    rewrite Hname in Hrun. cbn in Hrun.
    injection Hrun as <- <- <- <-; auto. }
  destruct Hout as (-> & -> & -> & ->). cbn [app].
  split; [reflexivity|]. split; [reflexivity|].
  split; [subst res; now destruct (last hs)|].
  split; [|split].
  - intros l Hl. apply elem_of_app in Hl as [Hl|Hl].
    + destruct (Hall l Hl) as [m ->]. reflexivity.
    + destruct chk; [now apply elem_of_nil in Hl|].
      apply list_elem_of_singleton in Hl. now subst l.
  - intros Hc. exists n. apply elem_of_app. right. rewrite Hc.
    apply list_elem_of_here.
  - intros H2. destruct Hdup as [m Hm]; [now right|].
    exists m. apply elem_of_app. now left.
Qed.

Lemma no_exit_visit_angle molname selfff ff box atoms an :
  no_exit (visit_angle molname selfff ff box atoms an).
Proof.
  unfold visit_angle. apply no_exit_bind.
  { unfold angle_name. exitless. }
  intros name. apply no_exit_bind.
  { unfold angle_value. exitless. }
  intros th. apply no_exit_bind.
  { destruct (setff_angle_spec selfff th (ff_angle_list ff) false true
                (angle_set_name name an) name eq_refl) as (w & Hw & _).
    now rewrite Hw. }
  intros [[a f] c]. apply no_exit_bind; [|easy].
  destruct c; [easy|]. exitless.
Qed.

(** A dihedral after its visit. *)
Lemma visit_dihed_inv (ff : forcefield) (atoms : list atom) (dh : dihed)
    (w : list line) (dh' : dihed) (found check : bool) :
  visit_dihed ff atoms dh = (w, Ok (dh', found, check)) ->
  exists name,
    dihed_name atoms dh = ([], Ok name) /\
    let hs := hits dihed_fwd dihed_rev name (ff_dihed_list ff) in
    (length hs <= 1)%nat /\
    found = nonempty hs /\ check = true /\
    dh' = match last hs with
          | Some h => dihed_typed h dh
          | None => dihed_set_name name dh
          end /\
    w = [].
Proof.
  unfold visit_dihed. intros Hrun.
  apply bind_Ok_inv in Hrun as (o1 & name & o2 & Hn & Hrun & ->).
  apply bind_Ok_inv in Hrun as (o5 & [d f] & o6 & Hs & Hrun & ->).
  apply (silent_Ok_inv _ _ _ (silent_dihed_name atoms dh)) in Hn as Hn'.
  rewrite Hn' in Hn. injection Hn as <-.
  exists name. split; [exact Hn'|].
  rewrite (setff_dihed_spec (ff_dihed_list ff) false
             (dihed_set_name name dh) name eq_refl) in Hs.
  cbn [andb orb] in Hs. cbn zeta.
  set (hs := hits dihed_fwd dihed_rev name (ff_dihed_list ff)) in *.
  destruct (2 <=? length hs)%nat eqn:E2; [discriminate|].
  apply Nat.leb_gt in E2. injection Hs as <- <- <-.
  cbn in Hrun. injection Hrun as <- <- <- <-.
  split; [lia|]. repeat split.
Qed.

Lemma no_exit_visit_dihed ff atoms dh : no_exit (visit_dihed ff atoms dh).
Proof.
  unfold visit_dihed. apply no_exit_bind.
  { unfold dihed_name. exitless. }
  intros name. apply no_exit_bind.
  { rewrite (setff_dihed_spec (ff_dihed_list ff) false
               (dihed_set_name name dh) name eq_refl).
    now destruct (_ || _). }
  now intros [d f].
Qed.

(** An improper after its visit. *)
Lemma visit_dimpr_inv (selfff : string) (ff : forcefield)
    (atoms : list atom) (di : dihed) (w : list line) (di' : dihed)
    (found check : bool) :
  visit_dimpr selfff ff atoms di = (w, Ok (di', found, check)) ->
  exists name,
    dihed_name atoms di = ([], Ok name) /\
    let hs := hits dihed_fwd dihed_rev name (ff_dimpr_list ff) in
    found = nonempty hs /\ check = true /\
    di' = match last hs with
          | Some h => dihed_typed h di
          | None => dihed_set_name name di
          end /\
    (forall l, l ∈ w -> is_missing_line l = false) /\
    ((2 <= length hs)%nat -> exists n, warn_dup_improper n selfff ∈ w).
Proof.
  unfold visit_dimpr. intros Hrun.
  apply bind_Ok_inv in Hrun as (o1 & name & o2 & Hn & Hrun & ->).
  apply bind_Ok_inv in Hrun as (o5 & [d f] & o6 & Hs & Hrun & ->).
  apply (silent_Ok_inv _ _ _ (silent_dihed_name atoms di)) in Hn as Hn'.
  rewrite Hn' in Hn. injection Hn as <-.
  exists name. split; [exact Hn'|].
  destruct (setff_dimpr_spec selfff (ff_dimpr_list ff) false
              (dihed_set_name name di) name eq_refl)
    as (ws & Hws & Hall & Hdup).
  rewrite Hws in Hs. injection Hs as <- <- <-.
  cbn [orb] in Hrun |- *. cbn zeta.
  set (hs := hits dihed_fwd dihed_rev name (ff_dimpr_list ff)) in *.
  cbn in Hrun. injection Hrun as <- <- <- <-. cbn [app].
  rewrite app_nil_r.
  split; [reflexivity|]. split; [reflexivity|].
  split; [now destruct (last hs)|]. split.
  - intros l Hl. destruct (Hall l Hl) as [m ->]. reflexivity.
  - intros H2. apply Hdup. now right.
Qed.

Lemma no_exit_visit_dimpr selfff ff atoms di :
  no_exit (visit_dimpr selfff ff atoms di).
Proof.
  unfold visit_dimpr. apply no_exit_bind.
  { unfold dihed_name. exitless. }
  intros name. apply no_exit_bind.
  { destruct (setff_dimpr_spec selfff (ff_dimpr_list ff) false
                (dihed_set_name name di) name eq_refl) as (w & Hw & _).
    now rewrite Hw. }
  now intros [d f].
Qed.
End VisitFacts.

(* ===================================================================== *)
(** ** The whole of setff *)
(* ===================================================================== *)

Section LoopErrors.
Context {T : Type}.

Lemma setff_each_error (visit : T -> py (T * bool)) (terms : list T)
    (error : bool) (out : list line) (terms' : list T) :
  setff_each visit terms error = (out, Ok (terms', true)) ->
  error = true \/
  exists t w t', t ∈ terms /\ visit t = (w, Ok (t', false)).
Proof.
  revert error out terms'.
  induction terms as [|t rest IH]; intros error out terms' Hrun.
  - cbn in Hrun. injection Hrun as <- <- <-. now left.
  - cbn [setff_each] in Hrun.
    apply bind_Ok_inv in Hrun as (o1 & [t' found] & o2 & Hv & Hrun & ->).
    apply bind_Ok_inv in Hrun as (o3 & [rest' e'] & o4 & Hrest & Hret & ->).
    cbn in Hret. injection Hret as E1 E2 E3. subst e'.
    destruct (IH _ _ _ Hrest) as [He|(x & w & x' & Hx & Hxv)].
    + apply orb_true_iff in He as [He|He]; [now left|].
      apply negb_true_iff in He. subst found. right.
      exists t, o1, t'. split; [apply list_elem_of_here | exact Hv].
    + right. exists x, w, x'.
      split; [now apply list_elem_of_further | exact Hxv].
Qed.
End LoopErrors.

Section SetffFacts.
Context `{Geometry}.

Lemma nonempty_false {A} (l : list A) : nonempty l = false <-> l = [].
Proof. now destruct l. Qed.

(** A successful run of [setff], stage by stage. *)
Lemma setff_Ok_inv (ff : forcefield) (box : option cell) (self : mol)
    (out : list line) (self' : mol) :
  truthy (m_ff self) = true ->
  setff ff box self = (out, Ok self') ->
  exists oa ob on od oi anmiss dhmiss dimiss,
    setff_each (visit_atom (m_name self) (m_ff self) ff) (m_atom self) false
    = (oa, Ok (m_atom self', false)) /\
    setff_each (visit_bond (m_name self) (m_ff self) ff box (m_atom self'))
      (m_bond self) false
    = (ob, Ok (m_bond self', false)) /\
    setff_prune (visit_angle (m_name self) (m_ff self) ff box (m_atom self'))
      an_name (m_angle self) []
    = (on, Ok (m_angle self', anmiss)) /\
    setff_prune (visit_dihed ff (m_atom self')) dh_name (m_dihed self) []
    = (od, Ok (m_dihed self', dhmiss)) /\
    setff_prune (visit_dimpr (m_ff self) ff (m_atom self')) dh_name
      (m_dimpr self) []
    = (oi, Ok (m_dimpr self', dimiss)) /\
    out = oa ++ ob ++ on ++ od ++ oi ++ missing_report anmiss dhmiss dimiss.
Proof.
  intros Hff Hrun. unfold setff in Hrun. rewrite Hff in Hrun.
  cbn [negb] in Hrun.
  apply bind_Ok_inv in Hrun as (oa & [atoms ea] & o2 & Ha & Hrun & ->).
  apply bind_Ok_inv in Hrun as (o3 & [] & o4 & Hea & Hrun & ->).
  destruct ea; [discriminate|]. injection Hea as <-.
  apply bind_Ok_inv in Hrun as (ob & [bonds eb] & o5 & Hb & Hrun & ->).
  apply bind_Ok_inv in Hrun as (o6 & [] & o7 & Heb & Hrun & ->).
  destruct eb; [discriminate|]. injection Heb as <-.
  apply bind_Ok_inv in Hrun as (on & [angles anmiss] & o8 & Hn & Hrun & ->).
  apply bind_Ok_inv in Hrun as (od & [diheds dhmiss] & o9 & Hd & Hrun & ->).
  apply bind_Ok_inv in Hrun as (oi & [dimprs dimiss] & o10 & Hi & Hrun & ->).
  apply bind_Ok_inv in Hrun as (o11 & [] & o12 & Hrep & Hrun & ->).
  injection Hrep as <-. cbn in Hrun. injection Hrun as <- <-.
  cbn [m_atom m_bond m_angle m_dihed m_dimpr].
  exists oa, ob, on, od, oi, anmiss, dhmiss, dimiss.
  repeat split; try assumption. cbn [app]. now rewrite app_nil_r.
Qed.

(** [setff] leaves through [sys.exit] only for an atom or a bond without
    a record. *)
Lemma setff_SysExit_inv (ff : forcefield) (box : option cell) (self : mol)
    (out : list line) :
  truthy (m_ff self) = true ->
  setff ff box self = (out, SysExit) ->
  (exists a, a ∈ m_atom self /\ atom_matching ff a = []) \/
  (exists bd name,
     bd ∈ m_bond self /\
     bond_name (atoms_typed ff (m_atom self)) bd = ([], Ok name) /\
     matching bond_fwd bond_rev name (ff_bond_list ff) = []).
Proof.
  intros Hff Hrun. unfold setff in Hrun. rewrite Hff in Hrun.
  cbn [negb] in Hrun.
  apply bind_SysExit_inv in Hrun as [Hrun|(oa & [atoms ea] & o2 & Ha & Hrun & ->)].
  { exfalso. eapply (setff_each_no_exit _ _ _ (no_exit_visit_atom _ _ _)).
    now rewrite Hrun. }
  apply bind_SysExit_inv in Hrun as [Hrun|(o3 & [] & o4 & Hea & Hrun & ->)].
  { destruct ea; [|discriminate]. left.
    apply setff_each_error in Ha as [?|(a & w & a' & Ha & Hv)];
      [discriminate|].
    exists a. split; [exact Ha|].
    destruct (visit_atom_spec (m_name self) (m_ff self) ff a) as (w' & Hw & _).
    rewrite Hw in Hv. injection Hv as _ _ Hv. now apply nonempty_false. }
  apply bind_SysExit_inv in Hrun as [Hrun|(ob & [bonds eb] & o5 & Hb & Hrun & ->)].
  { exfalso.
    eapply (setff_each_no_exit _ _ _ (no_exit_visit_bond _ _ _ _ _)).
    now rewrite Hrun. }
  apply bind_SysExit_inv in Hrun as [Hrun|(o6 & [] & o7 & Heb & Hrun & ->)].
  { destruct eb; [|discriminate]. right.
    apply setff_each_error in Hb as [?|(bd & w & bd' & Hbd & Hv)];
      [discriminate|].
    apply visit_bond_inv in Hv as (name & r & Hn & _ & Hf & _).
    rewrite (setff_each_atoms _ _ _ _ _ _ _ _ Ha) in Hn.
    exists bd, name. split; [exact Hbd|]. split; [exact Hn|].
    symmetry in Hf. apply nonempty_false in Hf. now apply hits_nil in Hf. }
  exfalso.
  apply bind_SysExit_inv in Hrun as [Hrun|(on & [angles anmiss] & o8 & Hn & Hrun & ->)].
  { eapply (setff_prune_no_exit _ _ _ _ (no_exit_visit_angle _ _ _ _ _)).
    now rewrite Hrun. }
  apply bind_SysExit_inv in Hrun as [Hrun|(od & [diheds dhmiss] & o9 & Hd & Hrun & ->)].
  { eapply (setff_prune_no_exit _ _ _ _ (no_exit_visit_dihed _ _)).
    now rewrite Hrun. }
  apply bind_SysExit_inv in Hrun as [Hrun|(oi & [dimprs dimiss] & o10 & Hi & Hrun & ->)].
  { eapply (setff_prune_no_exit _ _ _ _ (no_exit_visit_dimpr _ _ _)).
    now rewrite Hrun. }
  apply bind_SysExit_inv in Hrun as [Hrun|(o11 & [] & o12 & Hrep & Hrun & ->)];
    discriminate.
Qed.
End SetffFacts.

(* ===================================================================== *)
(** ** Missing terms *)
(* ===================================================================== *)

Section LoopLines.
Context {T : Type}.

Lemma setff_each_lines (P : line -> Prop) (visit : T -> py (T * bool))
    (terms : list T) (out : list line) (terms' : list T) :
  setff_each visit terms false = (out, Ok (terms', false)) ->
  (forall t w v, visit t = (w, Ok v) -> forall l, l ∈ w -> P l) ->
  forall l, l ∈ out -> P l.
Proof.
  intros Hrun HP l Hl.
  destruct (setff_each_Ok_inv _ _ _ _ _ _ Hrun) as (_ & Herr & Hout).
  destruct (Hout l Hl) as (t & Ht & Hlt).
  destruct (Herr eq_refl) as [_ Hall].
  rewrite Forall_forall in Hall. destruct (Hall t Ht) as (w & t' & Hv).
  rewrite Hv in Hlt. exact (HP t w _ Hv l Hlt).
Qed.

Lemma setff_prune_lines (P : line -> Prop)
    (visit : T -> py (T * bool * bool)) (name_of : T -> option string)
    (snapshot : list T) (miss : list string) (out : list line)
    (kept' : list T) (miss' : list string) :
  setff_prune visit name_of snapshot miss = (out, Ok (kept', miss')) ->
  (forall t w v, visit t = (w, Ok v) -> forall l, l ∈ w -> P l) ->
  forall l, l ∈ out -> P l.
Proof.
  intros Hrun HP l Hl.
  destruct (setff_prune_Ok_inv _ _ _ _ _ _ _ Hrun) as (_ & Hvis & Hout & _).
  destruct (Hout l Hl) as (t & Ht & Hlt).
  destruct (Hvis t Ht) as (w & v & Hv & _).
  rewrite Hv in Hlt. exact (HP t w _ Hv l Hlt).
Qed.
End LoopLines.

Section MissingTerms.
Context `{Geometry}.

Lemma angle_unmatched_pruned molname selfff ff box atoms an s w v :
  angle_unmatched ff atoms an s ->
  visit_angle molname selfff ff box atoms an = (w, Ok v) ->
  exists an' check, v = (an', false, check) /\ an_name an' = Some s.
Proof.
  intros [Hn Hm] Hv. destruct v as [[an' found] check].
  apply visit_angle_inv in Hv as (name & th & Hn' & _ & Hf & _ & Ha & _).
  rewrite Hn in Hn'. injection Hn' as <-.
  apply hits_nil in Hm. rewrite Hm in Hf, Ha. subst. cbn. eauto.
Qed.

Lemma angle_pruned_unmatched molname selfff ff box atoms an s w an' check :
  visit_angle molname selfff ff box atoms an = (w, Ok (an', false, check)) ->
  an_name an' = Some s -> angle_unmatched ff atoms an s.
Proof.
  intros Hv Hs.
  apply visit_angle_inv in Hv as (name & th & Hn' & _ & Hf & _ & Ha & _).
  symmetry in Hf. apply nonempty_false in Hf. rewrite Hf in Ha.
  subst an'. cbn in Hs. injection Hs as <-.
  split; [exact Hn' | now apply hits_nil].
Qed.

Lemma dihed_unmatched_pruned ff atoms dh s w v :
  dihed_unmatched ff atoms dh s ->
  visit_dihed ff atoms dh = (w, Ok v) ->
  exists dh' check, v = (dh', false, check) /\ dh_name dh' = Some s.
Proof.
  intros [Hn Hm] Hv. destruct v as [[dh' found] check].
  apply visit_dihed_inv in Hv as (name & Hn' & _ & Hf & _ & Ha & _).
  rewrite Hn in Hn'. injection Hn' as <-.
  apply hits_nil in Hm. rewrite Hm in Hf, Ha. subst. cbn. eauto.
Qed.

Lemma dihed_pruned_unmatched ff atoms dh s w dh' check :
  visit_dihed ff atoms dh = (w, Ok (dh', false, check)) ->
  dh_name dh' = Some s -> dihed_unmatched ff atoms dh s.
Proof.
  intros Hv Hs.
  apply visit_dihed_inv in Hv as (name & Hn' & _ & Hf & _ & Ha & _).
  symmetry in Hf. apply nonempty_false in Hf. rewrite Hf in Ha.
  subst dh'. cbn in Hs. injection Hs as <-.
  split; [exact Hn' | now apply hits_nil].
Qed.

Lemma dimpr_unmatched_pruned selfff ff atoms di s w v :
  dimpr_unmatched ff atoms di s ->
  visit_dimpr selfff ff atoms di = (w, Ok v) ->
  exists di' check, v = (di', false, check) /\ dh_name di' = Some s.
Proof.
  intros [Hn Hm] Hv. destruct v as [[di' found] check].
  apply visit_dimpr_inv in Hv as (name & Hn' & Hf & _ & Ha & _).
  rewrite Hn in Hn'. injection Hn' as <-.
  apply hits_nil in Hm. rewrite Hm in Hf, Ha. subst. cbn. eauto.
Qed.

Lemma dimpr_pruned_unmatched selfff ff atoms di s w di' check :
  visit_dimpr selfff ff atoms di = (w, Ok (di', false, check)) ->
  dh_name di' = Some s -> dimpr_unmatched ff atoms di s.
Proof.
  intros Hv Hs.
  apply visit_dimpr_inv in Hv as (name & Hn' & Hf & _ & Ha & _).
  symmetry in Hf. apply nonempty_false in Hf. rewrite Hf in Ha.
  subst di'. cbn in Hs. injection Hs as <-.
  split; [exact Hn' | now apply hits_nil].
Qed.

(** What a pruning loop does with the terms that have no record: when
    [unmatched] describes the visits that do not find one, such terms are
    dropped and their names are exactly the names collected. *)
Lemma prune_unmatched {T} (visit : T -> py (T * bool * bool))
    (name_of : T -> option string) (unmatched : T -> string -> Prop)
    (snapshot : list T) (out : list line) (kept' : list T)
    (miss' : list string) :
  (forall t s w v, unmatched t s -> visit t = (w, Ok v) ->
     exists t' check, v = (t', false, check) /\ name_of t' = Some s) ->
  (forall t s w t' check, visit t = (w, Ok (t', false, check)) ->
     name_of t' = Some s -> unmatched t s) ->
  setff_prune visit name_of snapshot [] = (out, Ok (kept', miss')) ->
  kept' = omap (fun t => kept (visit t)) snapshot /\
  (forall t s, t ∈ snapshot -> unmatched t s -> kept (visit t) = None) /\
  NoDup miss' /\
  (forall s, s ∈ miss' <-> exists t, t ∈ snapshot /\ unmatched t s).
Proof.
  intros Hup Hpu Hrun.
  destruct (setff_prune_Ok_inv _ _ _ _ _ _ _ Hrun)
    as (Hk & Hvis & _ & Hnd & Hmiss).
  split; [exact Hk|]. split; [|split].
  - intros t s Ht Hu. destruct (Hvis t Ht) as (w & v & Hv & _).
    destruct (Hup t s w v Hu Hv) as (t' & c & -> & _).
    rewrite Hv. cbn. now rewrite andb_false_r.
  - apply Hnd, NoDup_nil_2.
  - intros s. rewrite Hmiss. split.
    + intros [Hs|(t & w & t' & c & Ht & Hv & Hn)];
        [now apply elem_of_nil in Hs|].
      exists t. split; [exact Ht | eapply Hpu; eauto].
    + intros (t & Ht & Hu). right.
      destruct (Hvis t Ht) as (w & v & Hv & _).
      destruct (Hup t s w v Hu Hv) as (t' & c & -> & Hn).
      exists t, w, t', c. auto.
Qed.

(** C1 (amended): in a run of [setff] on a molecule that names a force
    field, an angle, dihedral or improper whose name matches no record in
    either atom order is taken out of its list and the run goes on; the
    distinct missing names are collected per class and printed in one
    block after every other line of the run.  A bond (or an atom) without
    a record is what makes the run end in [sys.exit(1)], and nothing else
    does; a run that returns has a record for every bond. *)
Theorem missing_terms_pruned (ff : forcefield) (box : option cell)
    (self : mol) (out : list line) (r : result mol) :
  truthy (m_ff self) = true ->
  setff ff box self = (out, r) ->
  (r = SysExit ->
   (exists a, a ∈ m_atom self /\ atom_matching ff a = []) \/
   (exists bd s, bd ∈ m_bond self /\
      bond_unmatched ff (atoms_typed ff (m_atom self)) bd s)) /\
  (forall self', r = Ok self' ->
   let atoms := m_atom self' in
   atoms = atoms_typed ff (m_atom self) /\
   (forall bd s, bd ∈ m_bond self -> ~ bond_unmatched ff atoms bd s) /\
   m_angle self'
   = omap (fun an => kept (visit_angle (m_name self) (m_ff self)
                             ff box atoms an)) (m_angle self) /\
   m_dihed self'
   = omap (fun dh => kept (visit_dihed ff atoms dh)) (m_dihed self) /\
   m_dimpr self'
   = omap (fun di => kept (visit_dimpr (m_ff self) ff atoms di))
       (m_dimpr self) /\
   (forall an s, an ∈ m_angle self -> angle_unmatched ff atoms an s ->
      kept (visit_angle (m_name self) (m_ff self) ff box atoms an) = None) /\
   (forall dh s, dh ∈ m_dihed self -> dihed_unmatched ff atoms dh s ->
      kept (visit_dihed ff atoms dh) = None) /\
   (forall di s, di ∈ m_dimpr self -> dimpr_unmatched ff atoms di s ->
      kept (visit_dimpr (m_ff self) ff atoms di) = None) /\
   exists pre anmiss dhmiss dimiss,
     out = pre ++ missing_report anmiss dhmiss dimiss /\
     (forall l, l ∈ pre -> is_missing_line l = false) /\
     NoDup anmiss /\ NoDup dhmiss /\ NoDup dimiss /\
     (forall s, s ∈ anmiss <->
        exists an, an ∈ m_angle self /\ angle_unmatched ff atoms an s) /\
     (forall s, s ∈ dhmiss <->
        exists dh, dh ∈ m_dihed self /\ dihed_unmatched ff atoms dh s) /\
     (forall s, s ∈ dimiss <->
        exists di, di ∈ m_dimpr self /\ dimpr_unmatched ff atoms di s)).
Proof.
  intros Hff Hrun. split.
  - intros ->. destruct (setff_SysExit_inv ff box self out Hff Hrun)
      as [Ha|(bd & s & Hbd & Hn & Hm)]; [now left|].
    right. exists bd, s. now split.
  - intros self' ->. intros atoms.
    destruct (setff_Ok_inv ff box self out self' Hff Hrun)
      as (oa & ob & on & od & oi & anmiss & dhmiss & dimiss
          & Ha & Hb & Hn & Hd & Hi & ->).
    fold atoms in Hb, Hn, Hd, Hi.
    destruct (prune_unmatched _ _ (angle_unmatched ff atoms) _ _ _ _
                (angle_unmatched_pruned _ _ ff box atoms)
                (angle_pruned_unmatched _ _ ff box atoms) Hn)
      as (Hkn & Hpn & Hndn & Hmn).
    destruct (prune_unmatched _ _ (dihed_unmatched ff atoms) _ _ _ _
                (dihed_unmatched_pruned ff atoms)
                (dihed_pruned_unmatched ff atoms) Hd)
      as (Hkd & Hpd & Hndd & Hmd).
    destruct (prune_unmatched _ _ (dimpr_unmatched ff atoms) _ _ _ _
                (dimpr_unmatched_pruned _ ff atoms)
                (dimpr_pruned_unmatched _ ff atoms) Hi)
      as (Hki & Hpi & Hndi & Hmi).
    split; [exact (setff_each_atoms _ _ _ _ _ _ _ _ Ha)|].
    split; [|repeat (split; [assumption|])].
    + intros bd s Hbd [Hname Hm].
      destruct (setff_each_Ok_inv _ _ _ _ _ _ Hb) as (_ & Herr & _).
      destruct (Herr eq_refl) as [_ Hall]. rewrite Forall_forall in Hall.
      destruct (Hall bd Hbd) as (w & bd' & Hv).
      apply visit_bond_inv in Hv as (name & rr & Hn' & _ & Hf & _).
      rewrite Hname in Hn'. injection Hn' as <-.
      apply hits_nil in Hm. rewrite Hm in Hf. discriminate.
    + exists (oa ++ ob ++ on ++ od ++ oi), anmiss, dhmiss, dimiss.
      split; [now rewrite <- !app_assoc|].
      split; [|repeat (split; [assumption|]); assumption].
      intros l Hl. rewrite !elem_of_app in Hl.
      destruct Hl as [Hl|[Hl|[Hl|[Hl|Hl]]]].
      * revert l Hl. eapply setff_each_lines; [exact Ha|].
        intros a w v Hv l Hl.
        destruct (visit_atom_spec (m_name self) (m_ff self) ff a)
          as (w' & Hw & Hall & _).
        rewrite Hw in Hv. injection Hv as <- _. auto.
      * revert l Hl. eapply setff_each_lines; [exact Hb|].
        intros bd w [bd' f] Hv l Hl.
        apply visit_bond_inv in Hv as (? & ? & _ & _ & _ & _ & Hall & _).
        auto.
      * revert l Hl. eapply setff_prune_lines; [exact Hn|].
        intros an w [[an' f] c] Hv l Hl.
        apply visit_angle_inv in Hv
          as (? & ? & _ & _ & _ & _ & _ & Hall & _).
        auto.
      * revert l Hl. eapply setff_prune_lines; [exact Hd|].
        intros dh w [[dh' f] c] Hv l Hl.
        apply visit_dihed_inv in Hv as (? & _ & _ & _ & _ & _ & ->).
        now apply elem_of_nil in Hl.
      * revert l Hl. eapply setff_prune_lines; [exact Hi|].
        intros di w [[di' f] c] Hv l Hl.
        apply visit_dimpr_inv in Hv as (? & _ & _ & _ & _ & Hall & _).
        auto.
Qed.
End MissingTerms.

(* ===================================================================== *)
(** ** Matched terms *)
(* ===================================================================== *)

Lemma SFcompare_Lt_asym (x y : SpecFloat.spec_float) :
  SpecFloat.SFcompare x y = Some Lt -> SpecFloat.SFcompare y x = Some Gt.
Proof.
  destruct x as [sx|sx| |sx mx ex], y as [sy|sy| |sy my ey]; cbn;
    try discriminate;
    try (destruct sx; cbn; congruence);
    try (destruct sy; cbn; congruence);
    try (destruct sx, sy; cbn; congruence).
  rewrite (Z.compare_antisym ex ey).
  replace (Pos.compare_cont Eq my mx)
    with (CompOpp (Pos.compare_cont Eq mx my))
    by apply (Pos.compare_cont_antisym mx my Eq).
  destruct sx, sy; cbn; try congruence;
    destruct (ex ?= ey)%Z; cbn; try congruence;
    destruct (Pos.compare_cont Eq mx my); cbn; congruence.
Qed.

(** [<] on binary64 numbers is asymmetric. *)
Lemma ltb_asym (x y : float) :
  PrimFloat.ltb x y = true -> PrimFloat.ltb y x = false.
Proof.
  rewrite !ltb_spec. unfold SpecFloat.SFltb. intros Hlt.
  destruct (SpecFloat.SFcompare (Prim2SF x) (Prim2SF y)) as [[]|] eqn:E;
    try discriminate.
  now rewrite (SFcompare_Lt_asym _ _ E).
Qed.

Lemma deviates_bond (eqval r : float) :
  deviates 0.25 eqval r -> bond_checkval eqval r = false.
Proof. unfold deviates, bond_checkval. intros Hd. now rewrite (ltb_asym _ _ Hd). Qed.

Lemma deviates_angle (eqval th : float) :
  deviates 15 eqval th -> angle_checkval eqval th = false.
Proof. unfold deviates, angle_checkval. intros Hd. now rewrite (ltb_asym _ _ Hd). Qed.

Section MatchedTerms.
Context `{Geometry}.

(** C2 (amended): when a run of [setff] returns, an atom whose name
    matches more than one record carries the type, charge, kind,
    parameters and mass of the last of them, and a duplicate warning is
    printed; the same holds for bonds, for the angles that stay and for
    impropers, when the two names of a record match the same records of
    their list.  The warning is not fatal: a run ends in [sys.exit(1)]
    only for an atom or a bond without a record.  (The loop over the
    dihedrals is left out.) *)
Theorem last_match_wins (ff : forcefield) (box : option cell) (self : mol)
    (out : list line) (r : result mol) :
  truthy (m_ff self) = true ->
  setff ff box self = (out, r) ->
  (r = SysExit ->
   (exists a, a ∈ m_atom self /\ atom_matching ff a = []) \/
   (exists bd s, bd ∈ m_bond self /\
      bond_unmatched ff (atoms_typed ff (m_atom self)) bd s)) /\
  forall self', r = Ok self' ->
  let atoms := m_atom self' in
  Forall2 (fun a a' =>
    let ms := atom_matching ff a in
    (2 <= length ms)%nat ->
    exists r, last ms = Some r /\ a' = atom_typed r a /\
              warn_dup_atom (at_name a) (m_ff self) ∈ out)
    (m_atom self) (m_atom self') /\
  (coherent bond_fwd bond_rev (ff_bond_list ff) = true ->
   Forall2 (fun bd bd' => forall s,
     bond_name atoms bd = ([], Ok s) ->
     let ms := matching bond_fwd bond_rev s (ff_bond_list ff) in
     (2 <= length ms)%nat ->
     exists r, last ms = Some r /\ bd' = bond_typed r bd /\
               exists n, warn_dup_bond n (m_ff self) ∈ out)
     (m_bond self) (m_bond self')) /\
  (coherent angle_fwd angle_rev (ff_angle_list ff) = true ->
   forall an s, an ∈ m_angle self ->
     angle_name atoms an = ([], Ok s) ->
     let ms := matching angle_fwd angle_rev s (ff_angle_list ff) in
     (2 <= length ms)%nat ->
     exists r, last ms = Some r /\
       (forall an',
          kept (visit_angle (m_name self) (m_ff self) ff box atoms an)
          = Some an' ->
          an' = angle_typed r an /\ an' ∈ m_angle self') /\
       exists n, warn_dup_angle n (m_ff self) ∈ out) /\
  (coherent dihed_fwd dihed_rev (ff_dimpr_list ff) = true ->
   forall di s, di ∈ m_dimpr self ->
     dihed_name atoms di = ([], Ok s) ->
     let ms := matching dihed_fwd dihed_rev s (ff_dimpr_list ff) in
     (2 <= length ms)%nat ->
     exists r, last ms = Some r /\
       dihed_typed r di ∈ m_dimpr self' /\
       exists n, warn_dup_improper n (m_ff self) ∈ out).
Proof.
  intros Hff Hrun. split.
  { intros ->. destruct (setff_SysExit_inv ff box self out Hff Hrun)
      as [Ha|(bd & s & Hbd & Hn & Hm)]; [now left|].
    right. exists bd, s. now split. }
  intros self' ->. intros atoms.
  destruct (setff_Ok_inv ff box self out self' Hff Hrun)
    as (oa & ob & on & od & oi & anmiss & dhmiss & dimiss
        & Ha & Hb & Hn & Hd & Hi & ->).
  fold atoms in Hb, Hn, Hd, Hi.
  assert (Hlast : forall {A} (l : list A), (2 <= length l)%nat ->
                    exists x, last l = Some x).
  { intros A l Hl. destruct (last l) eqn:E; [eauto|].
    apply last_None in E. subst l. cbn in Hl. lia. }
  split; [|split; [|split]].
  - destruct (setff_each_Ok_inv _ _ _ _ _ _ Ha) as (Hf2 & _ & _).
    eapply Forall2_impl; [exact Hf2|]. cbn.
    intros a a' (w & found & Hv & Hw) H2.
    destruct (visit_atom_spec (m_name self) (m_ff self) ff a)
      as (w' & Hw' & _ & Hdup).
    rewrite Hw' in Hv. injection Hv as <- Ha' _.
    destruct (Hlast _ _ H2) as [r Hr]. exists r.
    rewrite Hr in Ha'. split; [exact Hr|]. split; [now symmetry|].
    apply elem_of_app. left. apply Hw, Hdup, H2.
  - intros Hc.
    destruct (setff_each_Ok_inv _ _ _ _ _ _ Hb) as (Hf2 & _ & _).
    eapply Forall2_impl; [exact Hf2|]. cbn.
    intros bd bd' (w & found & Hv & Hw) s Hs H2.
    apply visit_bond_inv in Hv as (name & r0 & Hn' & _ & _ & Hbd & _ & _ & Hdup).
    rewrite Hs in Hn'. injection Hn' as <-.
    rewrite (hits_matching _ _ _ _ Hc) in Hbd, Hdup.
    destruct (Hlast _ _ H2) as [r Hr]. exists r.
    rewrite Hr in Hbd. split; [exact Hr|]. split; [exact Hbd|].
    destruct (Hdup H2) as [n Hn0]. exists n.
    rewrite !elem_of_app. right. left. now apply Hw.
  - intros Hc an s Han Hs ms H2.
    destruct (setff_prune_Ok_inv _ _ _ _ _ _ _ Hn) as (Hk & Hvis & _).
    destruct (Hvis an Han) as (w & [[an1 f] c] & Hv & Hw).
    pose proof Hv as Hv'.
    apply visit_angle_inv in Hv'
      as (name & th & Hn' & _ & _ & _ & Han1 & _ & _ & Hdup).
    rewrite Hs in Hn'. injection Hn' as <-.
    rewrite (hits_matching _ _ _ _ Hc) in Han1, Hdup. fold ms in Han1, Hdup.
    destruct (Hlast _ _ H2) as [r Hr]. exists r.
    rewrite Hr in Han1. split; [exact Hr|]. split.
    + intros an' Hkept. split.
      * rewrite Hv in Hkept. cbn in Hkept.
        destruct (c && f); [|discriminate]. injection Hkept as <-.
        exact Han1.
      * rewrite Hk. apply list_elem_of_omap. exists an. now split.
    + destruct (Hdup H2) as [n Hn0]. exists n.
      rewrite !elem_of_app. right. right. left. now apply Hw.
  - intros Hc di s Hdi Hs ms H2.
    destruct (setff_prune_Ok_inv _ _ _ _ _ _ _ Hi) as (Hk & Hvis & _).
    destruct (Hvis di Hdi) as (w & [[di1 f] c] & Hv & Hw).
    pose proof Hv as Hv'.
    apply visit_dimpr_inv in Hv'
      as (name & Hn' & Hf & Hcc & Hdi1 & _ & Hdup).
    rewrite Hs in Hn'. injection Hn' as <-.
    rewrite (hits_matching _ _ _ _ Hc) in Hf, Hdi1, Hdup.
    fold ms in Hf, Hdi1, Hdup.
    destruct (Hlast _ _ H2) as [r Hr]. exists r.
    rewrite Hr in Hdi1. split; [exact Hr|]. split.
    + rewrite Hk. apply list_elem_of_omap. exists di. split; [exact Hdi|].
      rewrite Hv. cbn. subst c f di1.
      destruct ms; [cbn in H2; lia | reflexivity].
    + destruct (Hdup H2) as [n Hn0]. exists n.
      rewrite !elem_of_app. do 4 right. left. now apply Hw.
Qed.

(** C4: when a run of [setff] returns, every bond is still in the bond
    list, and a bond whose length is more than 0.25 away from the
    equilibrium value of a record it is matched with only gets a warning;
    an angle whose value is more than 15 degrees away from the equilibrium
    value of a record it is matched with is taken out of the angle list,
    with a warning.  Neither is fatal: a run ends in [sys.exit(1)] only
    for an atom or a bond without a record. *)
Theorem tolerance_checks (ff : forcefield) (box : option cell) (self : mol)
    (out : list line) (r : result mol) :
  truthy (m_ff self) = true ->
  setff ff box self = (out, r) ->
  (r = SysExit ->
   (exists a, a ∈ m_atom self /\ atom_matching ff a = []) \/
   (exists bd s, bd ∈ m_bond self /\
      bond_unmatched ff (atoms_typed ff (m_atom self)) bd s)) /\
  forall self', r = Ok self' ->
  let atoms := m_atom self' in
  Forall2 (fun bd bd' =>
    b_i bd' = b_i bd /\ b_j bd' = b_j bd /\
    forall s r h,
      bond_name atoms bd = ([], Ok s) ->
      bond_length box atoms bd = ([], Ok r) ->
      h ∈ hits bond_fwd bond_rev s (ff_bond_list ff) ->
      deviates 0.25 (fb_eqval h) r ->
      warn_bond (m_name self) (bond_fwd h) (b_i bd + 1) (b_j bd + 1) r ∈ out)
    (m_bond self) (m_bond self') /\
  m_angle self'
  = omap (fun an => kept (visit_angle (m_name self) (m_ff self)
                            ff box atoms an)) (m_angle self) /\
  (forall an s th h,
     an ∈ m_angle self ->
     angle_name atoms an = ([], Ok s) ->
     angle_value box atoms an = ([], Ok th) ->
     h ∈ hits angle_fwd angle_rev s (ff_angle_list ff) ->
     deviates 15 (fn_eqval h) th ->
     kept (visit_angle (m_name self) (m_ff self) ff box atoms an) = None /\
     exists n, warn_angle_removed (m_name self) n (an_i an + 1)
                 (an_j an + 1) (an_k an + 1) th ∈ out).
Proof.
  intros Hff Hrun. split.
  { intros ->. destruct (setff_SysExit_inv ff box self out Hff Hrun)
      as [Ha|(bd & s & Hbd & Hn & Hm)]; [now left|].
    right. exists bd, s. now split. }
  intros self' ->. intros atoms.
  destruct (setff_Ok_inv ff box self out self' Hff Hrun)
    as (oa & ob & on & od & oi & anmiss & dhmiss & dimiss
        & Ha & Hb & Hn & Hd & Hi & ->).
  fold atoms in Hb, Hn, Hd, Hi.
  split; [|split].
  - destruct (setff_each_Ok_inv _ _ _ _ _ _ Hb) as (Hf2 & _ & _).
    eapply Forall2_impl; [exact Hf2|]. cbn.
    intros bd bd' (w & found & Hv & Hw).
    apply visit_bond_inv in Hv
      as (name & r0 & Hn' & Hr0 & _ & Hbd & _ & Hchk & _).
    split; [|split].
    + subst bd'. now destruct (last _).
    + subst bd'. now destruct (last _).
    + intros s r h Hs Hr Hh Hdev.
      rewrite Hs in Hn'. injection Hn' as <-.
      rewrite Hr in Hr0. injection Hr0 as <-.
      rewrite !elem_of_app. right. left.
      apply Hw, Hchk; [exact Hh | now apply deviates_bond].
  - now destruct (setff_prune_Ok_inv _ _ _ _ _ _ _ Hn) as (Hk & _).
  - intros an s th h Han Hs Hth Hh Hdev.
    destruct (setff_prune_Ok_inv _ _ _ _ _ _ _ Hn) as (Hk & Hvis & _).
    destruct (Hvis an Han) as (w & [[an1 f] c] & Hv & Hw).
    pose proof Hv as Hv'.
    apply visit_angle_inv in Hv'
      as (name & th0 & Hn' & Hth0 & _ & Hc & _ & _ & Hrem & _).
    rewrite Hs in Hn'. injection Hn' as <-.
    rewrite Hth in Hth0. injection Hth0 as <-.
    assert (c = false) as ->.
    { rewrite Hc. apply Bool.not_true_iff_false. intros Hall.
      rewrite forallb_forall in Hall.
      apply list_elem_of_In in Hh. specialize (Hall h Hh).
      now rewrite (deviates_angle _ _ Hdev) in Hall. }
    split; [now rewrite Hv|].
    destruct (Hrem eq_refl) as [n Hn0]. exists n.
    rewrite !elem_of_app. right. right. left. now apply Hw.
Qed.
End MatchedTerms.

(* ===================================================================== *)
(** ** Connectivity *)
(* ===================================================================== *)

Section ConnectivityFacts.
Context `{Geometry}.





End ConnectivityFacts.

(* ===================================================================== *)
(** ** Linear chains *)
(* ===================================================================== *)

(** *** Sums *)

Lemma length_flat_map_sum {A B} (f : A -> list B) (l : list A) :
  length (flat_map f l) = sum_list_with (fun x => length (f x)) l.
Proof.
  induction l as [|x l IH]; [reflexivity|].
  cbn. now rewrite length_app, IH.
Qed.

Lemma sum_list_with_ext_in {A} (f g : A -> nat) (l : list A) :
  (forall x, x ∈ l -> f x = g x) -> sum_list_with f l = sum_list_with g l.
Proof.
  induction l as [|x l IH]; intros Hfg; [reflexivity|]. cbn.
  rewrite (Hfg x) by apply list_elem_of_here.
  rewrite IH; [reflexivity|]. intros y Hy. apply Hfg.
  now apply list_elem_of_further.
Qed.

Lemma sum_list_with_map {A B} (f : B -> nat) (g : A -> B) (l : list A) :
  sum_list_with f (map g l) = sum_list_with (fun x => f (g x)) l.
Proof. induction l as [|x l IH]; [reflexivity|]. cbn. now rewrite IH. Qed.

Lemma sum_list_with_fmap {A B} (f : B -> nat) (g : A -> B) (l : list A) :
  sum_list_with f (g <$> l) = sum_list_with (fun x => f (g x)) l.
Proof. induction l as [|x l IH]; [reflexivity|]. cbn. now rewrite IH. Qed.

(** A loop over the positions of a list that only reads the entries. *)
Lemma sum_seq_lookup {A} `{Inhabited A} (g : A -> nat) (l : list A) :
  sum_list_with (fun j => g (l !!! j)) (seq 0 (length l))
  = sum_list_with g l.
Proof.
  induction l as [|x l IH]; [reflexivity|].
  cbn [length seq]. rewrite <- fmap_S_seq. cbn [sum_list_with].
  f_equal. rewrite <- IH.
  now rewrite (sum_list_with_fmap (fun j => g ((x :: l) !!! j)) S).
Qed.

Lemma sum_seq_S (f : nat -> nat) (m : nat) :
  sum_list_with f (seq 0 (S m)) = (sum_list_with f (seq 0 m) + f m)%nat.
Proof. rewrite seq_S, sum_list_with_app. cbn. lia. Qed.

(** A sum with at most one non-zero term. *)
Lemma sum_support (f : nat -> nat) (m c0 : nat) :
  (forall c, (c < m)%nat -> c <> c0 -> f c = 0%nat) ->
  sum_list_with f (seq 0 m) = if (c0 <? m)%nat then f c0 else 0%nat.
Proof.
  induction m as [|m IH]; intros Hz; [reflexivity|].
  rewrite sum_seq_S, IH by (intros c Hc Hne; apply Hz; [lia | exact Hne]).
  destruct (Nat.ltb_spec c0 m), (Nat.ltb_spec c0 (S m)); try lia.
  - rewrite (Hz m); lia.
  - now replace c0 with m by lia.
  - rewrite (Hz m); lia.
Qed.

(** *** Chains *)

Lemma chain_ends_NoDup (n : nat) : NoDup (chain_ends n).
Proof.
  unfold chain_ends. change (map ?f ?l) with (f <$> l).
  apply NoDup_fmap_2; [|apply NoDup_seq].
  intros x y [= Hxy]. lia.
Qed.

Lemma elem_of_chain_ends (n : nat) (e : Z * Z) :
  e ∈ chain_ends n <->
  exists a, (a + 1 < n)%nat /\ e = (Z.of_nat a, Z.of_nat a + 1).
Proof.
  unfold chain_ends. change (map ?f ?l) with (f <$> l).
  rewrite list_elem_of_fmap. split.
  - intros (a & -> & Ha). apply elem_of_seq in Ha. exists a. split; [lia|auto].
  - intros (a & Ha & ->). exists a. split; [reflexivity|].
    apply elem_of_seq. lia.
Qed.

Lemma sum_chain_ends (g : Z * Z -> nat) (n : nat) :
  sum_list_with g (chain_ends n)
  = sum_list_with (fun a => g (Z.of_nat a, Z.of_nat a + 1)) (seq 0 (n - 1)).
Proof. unfold chain_ends. now rewrite sum_list_with_map. Qed.

Section ChainFacts.
Variable n : nat.
Variable bonds : list bond.
Hypothesis Hchain : linear_chain n bonds.


Lemma chain_sum (g : Z * Z -> nat) :
  sum_list_with (fun b => g (ends b)) bonds
  = sum_list_with (fun a => g (Z.of_nat a, Z.of_nat a + 1)) (seq 0 (n - 1)).
Proof.
  rewrite <- sum_chain_ends, <- sum_list_with_map.
  now apply sum_list_with_Permutation_proper.
Qed.

Lemma chain_bond (b : bond) :
  b ∈ bonds ->
  exists a, (a + 1 < n)%nat /\ ends b = (Z.of_nat a, Z.of_nat a + 1) /\
    ((b_i b = Z.of_nat a /\ b_j b = Z.of_nat a + 1) \/
     (b_i b = Z.of_nat a + 1 /\ b_j b = Z.of_nat a)).
Proof.
  intros Hb.
  assert (He : ends b ∈ chain_ends n).
  { rewrite <- Hchain. change (map ends bonds) with (ends <$> bonds).
    now apply list_elem_of_fmap_2. }
  apply elem_of_chain_ends in He as (a & Ha & He).
  exists a. split; [exact Ha|]. split; [exact He|].
  unfold ends in He. injection He as Hmin Hmax. lia.
Qed.

Lemma chain_positions (k l : nat) :
  (k < length bonds)%nat -> (l < length bonds)%nat ->
  (k =? l)%nat = bool_decide (ends (bonds !!! k) = ends (bonds !!! l)).
Proof.
  intros Hk Hl.
  assert (Hnd : NoDup (ends <$> bonds)).
  { change (ends <$> bonds) with (map ends bonds). rewrite Hchain.
    apply chain_ends_NoDup. }
  destruct (Nat.eqb_spec k l) as [->|Hne].
  - now rewrite bool_decide_eq_true_2.
  - rewrite bool_decide_eq_false_2; [reflexivity|]. intros Heq.
    apply Hne. eapply (NoDup_lookup _ k l _ Hnd);
      rewrite list_lookup_fmap.
    + rewrite (list_lookup_lookup_total_lt bonds k Hk). reflexivity.
    + rewrite (list_lookup_lookup_total_lt bonds l Hl). cbn. now rewrite Heq.
Qed.
End ChainFacts.

(** The number of [p < n] with [lo <= p < hi]. *)
Lemma count_interval (lo hi n : nat) :
  sum_list_with (fun p => if (lo <=? p)%nat && (p <? hi)%nat then 1%nat
                          else 0%nat) (seq 0 n)
  = (Nat.min n hi - lo)%nat.
Proof.
  induction n as [|n IH]; [reflexivity|]. rewrite sum_seq_S, IH. cbv beta.
  destruct (Nat.leb_spec lo n), (Nat.ltb_spec n hi); cbn [andb]; lia.
Qed.

Lemma touchb_ends (x : Z) (b : bond) :
  touchb x (ends b) = (x =? b_i b) || (x =? b_j b).
Proof.
  unfold touchb, ends. cbn.
  destruct (Z.eqb_spec x (b_i b)), (Z.eqb_spec x (b_j b)),
    (Z.eqb_spec x (Z.min (b_i b) (b_j b))),
    (Z.eqb_spec x (Z.max (b_i b) (b_j b))); cbn; try reflexivity; lia.
Qed.

Lemma touches_touchb (x : Z) (e : Z * Z) :
  touches x e = if touchb x e then 1%nat else 0%nat.
Proof. reflexivity. Qed.

(** *** Angles *)

Lemma neighbours_length (i : Z) (bonds : list bond) :
  length (neighbours i bonds)
  = sum_list_with (fun b => touches i (ends b)) bonds.
Proof.
  induction bonds as [|bd rest IH]; [reflexivity|].
  cbn [neighbours sum_list_with]. rewrite touches_touchb, touchb_ends.
  destruct (Z.eqb_spec i (b_i bd)); cbn [orb]; [cbn; now rewrite IH|].
  destruct (Z.eqb_spec i (b_j bd)); cbn; now rewrite IH.
Qed.

(** The number of bonds at atom [p] of a chain with [m] bonds. *)
Lemma degree_chain (p m : nat) :
  sum_list_with (fun a => touches (Z.of_nat p) (Z.of_nat a, Z.of_nat a + 1))
    (seq 0 m)
  = ((if (1 <=? p)%nat && (p <=? m)%nat then 1 else 0)
     + (if (p <? m)%nat then 1 else 0))%nat.
Proof.
  induction m as [|m IH].
  - cbn [seq sum_list_with].
    destruct (Nat.leb_spec 1 p), (Nat.leb_spec p 0), (Nat.ltb_spec p 0);
      cbn [andb]; lia.
  - rewrite sum_seq_S, IH. cbv beta. unfold touches. cbn [fst snd].
    destruct (Z.eqb_spec (Z.of_nat p) (Z.of_nat m)),
      (Z.eqb_spec (Z.of_nat p) (Z.of_nat m + 1)),
      (Nat.leb_spec 1 p), (Nat.leb_spec p m), (Nat.leb_spec p (S m)),
      (Nat.ltb_spec p m), (Nat.ltb_spec p (S m)); cbn [andb orb]; lia.
Qed.

Lemma angles_at_length (i : Z) (bonds : list bond) :
  (length (neighbours i bonds) <= 2)%nat ->
  length (angles_at i bonds)
  = if (length (neighbours i bonds) =? 2)%nat then 1%nat else 0%nat.
Proof.
  unfold angles_at. destruct (neighbours i bonds) as [|x [|y [|z r]]]; cbn;
    intros; try reflexivity; lia.
Qed.

Lemma chain_angles (n : nat) (bonds : list bond) :
  linear_chain n bonds -> length (all_angles n bonds) = (n - 2)%nat.
Proof.
  intros Hchain. unfold all_angles. rewrite length_flat_map_sum.
  rewrite (sum_list_with_ext_in _
             (fun p => if (1 <=? p)%nat && (p <? n - 1)%nat then 1%nat
                       else 0%nat)).
  - rewrite count_interval. lia.
  - intros p Hp. apply elem_of_seq in Hp.
    assert (Hdeg : length (neighbours (Z.of_nat p) bonds)
                   = ((if (1 <=? p)%nat && (p <=? n - 1)%nat then 1 else 0)
                      + (if (p <? n - 1)%nat then 1 else 0))%nat).
    { rewrite neighbours_length.
      rewrite (chain_sum n bonds Hchain (touches (Z.of_nat p))).
      apply degree_chain. }
    rewrite angles_at_length; rewrite Hdeg;
      destruct (Nat.leb_spec 1 p), (Nat.leb_spec p (n - 1)),
        (Nat.ltb_spec p (n - 1)); cbn [andb Nat.eqb Nat.add]; lia.
Qed.

(** Pairs of consecutive atoms, compared as natural numbers. *)
Lemma pair_succ_eq (c a : nat) :
  bool_decide ((Z.of_nat c, Z.of_nat c + 1) = (Z.of_nat a, Z.of_nat a + 1))
  = (c =? a)%nat.
Proof.
  destruct (Nat.eqb_spec c a) as [->|Hne].
  - now rewrite bool_decide_eq_true_2.
  - rewrite bool_decide_eq_false_2; [reflexivity|]. intros [= Heq]. lia.
Qed.

Lemma touchb_lower (a c : nat) :
  touchb (Z.of_nat a) (Z.of_nat c, Z.of_nat c + 1)
  = (a =? c)%nat || (a =? c + 1)%nat.
Proof.
  unfold touchb. cbn [fst snd].
  destruct (Z.eqb_spec (Z.of_nat a) (Z.of_nat c)),
    (Z.eqb_spec (Z.of_nat a) (Z.of_nat c + 1)),
    (Nat.eqb_spec a c), (Nat.eqb_spec a (c + 1)); cbn [orb];
    try reflexivity; lia.
Qed.

Lemma touchb_upper (a c : nat) :
  touchb (Z.of_nat a + 1) (Z.of_nat c, Z.of_nat c + 1)
  = (a + 1 =? c)%nat || (a =? c)%nat.
Proof.
  unfold touchb. cbn [fst snd].
  destruct (Z.eqb_spec (Z.of_nat a + 1) (Z.of_nat c)),
    (Z.eqb_spec (Z.of_nat a + 1) (Z.of_nat c + 1)),
    (Nat.eqb_spec (a + 1) c), (Nat.eqb_spec a c); cbn [orb];
    try reflexivity; lia.
Qed.

(** The third bonds of a chain with [m] bonds, for the middle bond
    [(a, a+1)] read from [a] to [a+1] and the first bond [(a-1, a)]. *)
Lemma third_sum_up (m a c : nat) :
  (c + 1 = a)%nat ->
  sum_list_with
    (fun e => third_term (Z.of_nat a, Z.of_nat a + 1) (Z.of_nat a + 1) (Z.of_nat c, Z.of_nat c + 1) (Z.of_nat e, Z.of_nat e + 1))
    (seq 0 m)
  = if (a + 1 <? m)%nat then 1%nat else 0%nat.
Proof.
  intros Hc. rewrite (sum_support _ m (a + 1)).
  - cbv beta. unfold third_term. rewrite !pair_succ_eq, touchb_upper.
    destruct (Nat.ltb_spec (a + 1) m); [|reflexivity].
    destruct (Nat.eqb_spec (a + 1) a), (Nat.eqb_spec (a + 1) c),
      (Nat.eqb_spec (a + 1) (a + 1)), (Nat.eqb_spec a (a + 1));
      cbn [orb]; try reflexivity; lia.
  - intros e He Hne. cbv beta. unfold third_term.
    rewrite !pair_succ_eq, touchb_upper.
    destruct (Nat.eqb_spec e a), (Nat.eqb_spec e c),
      (Nat.eqb_spec (a + 1) e), (Nat.eqb_spec a e);
      cbn [orb]; try reflexivity; lia.
Qed.

(** The same for the middle bond read from [a+1] to [a] and the first
    bond [(a+1, a+2)]. *)
Lemma third_sum_down (m a c : nat) :
  (a < m)%nat -> (c = a + 1)%nat ->
  sum_list_with
    (fun e => third_term (Z.of_nat a, Z.of_nat a + 1) (Z.of_nat a) (Z.of_nat c, Z.of_nat c + 1) (Z.of_nat e, Z.of_nat e + 1))
    (seq 0 m)
  = if (1 <=? a)%nat then 1%nat else 0%nat.
Proof.
  intros Ha Hc. rewrite (sum_support _ m (a - 1)).
  - cbv beta. unfold third_term. rewrite !pair_succ_eq, touchb_lower.
    destruct (Nat.ltb_spec (a - 1) m); [|lia].
    destruct (Nat.leb_spec 1 a), (Nat.eqb_spec (a - 1) a),
      (Nat.eqb_spec (a - 1) c), (Nat.eqb_spec a (a - 1)),
      (Nat.eqb_spec a (a - 1 + 1));
      cbn [orb]; try reflexivity; lia.
  - intros e He Hne. cbv beta. unfold third_term.
    rewrite !pair_succ_eq, touchb_lower.
    destruct (Nat.eqb_spec e a), (Nat.eqb_spec e c),
      (Nat.eqb_spec a e), (Nat.eqb_spec a (e + 1));
      cbn [orb]; try reflexivity; lia.
Qed.

Section ChainDiheds.
Variable n : nat.
Variable bonds : list bond.
Hypothesis Hchain : linear_chain n bonds.

Lemma third_count_chain (ek : Z * Z) (y : Z) (el : Z * Z) :
  third_count bonds ek y el
  = sum_list_with (fun e => third_term ek y el (Z.of_nat e, Z.of_nat e + 1)) (seq 0 (n - 1)).
Proof. unfold third_count. apply (chain_sum n bonds Hchain). Qed.

Lemma first_count_chain (bk : bond) :
  first_count bonds bk
  = sum_list_with
      (fun c => first_term bonds (ends bk) (b_i bk) (b_j bk) (Z.of_nat c, Z.of_nat c + 1))
      (seq 0 (n - 1)).
Proof. unfold first_count. apply (chain_sum n bonds Hchain). Qed.

(** The dihedrals around one middle bond of a chain: one if there is a
    bond on each side, none otherwise. *)
Lemma first_count_value (bk : bond) (a : nat) :
  (a + 1 < n)%nat -> ends bk = (Z.of_nat a, Z.of_nat a + 1) ->
  (b_i bk = Z.of_nat a /\ b_j bk = Z.of_nat a + 1) \/
  (b_i bk = Z.of_nat a + 1 /\ b_j bk = Z.of_nat a) ->
  first_count bonds bk
  = if (1 <=? a)%nat && (a + 2 <? n)%nat then 1%nat else 0%nat.
Proof.
  intros Ha He Hor. rewrite first_count_chain, He.
  destruct Hor as [[-> ->]|[-> ->]].
  - rewrite (sum_support _ (n - 1) (a - 1)).
    + cbv beta. unfold first_term.
      rewrite pair_succ_eq, touchb_lower.
      destruct (Nat.ltb_spec (a - 1) (n - 1)); [|lia].
      destruct (Nat.leb_spec 1 a); cbn [andb].
      * destruct (Nat.eqb_spec (a - 1) a); [lia|].
        replace (a =? a - 1 + 1)%nat with true
          by (symmetry; apply Nat.eqb_eq; lia).
        rewrite orb_true_r, third_count_chain.
        rewrite third_sum_up by lia.
        destruct (Nat.ltb_spec (a + 1) (n - 1)), (Nat.ltb_spec (a + 2) n);
          try reflexivity; lia.
      * replace (a - 1)%nat with a by lia.
        now rewrite Nat.eqb_refl.
    + intros c Hc Hne. cbv beta. unfold first_term.
      rewrite pair_succ_eq, touchb_lower.
      destruct (Nat.eqb_spec c a), (Nat.eqb_spec a c),
        (Nat.eqb_spec a (c + 1)); cbn [orb]; try reflexivity; lia.
  - rewrite (sum_support _ (n - 1) (a + 1)).
    + cbv beta. unfold first_term.
      rewrite pair_succ_eq, touchb_upper.
      destruct (Nat.ltb_spec (a + 1) (n - 1)).
      * destruct (Nat.eqb_spec (a + 1) a); [lia|].
        rewrite Nat.eqb_refl. cbn [orb]. rewrite third_count_chain.
        rewrite third_sum_down by lia.
        destruct (Nat.leb_spec 1 a), (Nat.ltb_spec (a + 2) n);
          cbn [andb]; try reflexivity; lia.
      * destruct (Nat.leb_spec 1 a), (Nat.ltb_spec (a + 2) n);
          cbn [andb]; try reflexivity; lia.
    + intros c Hc Hne. cbv beta. unfold first_term.
      rewrite pair_succ_eq, touchb_upper.
      destruct (Nat.eqb_spec c a), (Nat.eqb_spec (a + 1) c),
        (Nat.eqb_spec a c); cbn [orb]; try reflexivity; lia.
Qed.
End ChainDiheds.

Section ChainDihedCount.
Variable n : nat.
Variable bonds : list bond.
Hypothesis Hchain : linear_chain n bonds.

Lemma diheds_klj_length (k l : nat) (first : Z) :
  (k < length bonds)%nat -> (l < length bonds)%nat ->
  length (diheds_klj bonds k l first)
  = third_count bonds (ends (bonds !!! k)) (b_j (bonds !!! k))
      (ends (bonds !!! l)).
Proof.
  intros Hk Hl. unfold diheds_klj, third_count.
  rewrite length_flat_map_sum.
  rewrite <- (sum_seq_lookup
                (fun b => third_term (ends (bonds !!! k))
                            (b_j (bonds !!! k)) (ends (bonds !!! l))
                            (ends b))).
  apply sum_list_with_ext_in. intros j Hj. apply elem_of_seq in Hj.
  unfold third_term.
  rewrite (chain_positions n bonds Hchain j k) by lia.
  rewrite (chain_positions n bonds Hchain j l) by lia.
  destruct (bool_decide _ || bool_decide _); [reflexivity|].
  rewrite touchb_ends.
  destruct (b_j (bonds !!! k) =? b_i (bonds !!! j)); [reflexivity|].
  now destruct (b_j (bonds !!! k) =? b_j (bonds !!! j)).
Qed.

Lemma diheds_kl_length (k l : nat) :
  (k < length bonds)%nat -> (l < length bonds)%nat ->
  length (diheds_kl bonds k l)
  = first_term bonds (ends (bonds !!! k)) (b_i (bonds !!! k))
      (b_j (bonds !!! k)) (ends (bonds !!! l)).
Proof.
  intros Hk Hl. unfold diheds_kl, first_term.
  rewrite Nat.eqb_sym, (chain_positions n bonds Hchain l k) by lia.
  destruct (bool_decide _); [reflexivity|].
  rewrite touchb_ends.
  destruct (b_i (bonds !!! k) =? b_i (bonds !!! l)); cbn [orb];
    [now apply diheds_klj_length|].
  destruct (b_i (bonds !!! k) =? b_j (bonds !!! l));
    [now apply diheds_klj_length | reflexivity].
Qed.

Lemma all_diheds_length :
  length (all_diheds bonds) = sum_list_with (first_count bonds) bonds.
Proof.
  unfold all_diheds. rewrite length_flat_map_sum.
  rewrite <- (sum_seq_lookup (first_count bonds)).
  apply sum_list_with_ext_in. intros k Hk. apply elem_of_seq in Hk.
  rewrite length_flat_map_sum. unfold first_count.
  rewrite <- (sum_seq_lookup
                (fun bl => first_term bonds (ends (bonds !!! k))
                             (b_i (bonds !!! k)) (b_j (bonds !!! k))
                             (ends bl))).
  apply sum_list_with_ext_in. intros l Hl. apply elem_of_seq in Hl.
  apply diheds_kl_length; lia.
Qed.

Lemma chain_diheds : length (all_diheds bonds) = (n - 3)%nat.
Proof.
  rewrite all_diheds_length.
  rewrite (sum_list_with_ext_in _
             (fun b => if (1 <=? Z.to_nat (ends b).1)%nat
                          && (Z.to_nat (ends b).1 <? n - 2)%nat
                       then 1%nat else 0%nat)).
  - rewrite (chain_sum n bonds Hchain
               (fun e => if (1 <=? Z.to_nat e.1)%nat
                            && (Z.to_nat e.1 <? n - 2)%nat
                         then 1%nat else 0%nat)).
    cbn [fst].
    rewrite (sum_list_with_ext_in _
               (fun a => if (1 <=? a)%nat && (a <? n - 2)%nat
                         then 1%nat else 0%nat))
      by (intros a _; now rewrite Nat2Z.id).
    rewrite count_interval. lia.
  - intros b Hb.
    destruct (chain_bond n bonds Hchain b Hb) as (a & Ha & He & Hor).
    rewrite (first_count_value n bonds Hchain b a Ha He Hor), He.
    cbn [fst]. rewrite Nat2Z.id.
    destruct (Nat.leb_spec 1 a), (Nat.ltb_spec (a + 2) n),
      (Nat.ltb_spec a (n - 2)); cbn [andb]; try reflexivity; lia.
Qed.
End ChainDihedCount.

(** C6: for a molecule of [n] atoms whose bonds are those of a linear
    chain, [anglesdiheds] adds exactly [n - 2] angles and [n - 3]
    dihedrals (none when the subtraction would be negative). *)
Theorem chain_counts (n : nat) (self : mol) :
  length (m_atom self) = n ->
  linear_chain n (m_bond self) ->
  length (m_angle (anglesdiheds self))
  = (length (m_angle self) + (n - 2))%nat /\
  length (m_dihed (anglesdiheds self))
  = (length (m_dihed self) + (n - 3))%nat.
Proof.
  intros Hn Hchain. unfold anglesdiheds. cbn [m_angle m_dihed].
  rewrite !length_app, Hn.
  now rewrite (chain_angles n _ Hchain), (chain_diheds n _ Hchain).
Qed.

(** The chain H-C-C-O of the examples. *)
Lemma chain_counts_witness :
  length (m_angle example_mol) = 2%nat /\
  length (m_dihed example_mol) = 1%nat.
Proof.
  apply (chain_counts 4
           {| m_name := "ex"; m_ff := "ex.ff";
              m_atom := m_atom example_mol; m_bond := m_bond example_mol;
              m_angle := []; m_dihed := []; m_dimpr := [];
              m_m := 0%float; m_nmol := 1; m_topol := "file" |}).
  - reflexivity.
  - unfold linear_chain. vm_compute. reflexivity.
Defined.

(* ===================================================================== *)
(** ** The examples *)
(* ===================================================================== *)

Lemma example_run_ok :
  setff (H := example_geometry) example_ff None example_mol
  = (example_out, Ok example_typed).
Proof. vm_compute. reflexivity. Qed.

Lemma example_ff_named : truthy (m_ff example_mol) = true.
Proof. reflexivity. Qed.

(** The angle C-C-O of the example has no record: it is dropped. *)
Lemma missing_terms_pruned_witness :
  kept (visit_angle (H := example_geometry) "ex" "ex.ff" example_ff None
          (m_atom example_typed) (angle_init 1 2 3)) = None.
Proof.
  refine (proj1 (proj2 (proj2 (proj2 (proj2 (proj2
            (proj2 (missing_terms_pruned (H := example_geometry)
                      example_ff None example_mol example_out
                      (Ok example_typed) example_ff_named example_run_ok)
               example_typed eq_refl))))))
          (angle_init 1 2 3) "CA-CA-OH"%string _ _).
  - apply list_elem_of_In. vm_compute. auto.
  - split; vm_compute; reflexivity.
Defined.

(** C1 as stated fails for bonds: a bond without a record ends the run. *)
Lemma missing_bond_counterexample :
  m_bond (co_mol "nb.ff") = [bond_init 0 1] /\
  bond_unmatched ff_nobond (atoms_typed ff_nobond (m_atom (co_mol "nb.ff")))
    (bond_init 0 1) "CA-OH" /\
  setff (H := example_geometry) ff_nobond None (co_mol "nb.ff")
  = ([err_no_bond "CO" "CA-OH"], SysExit).
Proof. repeat split; vm_compute; reflexivity. Qed.

(** The second atom of the example is a "C", which has two records. *)
Lemma last_match_wins_witness :
  exists a a' r,
    m_atom example_mol !! 1%nat = Some a /\
    m_atom example_typed !! 1%nat = Some a' /\
    last (atom_matching example_ff a) = Some r /\ a' = atom_typed r a /\
    fa_type r = "CA"%string /\
    warn_dup_atom "C" "ex.ff" ∈ example_out.
Proof.
  pose proof (proj1 (proj2 (last_match_wins (H := example_geometry)
                              example_ff None example_mol example_out
                              (Ok example_typed)
                              example_ff_named example_run_ok)
                       example_typed eq_refl)) as Hall.
  destruct (Forall2_lookup_l _ _ _ 1%nat _ Hall eq_refl) as (a' & Ha' & Hp).
  destruct Hp as (r & Hr & Hty & Hw); [vm_compute; lia|].
  eexists _, a', r. split; [reflexivity|]. split; [exact Ha'|].
  split; [exact Hr|]. split; [exact Hty|]. split; [|exact Hw].
  vm_compute in Hr. now injection Hr as <-.
Defined.

(** C2 as stated fails: the atom "C" ends up with the type of the second
    record of its name, not of the first. *)
Lemma first_match_counterexample :
  exists a a' r1,
    m_atom example_mol !! 1%nat = Some a /\
    m_atom example_typed !! 1%nat = Some a' /\
    head (atom_matching example_ff a) = Some r1 /\
    fa_type r1 = "CT"%string /\ at_type a' = Some "CA"%string /\
    a' <> atom_typed r1 a.
Proof.
  eexists _, _, _. repeat (split; [vm_compute; reflexivity|]).
  vm_compute. discriminate.
Qed.

(** A dihedral with two records: the run raises at the second match. *)
Lemma dihedral_duplicate_raises :
  (setff (H := example_geometry) ff_two_diheds None example_mol).2
  = Raise UnboundLocalError.
Proof. vm_compute. reflexivity. Qed.

(** The bond H-C of the example is 1.4 long against 1.08, and the angle
    H-C-C measures 90 degrees against 120. *)
Lemma tolerance_checks_witness :
  (exists bd',
     m_bond example_typed !! 0%nat = Some bd' /\ b_i bd' = 0 /\ b_j bd' = 1 /\
     exists r, bond_length (H := example_geometry) None
                 (m_atom example_typed) (bond_init 0 1) = ([], Ok r) /\
               warn_bond "ex" "CA-HC" 1 2 r ∈ example_out) /\
  kept (visit_angle (H := example_geometry) "ex" "ex.ff" example_ff None
          (m_atom example_typed) (angle_init 0 1 2)) = None /\
  exists n, warn_angle_removed "ex" n 1 2 3 90 ∈ example_out.
Proof.
  destruct (proj2 (tolerance_checks (H := example_geometry) example_ff None
                     example_mol example_out (Ok example_typed)
                     example_ff_named example_run_ok)
              example_typed eq_refl) as (Hb & _ & Han).
  split.
  - destruct (Forall2_lookup_l _ _ _ 0%nat _ Hb eq_refl)
      as (bd' & Hbd' & Hi & Hj & Hw).
    exists bd'. split; [exact Hbd'|]. split; [exact Hi|]. split; [exact Hj|].
    eexists. split; [vm_compute; reflexivity|].
    refine (Hw "HC-CA"%string _ (mk_ff_bond "CA" "HC" "harm" [1.08; 3071]%float
                                   1.08%float) _ _ _ _).
    + vm_compute. reflexivity.
    + vm_compute. reflexivity.
    + apply list_elem_of_In. vm_compute. auto.
    + vm_compute. reflexivity.
  - refine (Han (angle_init 0 1 2) "HC-CA-CA"%string 90%float
              (mk_ff_angle "CA" "CA" "HC" "harm" [120; 293]%float 120%float)
              _ _ _ _ _).
    + apply list_elem_of_In. vm_compute. auto.
    + vm_compute. reflexivity.
    + vm_compute. reflexivity.
    + apply list_elem_of_In. vm_compute. auto.
    + vm_compute. reflexivity.
Defined.

(** The example of the specification: 1.80 against 1.529 is flagged. *)
Lemma bond_tolerance_example :
  deviates 0.25 1.529 1.80 /\ bond_checkval 1.529 1.80 = false.
Proof. split; vm_compute; reflexivity. Qed.

Lemma example_connect_ok :
  connectivity (H := example_geometry) example_ff None example_unbonded
  = ([], Ok example_connected).
Proof. vm_compute. reflexivity. Qed.



(** Two species made of the same C-O pair with the same parameter file. *)
Lemma type_index_by_name_witness :
  let mols := [typed_by ff_fwd (co_mol "fwd.ff");
               typed_by ff_fwd (co_mol "fwd.ff")] in
  let s := system_of mols in
  type_table cat_bond s
  = first_of_each_name (term_name mols) []
      (all_terms cat_bond (imap mol_refs mols)) /\
  exists i t, type_table cat_bond s !! i = Some t /\
    term_name mols t = term_name mols (cat_bond, 0, 0)%nat /\
    (forall j t', type_table cat_bond s !! j = Some t' ->
       term_name mols t' = term_name mols (cat_bond, 0, 0)%nat -> j = i) /\
    ityp_of cat_bond s (cat_bond, 0, 0)%nat = Z.of_nat i /\
    ityp_of cat_bond s (cat_bond, 1, 0)%nat = Z.of_nat i.
Proof.
  intros mols s.
  apply (type_index_by_name (term_name mols) (imap mol_refs mols)
           (fun _ => -1) cat_bond (cat_bond, 0, 0)%nat (cat_bond, 1, 0)%nat).
  - apply list_elem_of_In. vm_compute. auto.
  - apply list_elem_of_In. vm_compute. auto.
  - vm_compute. reflexivity.
Defined.

(** C3 as stated fails: the same C-O bond typed from two parameter files
    that write the record in opposite orders has the label pairs (CA, OH)
    and (OH, CA); the two bonds get two table entries and the indices 0
    and 1. *)
Lemma reversed_names_counterexample :
  let m1 := typed_by ff_fwd (co_mol "fwd.ff") in
  let m2 := typed_by ff_rev (co_mol "rev.ff") in
  let s := system_of [m1; m2] in
  (exists b1 b2, m_bond m1 = [b1] /\ m_bond m2 = [b2] /\
     (b_iatp b1, b_jatp b1) = (Some "CA", Some "OH")%string /\
     (b_iatp b2, b_jatp b2) = (Some "OH", Some "CA")%string /\
     (b_iatp b1, b_jatp b1) = (b_jatp b2, b_iatp b2)) /\
  type_table cat_bond s = [(cat_bond, 0, 0); (cat_bond, 1, 0)]%nat /\
  ityp_of cat_bond s (cat_bond, 0, 0)%nat = 0 /\
  ityp_of cat_bond s (cat_bond, 1, 0)%nat = 1.
Proof.
  cbv zeta. split; [eexists _, _|]; repeat split; vm_compute; reflexivity.
Qed.

(* ===================================================================== *)
(** * Further properties *)
(* ===================================================================== *)



(** ** Loading a parameter file *)

Lemma bind_Raise_inv {A B} (c : py A) (k : A -> py B) (out : list line)
    (e : pyexn) :
  bind c k = (out, Raise e) ->
  c = (out, Raise e) \/
  exists o1 a o2, c = (o1, Ok a) /\ k a = (o2, Raise e) /\ out = o1 ++ o2.
Proof.
  destruct c as [o1 [a| |e']]; cbn.
  - destruct (k a) as [o2 r] eqn:E. intros [= <- ->]. right. eauto 6.
  - discriminate.
  - intros [= <- <-]. now left.
Qed.

Lemma py_index_0 {A} (l : list A) :
  py_index l 0 = match l with
                 | [] => ([], Raise IndexError)
                 | x :: _ => ([], Ok x)
                 end.
Proof.
  unfold py_index. destruct l as [|x l]; [reflexivity|].
  cbn [length]. replace (0 <? 0) with false by reflexivity.
  replace (Z.of_nat (S (length l)) <=? 0) with false
    by (symmetry; apply Z.leb_gt; lia).
  reflexivity.
Qed.

(** [seteqval] returns the first parameter of a 'harm' or 'cons' record,
    raises on an empty list and exits on any other kind. *)
Lemma seteqval_cases (unknown : string -> line) (pot : string)
    (par : list float) :
  seteqval unknown pot par
  = if known_pot pot then
      match par with
      | [] => ([], Raise IndexError)
      | e :: _ => ([], Ok e)
      end
    else ([unknown pot], SysExit).
Proof.
  unfold seteqval, known_pot.
  destruct (String.eqb pot "harm"); [apply py_index_0|].
  destruct (String.eqb pot "cons"); [apply py_index_0|]. reflexivity.
Qed.

Lemma atom_init_cases (name : string) (m : float) :
  atom_init name m
  = if PrimFloat.eqb m 0 then
      let* w := atomic_weight name in
      ret (set_m w (placed_atom name 0 0 0 0))
    else ([], Ok (placed_atom name m 0 0 0)).
Proof.
  unfold atom_init. destruct (PrimFloat.eqb m 0); [|reflexivity].
  destruct (atomic_weight name) as [o [w| |e]]; reflexivity.
Qed.

Lemma atomic_weight_runs (name : string) :
  exists o, (forall l, l ∈ o -> l = warn_unknown_weight name) /\
    ((exists w, atomic_weight name = (o, Ok w)) \/
     (name = ""%string /\ o = [] /\
      atomic_weight name = ([], Raise IndexError))).
Proof.
  unfold atomic_weight.
  destruct (atomic_wt !! prefix2 name) as [w|].
  { exists []. split; [intros l Hl; now apply elem_of_nil in Hl|]. left. eauto. }
  destruct name as [|c rest].
  { exists []. split; [intros l Hl; now apply elem_of_nil in Hl|]. now right. }
  cbn [first_char bind ret].
  destruct (atomic_wt !! String c "") as [w|].
  - exists []. split; [intros l Hl; now apply elem_of_nil in Hl|]. left. eauto.
  - exists [warn_unknown_weight (String c rest)]. split.
    + intros l Hl. now apply list_elem_of_singleton in Hl.
    + left. eauto.
Qed.

Lemma atom_init_run (name : string) (m : float) (o : list line)
    (r : result atom) :
  atom_init name m = (o, r) ->
  (forall l, l ∈ o -> is_weight_line l = true) /\
  r <> SysExit /\
  (forall e, r = Raise e -> e = IndexError) /\
  (forall a, r = Ok a -> row_mass name m (at_m a)).
Proof.
  rewrite atom_init_cases. unfold row_mass.
  destruct (PrimFloat.eqb m 0).
  - destruct (atomic_weight_runs name) as (o' & Ho' & [[w Hw]|(-> & -> & Hw)]);
      rewrite Hw; cbn; intros [= <- <-].
    + split; [|split; [|split]]; try (intros; discriminate).
      * intros l Hl. rewrite app_nil_r in Hl. now rewrite (Ho' l Hl).
      * now intros a [= <-].
    + split; [|split; [|split]]; try (intros; discriminate).
      * intros l Hl. now apply elem_of_nil in Hl.
      * now intros e [= <-].
  - intros [= <- <-]. split; [|split; [|split]]; try (intros; discriminate).
    + intros l Hl. now apply elem_of_nil in Hl.
    + now intros a [= <-].
Qed.

Lemma ff_rows_run (rows : list ff_row)
    (ats : list ff_atom) bds ans (dhs dis : list ff_dihed)
    (out : list line) r :
  ff_rows rows (ats, bds, ans, dhs, dis) = (out, r) ->
  (forall l, l ∈ out -> is_weight_line l = true) /\
  r <> SysExit /\
  (forall e, r = Raise e -> e = IndexError) /\
  (forall ats' bds' ans' dhs' dis',
     r = Ok (ats', bds', ans', dhs', dis') ->
     (exists new, ats' = ats ++ new /\ Forall2 atom_of_row (atom_rows rows) new) /\
     bds' = bds ++ bond_rows rows /\ ans' = ans ++ angle_rows rows /\
     dhs' = dhs ++ dihed_rows rows /\ dis' = dis ++ dimpr_rows rows).
Proof.
  revert ats bds ans dhs dis out r.
  induction rows as [|row rows IH]; intros ats bds ans dhs dis out r.
  - cbn. intros [= <- <-]. split; [|split; [|split]]; try (intros; discriminate).
    + intros l Hl. now apply elem_of_nil in Hl.
    + intros ? ? ? ? ? [= <- <- <- <- <-]. rewrite !app_nil_r.
      repeat split; auto. exists []. rewrite app_nil_r. split; [auto|constructor].
  - cbn [ff_rows]. destruct row as [name attp m q pot par| | | |].
    + destruct (atom_init name m) as [o1 r1] eqn:E1.
      destruct (atom_init_run _ _ _ _ E1) as (Ho1 & Hx1 & He1 & Hm1).
      destruct r1 as [a| |e]; cbn.
      * destruct (ff_rows rows _) as [o2 r2] eqn:E2.
        intros [= <- <-].
        destruct (IH _ _ _ _ _ _ _ E2) as (Ho2 & Hx2 & He2 & Hok).
        split; [|split; [|split]]; auto.
        -- intros l Hl. apply elem_of_app in Hl as [Hl|Hl]; auto.
        -- intros ? ? ? ? ? ->.
           destruct (Hok _ _ _ _ _ eq_refl) as ((new & -> & Hnew) & -> & -> & -> & ->).
           repeat split; auto.
           exists (mk_ff_atom name attp (at_m a) q pot par :: new).
           rewrite <- app_assoc. split; [reflexivity|].
           change (atom_rows (row_atom name attp m q pot par :: rows))
             with ((name, attp, m, q, pot, par) :: atom_rows rows).
           constructor; [|exact Hnew]. cbn. repeat split. now apply Hm1.
      * now destruct Hx1.
      * intros [= <- <-]. split; [|split; [|split]]; try (intros; discriminate).
        -- exact Ho1.
        -- intros e0 [= <-]. now apply He1.
    + intros Hrun. destruct (IH _ _ _ _ _ _ _ Hrun) as (Ho2 & Hx2 & He2 & Hok).
      split; [|split; [|split]]; auto.
      intros ? ? ? ? ? ->.
      destruct (Hok _ _ _ _ _ eq_refl) as (Hat & -> & -> & -> & ->).
      rewrite <- app_assoc. repeat split; auto.
    + intros Hrun. destruct (IH _ _ _ _ _ _ _ Hrun) as (Ho2 & Hx2 & He2 & Hok).
      split; [|split; [|split]]; auto.
      intros ? ? ? ? ? ->.
      destruct (Hok _ _ _ _ _ eq_refl) as (Hat & -> & -> & -> & ->).
      rewrite <- app_assoc. repeat split; auto.
    + intros Hrun. destruct (IH _ _ _ _ _ _ _ Hrun) as (Ho2 & Hx2 & He2 & Hok).
      split; [|split; [|split]]; auto.
      intros ? ? ? ? ? ->.
      destruct (Hok _ _ _ _ _ eq_refl) as (Hat & -> & -> & -> & ->).
      rewrite <- app_assoc. repeat split; auto.
    + intros Hrun. destruct (IH _ _ _ _ _ _ _ Hrun) as (Ho2 & Hx2 & He2 & Hok).
      split; [|split; [|split]]; auto.
      intros ? ? ? ? ? ->.
      destruct (Hok _ _ _ _ _ eq_refl) as (Hat & -> & -> & -> & ->).
      rewrite <- app_assoc. repeat split; auto.
Qed.

Lemma bonds_seteqval_run (bds : list (string * string * string * list float))
    (out : list line) (r : result (list ff_bond)) :
  bonds_seteqval bds = (out, r) ->
  (forall bs, r = Ok bs -> out = [] /\ Forall2 bond_of_row bds bs) /\
  (r = SysExit ->
   exists iatp jatp pot par,
     (iatp, jatp, pot, par) ∈ bds /\ known_pot pot = false /\
     out = [err_bond_pot pot]) /\
  (forall e, r = Raise e ->
   e = IndexError /\ out = [] /\
   exists iatp jatp pot, (iatp, jatp, pot, []) ∈ bds).
Proof.
  revert out r. induction bds as [|[[[iatp jatp] pot] par] bds IH]; intros out r.
  - cbn. intros [= <- <-]. split; [|split]; try (intros; discriminate).
    intros bs [= <-]. split; [reflexivity|constructor].
  - cbn [bonds_seteqval]. rewrite seteqval_cases.
    destruct (known_pot pot) eqn:Hk.
    + destruct par as [|e par].
      * cbn. intros [= <- <-]. split; [|split]; try (intros; discriminate).
        intros e [= <-]. repeat split. exists iatp, jatp, pot. now left.
      * cbn. destruct (bonds_seteqval bds) as [o2 r2] eqn:E2.
        destruct (IH _ _ eq_refl) as (Hok & Hx & He).
        destruct r2 as [bs| |e']; cbn; intros [= <- <-].
        -- split; [|split]; try (intros; discriminate).
           intros ? [= <-]. destruct (Hok _ eq_refl) as [-> Hf].
           split; [reflexivity|]. constructor; [|exact Hf].
           repeat split. exact Hk.
        -- split; [|split]; try (intros; discriminate). intros _.
           destruct (Hx eq_refl) as (i' & j' & p' & par' & Hin & Hk' & ->).
           exists i', j', p', par'. split; [now right|auto].
        -- split; [|split]; try (intros; discriminate). intros ? [= <-].
           destruct (He _ eq_refl) as (-> & -> & i' & j' & p' & Hin).
           repeat split. exists i', j', p'. now right.
    + cbn. intros [= <- <-]. split; [|split]; try (intros; discriminate). intros _.
      exists iatp, jatp, pot, par. split; [now left|auto].
Qed.

Lemma angles_seteqval_run
    (ans : list (string * string * string * string * list float))
    (out : list line) (r : result (list ff_angle)) :
  angles_seteqval ans = (out, r) ->
  (forall bs, r = Ok bs -> out = [] /\ Forall2 angle_of_row ans bs) /\
  (r = SysExit ->
   exists iatp jatp katp pot par,
     (iatp, jatp, katp, pot, par) ∈ ans /\ known_pot pot = false /\
     out = [err_angle_pot pot]) /\
  (forall e, r = Raise e ->
   e = IndexError /\ out = [] /\
   exists iatp jatp katp pot, (iatp, jatp, katp, pot, []) ∈ ans).
Proof.
  revert out r.
  induction ans as [|[[[[iatp jatp] katp] pot] par] ans IH]; intros out r.
  - cbn. intros [= <- <-]. split; [|split]; try (intros; discriminate).
    intros bs [= <-]. split; [reflexivity|constructor].
  - cbn [angles_seteqval]. rewrite seteqval_cases.
    destruct (known_pot pot) eqn:Hk.
    + destruct par as [|e par].
      * cbn. intros [= <- <-]. split; [|split]; try (intros; discriminate).
        intros e [= <-]. repeat split. exists iatp, jatp, katp, pot. now left.
      * cbn. destruct (angles_seteqval ans) as [o2 r2] eqn:E2.
        destruct (IH _ _ eq_refl) as (Hok & Hx & He).
        destruct r2 as [bs| |e']; cbn; intros [= <- <-].
        -- split; [|split]; try (intros; discriminate).
           intros ? [= <-]. destruct (Hok _ eq_refl) as [-> Hf].
           split; [reflexivity|]. constructor; [|exact Hf].
           repeat split. exact Hk.
        -- split; [|split]; try (intros; discriminate). intros _.
           destruct (Hx eq_refl) as (i' & j' & k' & p' & par' & Hin & Hk' & ->).
           exists i', j', k', p', par'. split; [now right|auto].
        -- split; [|split]; try (intros; discriminate). intros ? [= <-].
           destruct (He _ eq_refl) as (-> & -> & i' & j' & k' & p' & Hin).
           repeat split. exists i', j', k', p'. now right.
    + cbn. intros [= <- <-]. split; [|split]; try (intros; discriminate). intros _.
      exists iatp, jatp, katp, pot, par. split; [now left|auto].
Qed.

(** X2: a parameter file that loads keeps its records, section by section
    and in the order of the file.  Atom records carry the mass of their
    row, or the table weight of their name when the row gives 0.0; every
    bond and angle record is of kind 'harm' or 'cons' and has its first
    parameter as equilibrium value; and nothing but unknown-weight
    warnings is printed. *)
Theorem forcefield_loaded (rows : list ff_row) (out : list line)
    (ff : forcefield) :
  forcefield_init rows = (out, Ok ff) ->
  Forall2 atom_of_row (atom_rows rows) (ff_atom_list ff) /\
  Forall2 bond_of_row (bond_rows rows) (ff_bond_list ff) /\
  Forall2 angle_of_row (angle_rows rows) (ff_angle_list ff) /\
  ff_dihed_list ff = dihed_rows rows /\
  ff_dimpr_list ff = dimpr_rows rows /\
  (forall l, l ∈ out -> is_weight_line l = true).
Proof.
  unfold forcefield_init. intros Hrun.
  apply bind_Ok_inv in Hrun as (o1 & [[[[ats bds] ans] dhs] dis] & o2 & H1 & Hrun & ->).
  apply bind_Ok_inv in Hrun as (o3 & bds' & o4 & H2 & Hrun & ->).
  apply bind_Ok_inv in Hrun as (o5 & ans' & o6 & H3 & Hrun & ->).
  cbn in Hrun. injection Hrun as <- <-. cbn [ff_atom_list ff_bond_list
    ff_angle_list ff_dihed_list ff_dimpr_list].
  destruct (ff_rows_run _ _ _ _ _ _ _ _ H1) as (Ho1 & _ & _ & Hok).
  destruct (Hok _ _ _ _ _ eq_refl) as ((new & -> & Hnew) & -> & -> & -> & ->).
  destruct (bonds_seteqval_run _ _ _ H2) as (Hb & _).
  destruct (Hb _ eq_refl) as [-> Hbs].
  destruct (angles_seteqval_run _ _ _ H3) as (Ha & _).
  destruct (Ha _ eq_refl) as [-> Has].
  cbn [app] in *. repeat split; auto.
  intros l Hl. rewrite !app_nil_r in Hl. auto.
Qed.

(** X3: a parameter file fails to load in two ways only.  It ends in
    [sys.exit(1)] exactly after the error line for a bond row, or else an
    angle row, whose kind is neither 'harm' nor 'cons'; and the one
    exception it can raise is [IndexError].  Atom, dihedral and improper
    rows never make it exit. *)
Theorem forcefield_failures (rows : list ff_row) (out : list line)
    (r : result forcefield) :
  forcefield_init rows = (out, r) ->
  (r = SysExit ->
   exists pre pot, known_pot pot = false /\
     (forall l, l ∈ pre -> is_weight_line l = true) /\
     ((out = pre ++ [err_bond_pot pot] /\
       exists iatp jatp par, (iatp, jatp, pot, par) ∈ bond_rows rows) \/
      (out = pre ++ [err_angle_pot pot] /\
       Forall (fun row => known_pot row.1.2 = true) (bond_rows rows) /\
       exists iatp jatp katp par,
         (iatp, jatp, katp, pot, par) ∈ angle_rows rows))) /\
  (forall e, r = Raise e -> e = IndexError).
Proof.
  unfold forcefield_init. intros Hrun. split.
  - intros ->.
    apply bind_SysExit_inv in Hrun as [Hrun|(o1 & [[[[ats bds] ans] dhs] dis] & o2 & H1 & Hrun & ->)].
    { now destruct (ff_rows_run _ _ _ _ _ _ _ _ Hrun) as (_ & Hx & _). }
    destruct (ff_rows_run _ _ _ _ _ _ _ _ H1) as (Ho1 & _ & _ & Hok).
    destruct (Hok _ _ _ _ _ eq_refl) as (_ & -> & -> & _).
    cbn [app] in *.
    apply bind_SysExit_inv in Hrun as [Hrun|(o3 & bds' & o4 & H2 & Hrun & ->)].
    { destruct (bonds_seteqval_run _ _ _ Hrun) as (_ & Hx & _).
      destruct (Hx eq_refl) as (i & j & pot & par & Hin & Hk & ->).
      exists o1, pot. split; [exact Hk|]. split; [exact Ho1|]. left.
      split; [reflexivity|]. eauto. }
    destruct (bonds_seteqval_run _ _ _ H2) as (Hb & _).
    destruct (Hb _ eq_refl) as [-> Hbs].
    apply bind_SysExit_inv in Hrun as [Hrun|(o5 & ans' & o6 & H3 & Hrun & ->)];
      [|discriminate].
    destruct (angles_seteqval_run _ _ _ Hrun) as (_ & Hx & _).
    destruct (Hx eq_refl) as (i & j & k & pot & par & Hin & Hk & ->).
    exists o1, pot. split; [exact Hk|]. split; [exact Ho1|]. right.
    split; [reflexivity|]. split; [|eauto].
    clear -Hbs. induction Hbs as [|row b rows' bs (-> & Hk & _) _ IH];
      constructor; auto.
  - intros e ->.
    apply bind_Raise_inv in Hrun as [Hrun|(o1 & [[[[ats bds] ans] dhs] dis] & o2 & H1 & Hrun & ->)].
    { destruct (ff_rows_run _ _ _ _ _ _ _ _ Hrun) as (_ & _ & He & _). auto. }
    apply bind_Raise_inv in Hrun as [Hrun|(o3 & bds' & o4 & H2 & Hrun & ->)].
    { destruct (bonds_seteqval_run _ _ _ Hrun) as (_ & _ & He).
      now destruct (He _ eq_refl). }
    apply bind_Raise_inv in Hrun as [Hrun|(o5 & ans' & o6 & H3 & Hrun & ->)];
      [|discriminate].
    destruct (angles_seteqval_run _ _ _ Hrun) as (_ & _ & He).
    now destruct (He _ eq_refl).
Qed.

(** ** More on connectivity *)

Lemma py_index_nat {A} (l : list A) (i : nat) :
  py_index l (Z.of_nat i)
  = match l !! i with
    | Some a => ([], Ok a)
    | None => ([], Raise IndexError)
    end.
Proof.
  unfold py_index. cbv zeta.
  destruct (Z.ltb_spec (Z.of_nat i) 0) as [Hneg|_]; [lia|].
  destruct (Z.ltb_spec (Z.of_nat i) 0) as [Hneg|_]; [lia|]. cbn [orb].
  rewrite Nat2Z.id.
  destruct (Z.leb_spec (Z.of_nat (length l)) (Z.of_nat i)) as [Hle|Hlt].
  - rewrite lookup_ge_None_2 by lia. reflexivity.
  - now destruct (l !! i).
Qed.

Lemma connectivity_atom_spec (ffatoms : list ff_atom) (found : bool)
    (a : atom) :
  let ms := List.filter (fun r => String.eqb (at_name a) (fa_name r)) ffatoms in
  connectivity_atom ffatoms found a
  = (match last ms with Some r => set_type (fa_type r) a | None => a end,
     found || nonempty ms).
Proof.
  revert found a. induction ffatoms as [|r rest IH]; intros found a; cbn.
  - now rewrite orb_false_r.
  - destruct (String.eqb (at_name a) (fa_name r)) eqn:E; [|apply IH].
    rewrite (IH true (set_type (fa_type r) a)). cbn [at_name set_type].
    rewrite last_cons_typed, orb_true_r. f_equal; now destruct (last _).
Qed.

Lemma connectivity_atoms_spec (molname : string) (ff : forcefield)
    (atoms : list atom) (error : bool) :
  connectivity_atoms molname (ff_atom_list ff) atoms error
  = (map (fun a => err_no_atom molname (at_name a)) (unmatched_atoms ff atoms),
     Ok (map (label_atom ff) atoms,
         error || nonempty (unmatched_atoms ff atoms))).
Proof.
  revert error. induction atoms as [|a rest IH]; intros error.
  - cbn. now rewrite orb_false_r.
  - cbn [connectivity_atoms]. rewrite connectivity_atom_spec.
    fold (atom_matching ff a). rewrite IH.
    unfold unmatched_atoms. cbn [List.filter map].
    fold (label_atom ff a).
    destruct (nonempty (atom_matching ff a)); cbn.
    + now rewrite orb_false_r, app_nil_r.
    + cbn. now rewrite ?orb_true_r, ?app_nil_r.
Qed.

Lemma label_atom_matching (ff : forcefield) (a : atom) :
  atom_matching ff (label_atom ff a) = atom_matching ff a.
Proof. unfold label_atom. now destruct (last _). Qed.

Lemma label_atom_type (ff : forcefield) (a : atom) :
  atom_matching ff a <> [] ->
  exists r, last (atom_matching ff a) = Some r /\
            at_type (label_atom ff a) = Some (fa_type r).
Proof.
  unfold label_atom. intros Hne.
  destruct (last (atom_matching ff a)) as [r|] eqn:E; [eauto|].
  now apply last_None in E.
Qed.

Lemma unmatched_atoms_nil (ff : forcefield) (atoms : list atom) :
  unmatched_atoms ff atoms = [] <->
  forall a, a ∈ atoms -> atom_matching ff a <> [].
Proof.
  unfold unmatched_atoms. induction atoms as [|a rest IH]; cbn.
  - split; [|reflexivity]. intros _ a Ha. now apply elem_of_nil in Ha.
  - destruct (atom_matching ff a) eqn:E; cbn.
    + split; [discriminate|]. intros Hall. exfalso.
      apply (Hall a); [left|exact E].
    + rewrite IH. split.
      * intros Hall x Hx. apply elem_of_cons in Hx as [->|Hx]; [|auto].
        now rewrite E.
      * intros Hall x Hx. apply Hall. now right.
Qed.

Section ConnectivityMore.
Context `{Geometry}.

Lemma connectivity_row_spec (ff : forcefield) (box : option cell)
    (atoms : list atom) (i : nat) (js : list nat) (out : list line)
    (r : result (list bond)) :
  connectivity_row ff box atoms i js = (out, r) ->
  out = [] /\ r <> SysExit /\
  forall bs, r = Ok bs -> bs = flat_map (pair_bonds ff box atoms i) js.
Proof.
  revert out r. induction js as [|j rest IH]; intros out r.
  - cbn. intros [= <- <-]. repeat split; [discriminate|]. now intros bs [= <-].
  - cbn [connectivity_row flat_map]. unfold pair_bonds at 1.
    rewrite !py_index_nat.
    destruct (atoms !! i) as [ai|]; cbn;
      [|intros [= <- <-]; repeat split; intros; discriminate].
    destruct (atoms !! j) as [aj|]; cbn;
      [|intros [= <- <-]; repeat split; intros; discriminate].
    destruct (dist2atoms ai aj box) as [e|d]; cbn;
      [intros [= <- <-]; repeat split; intros; discriminate|].
    destruct (at_type ai) as [ti|]; cbn;
      [|intros [= <- <-]; repeat split; intros; discriminate].
    destruct (at_type aj) as [tj|]; cbn;
      [|intros [= <- <-]; repeat split; intros; discriminate].
    destruct (connectivity_row ff box atoms i rest) as [o2 r2] eqn:E2.
    destruct (IH _ _ eq_refl) as (-> & Hx & Hok).
    destruct r2 as [more| |e]; cbn; intros [= <- <-].
    + repeat split; [discriminate|]. intros bs [= <-].
      now rewrite (Hok _ eq_refl).
    + now destruct Hx.
    + repeat split; intros; discriminate.
Qed.

Lemma connectivity_rows_spec (ff : forcefield) (box : option cell)
    (atoms : list atom) (natom : nat) (idx : list nat) (out : list line)
    (r : result (list bond)) :
  connectivity_rows ff box atoms natom idx = (out, r) ->
  out = [] /\ r <> SysExit /\
  forall bs, r = Ok bs ->
    bs = flat_map (fun i => flat_map (pair_bonds ff box atoms i)
                              (seq (i + 1) (natom - (i + 1)))) idx.
Proof.
  revert out r. induction idx as [|i rest IH]; intros out r.
  - cbn. intros [= <- <-]. repeat split; [discriminate|]. now intros bs [= <-].
  - cbn [connectivity_rows flat_map].
    destruct (connectivity_row ff box atoms i _) as [o1 r1] eqn:E1.
    destruct (connectivity_row_spec _ _ _ _ _ _ _ E1) as (-> & Hx1 & Hok1).
    destruct r1 as [new| |e]; cbn.
    + destruct (connectivity_rows ff box atoms natom rest) as [o2 r2] eqn:E2.
      destruct (IH _ _ eq_refl) as (-> & Hx2 & Hok2).
      destruct r2 as [more| |e]; cbn; intros [= <- <-].
      * repeat split; [discriminate|]. intros bs [= <-].
        now rewrite (Hok1 _ eq_refl), (Hok2 _ eq_refl).
      * now destruct Hx2.
      * repeat split; intros; discriminate.
    + now destruct Hx1.
    + intros [= <- <-]. repeat split; intros; discriminate.
Qed.

(** A run of [connectivity], stage by stage. *)
Lemma connectivity_run (ff : forcefield) (box : option cell) (self : mol)
    (out : list line) (r : result mol) :
  connectivity ff box self = (out, r) ->
  let miss := unmatched_atoms ff (m_atom self) in
  let atoms := map (label_atom ff) (m_atom self) in
  out = map (fun a => err_no_atom (m_name self) (at_name a)) miss /\
  (r = SysExit <-> miss <> []) /\
  forall self', r = Ok self' ->
    m_atom self' = atoms /\
    m_bond self'
    = m_bond self ++
      flat_map (fun i => flat_map (pair_bonds ff box atoms i)
                           (seq (i + 1) (length atoms - (i + 1))))
        (seq 0 (length atoms - 1)) /\
    m_name self' = m_name self /\ m_ff self' = m_ff self /\
    m_angle self' = m_angle self /\ m_dihed self' = m_dihed self /\
    m_dimpr self' = m_dimpr self /\ m_m self' = m_m self.
Proof.
  intros Hrun miss atoms. unfold connectivity in Hrun.
  rewrite connectivity_atoms_spec in Hrun. cbn [bind orb] in Hrun.
  fold miss in Hrun. fold atoms in Hrun.
  destruct miss as [|a0 miss'] eqn:Emiss.
  - cbn [nonempty length Nat.eqb negb map app] in Hrun.
    destruct (connectivity_rows ff box atoms (length atoms) _) as [o2 r2] eqn:E2.
    destruct (connectivity_rows_spec _ _ _ _ _ _ _ E2) as (-> & Hx & Hok).
    destruct r2 as [new| |e]; cbn in Hrun; injection Hrun as <- <-.
    + split; [reflexivity|]. split; [split; [discriminate|congruence]|].
      intros self' [= <-]. cbn. rewrite (Hok _ eq_refl). repeat split.
    + now destruct Hx.
    + split; [reflexivity|]. split; [split; [discriminate|congruence]|].
      intros; discriminate.
  - cbn in Hrun. injection Hrun as <- <-. rewrite app_nil_r.
    split; [reflexivity|]. split; [split; [discriminate|reflexivity]|].
    intros; discriminate.
Qed.
End ConnectivityMore.

Lemma connectivity_pair_spec (i j : Z) (bdname : string) (r : float)
    (ffbonds : list ff_bond) :
  connectivity_pair i j bdname r ffbonds
  = map (fun _ => bond_init i j)
      (List.filter (fun rec => name_match bond_fwd bond_rev bdname rec
                               && bond_checkval (fb_eqval rec) r) ffbonds).
Proof.
  induction ffbonds as [|rec rest IH]; [reflexivity|].
  cbn [connectivity_pair List.filter]. rewrite IH.
  unfold name_match, bond_fwd, bond_rev.
  destruct (_ || _); cbn; [|reflexivity].
  now destruct (bond_checkval _ _).
Qed.

Lemma ordered_app {B} (R : B -> B -> Prop) (l1 l2 : list B) :
  ordered R l1 -> ordered R l2 ->
  (forall x y, x ∈ l1 -> y ∈ l2 -> R x y) ->
  ordered R (l1 ++ l2).
Proof.
  intros H1 H2 Hc p q x y Hpq Hp Hq.
  destruct (decide (q < length l1)%nat) as [Hq1|Hq1].
  - rewrite lookup_app_l in Hp, Hq by lia. eauto.
  - rewrite lookup_app_r in Hq by lia.
    destruct (decide (p < length l1)%nat) as [Hp1|Hp1].
    + rewrite lookup_app_l in Hp by lia.
      apply Hc; eapply list_elem_of_lookup_2; eauto.
    + rewrite lookup_app_r in Hp by lia.
      apply (H2 (p - length l1)%nat (q - length l1)%nat); auto. lia.
Qed.

Lemma ordered_nil {B} (R : B -> B -> Prop) : ordered R [].
Proof. intros p q x y _ Hp. now rewrite lookup_nil in Hp. Qed.

Lemma ordered_flat_map_seq {B} (R : B -> B -> Prop) (f : nat -> list B)
    (s len : nat) :
  (forall k, ordered R (f k)) ->
  (forall k k' x y, (k < k')%nat -> x ∈ f k -> y ∈ f k' -> R x y) ->
  ordered R (flat_map f (seq s len)).
Proof.
  intros Hin Hcross. revert s. induction len as [|len IH]; intros s; cbn.
  - apply ordered_nil.
  - apply ordered_app; [apply Hin | apply IH |].
    intros x y Hx Hy. apply list_elem_of_In, in_flat_map in Hy as (k & Hk & Hy).
    apply in_seq in Hk. apply (Hcross s k); [lia | exact Hx|].
    now apply list_elem_of_In.
Qed.

Lemma ordered_const {B} (R : B -> B -> Prop) (x : B) {C} (l : list C) :
  R x x -> ordered R (map (fun _ => x) l).
Proof.
  intros Hx p q a b _ Hp Hq.
  apply list_elem_of_lookup_2, list_elem_of_In, in_map_iff in Hp as (? & <- & _).
  apply list_elem_of_lookup_2, list_elem_of_In, in_map_iff in Hq as (? & <- & _).
  exact Hx.
Qed.

Lemma sum_support_seq (f : nat -> nat) (s len c0 : nat) :
  (forall c, (s <= c < s + len)%nat -> c <> c0 -> f c = 0%nat) ->
  sum_list_with f (seq s len)
  = if (s <=? c0)%nat && (c0 <? s + len)%nat then f c0 else 0%nat.
Proof.
  revert s. induction len as [|len IH]; intros s Hz.
  - cbn [seq sum_list_with].
    destruct (Nat.leb_spec s c0); [|reflexivity].
    destruct (Nat.ltb_spec c0 (s + 0)); [lia|reflexivity].
  - cbn [seq sum_list_with]. rewrite IH by (intros c Hc Hne; apply Hz; lia).
    destruct (Nat.eq_dec s c0) as [->|Hne].
    + replace (S c0 <=? c0)%nat with false by (symmetry; apply Nat.leb_gt; lia).
      replace (c0 <=? c0)%nat with true by (symmetry; apply Nat.leb_le; lia).
      replace (c0 <? c0 + S len)%nat with true
        by (symmetry; apply Nat.ltb_lt; lia).
      cbn. lia.
    + rewrite (Hz s) by lia.
      replace (s + S len)%nat with (S s + len)%nat by lia.
      destruct (Nat.leb_spec (S s) c0), (Nat.leb_spec s c0); try lia;
        reflexivity.
Qed.

Lemma filter_flat_map_length {A B} (P : B -> bool) (f : A -> list B)
    (l : list A) :
  length (List.filter P (flat_map f l))
  = sum_list_with (fun x => length (List.filter P (f x))) l.
Proof.
  induction l as [|x l IH]; [reflexivity|].
  cbn. now rewrite List.filter_app, length_app, IH.
Qed.

Lemma filter_none {B} (P : B -> bool) (l : list B) :
  (forall b, b ∈ l -> P b = false) -> List.filter P l = [].
Proof.
  induction l as [|x l IH]; intros Hall; [reflexivity|]. cbn.
  rewrite (Hall x) by left. apply IH. intros b Hb. apply Hall. now right.
Qed.

Lemma filter_all {B} (P : B -> bool) (l : list B) :
  (forall b, b ∈ l -> P b = true) -> List.filter P l = l.
Proof.
  induction l as [|x l IH]; intros Hall; [reflexivity|]. cbn.
  rewrite (Hall x) by left. f_equal. apply IH. intros b Hb. apply Hall.
  now right.
Qed.

Section ConnectivitySpec.
Context `{Geometry}.

Lemma elem_of_pair_bonds (ff : forcefield) (box : option cell)
    (atoms : list atom) (i j : nat) (b : bond) :
  b ∈ pair_bonds ff box atoms i j <->
  exists ai aj ti tj r rec,
    atoms !! i = Some ai /\ atoms !! j = Some aj /\
    at_type ai = Some ti /\ at_type aj = Some tj /\
    dist2atoms ai aj box = inr r /\
    rec ∈ ff_bond_list ff /\
    name_match bond_fwd bond_rev (dash ti tj) rec = true /\
    bond_checkval (fb_eqval rec) r = true /\
    b = bond_init (Z.of_nat i) (Z.of_nat j).
Proof.
  unfold pair_bonds. split.
  - destruct (atoms !! i) as [ai|] eqn:Ei;
      [|intros Hb; now apply elem_of_nil in Hb].
    destruct (atoms !! j) as [aj|] eqn:Ej;
      [|intros Hb; now apply elem_of_nil in Hb].
    destruct (dist2atoms ai aj box) as [e|r] eqn:Er;
      [intros Hb; now apply elem_of_nil in Hb|].
    destruct (at_type ai) as [ti|] eqn:Eti;
      [|intros Hb; now apply elem_of_nil in Hb].
    destruct (at_type aj) as [tj|] eqn:Etj;
      [|intros Hb; now apply elem_of_nil in Hb].
    rewrite connectivity_pair_spec. intros Hb.
    apply list_elem_of_In, in_map_iff in Hb as (rec & <- & Hrec).
    apply filter_In in Hrec as [Hrec Hok].
    apply andb_true_iff in Hok as [Hm Hc].
    exists ai, aj, ti, tj, r, rec. repeat split; auto.
    now apply list_elem_of_In.
  - intros (ai & aj & ti & tj & r & rec & -> & -> & Hti & Htj & -> & Hrec
            & Hm & Hc & ->).
    rewrite Hti, Htj, connectivity_pair_spec.
    apply list_elem_of_In, in_map_iff. exists rec. split; [reflexivity|].
    apply filter_In. split; [now apply list_elem_of_In|].
    now rewrite Hm, Hc.
Qed.

Lemma pair_bonds_range (ff : forcefield) (box : option cell)
    (atoms : list atom) (i j : nat) (b : bond) :
  b ∈ pair_bonds ff box atoms i j ->
  b = bond_init (Z.of_nat i) (Z.of_nat j) /\
  (i < length atoms)%nat /\ (j < length atoms)%nat.
Proof.
  intros Hb. apply elem_of_pair_bonds in Hb
    as (ai & aj & ? & ? & ? & ? & Hi & Hj & _ & _ & _ & _ & _ & _ & ->).
  split; [reflexivity|]. split; eapply lookup_lt_Some; eauto.
Qed.


(** X6: the bonds [connectivity] appends come in the order of the pairs,
    by first atom and then by second atom; a pair with several records
    within the tolerance is appended once for each of them, side by side. *)
Theorem connectivity_sorted (ff : forcefield) (box : option cell)
    (self : mol) (out : list line) (self' : mol) :
  connectivity ff box self = (out, Ok self') ->
  exists new, m_bond self' = m_bond self ++ new /\
    ordered pair_le new /\
    forall i j ai aj ti tj r,
      (i < j)%nat ->
      m_atom self' !! i = Some ai -> m_atom self' !! j = Some aj ->
      at_type ai = Some ti -> at_type aj = Some tj ->
      dist2atoms ai aj box = inr r ->
      length (List.filter (fun b => (b_i b =? Z.of_nat i)
                                    && (b_j b =? Z.of_nat j)) new)
      = length (List.filter
                  (fun rec => name_match bond_fwd bond_rev (dash ti tj) rec
                              && bond_checkval (fb_eqval rec) r)
                  (ff_bond_list ff)).
Proof.
  intros Hrun.
  destruct (connectivity_run _ _ _ _ _ Hrun) as (_ & _ & Hok).
  destruct (Hok _ eq_refl) as (Hat & Hbd & _).
  eexists. split; [exact Hbd|]. rewrite Hat.
  set (atoms := map (label_atom ff) (m_atom self)).
  set (row := fun i => flat_map (pair_bonds ff box atoms i)
                         (seq (i + 1) (length atoms - (i + 1)))).
  assert (Hrow : forall i b, b ∈ row i ->
            exists j, (i < j)%nat /\ b ∈ pair_bonds ff box atoms i j).
  { intros i b Hb. apply list_elem_of_In, in_flat_map in Hb as (j & Hj & Hb).
    apply in_seq in Hj. exists j. split; [lia|now apply list_elem_of_In]. }
  split.
  - apply ordered_flat_map_seq.
    + intros i. apply ordered_flat_map_seq.
      * intros j. unfold pair_bonds.
        destruct (atoms !! i) as [ai|]; [|apply ordered_nil].
        destruct (atoms !! j) as [aj|]; [|apply ordered_nil].
        destruct (dist2atoms ai aj box) as [e|r]; [apply ordered_nil|].
        destruct (at_type ai) as [ti|]; [|apply ordered_nil].
        destruct (at_type aj) as [tj|]; [|apply ordered_nil].
        rewrite connectivity_pair_spec. apply ordered_const.
        right. split; [reflexivity|]. apply Z.le_refl.
      * intros j j' x y Hjj Hx Hy.
        apply pair_bonds_range in Hx as (-> & _), Hy as (-> & _).
        right. cbn. lia.
    + intros i i' x y Hii Hx Hy.
      apply Hrow in Hx as (j & _ & Hx), Hy as (j' & _ & Hy).
      apply pair_bonds_range in Hx as (-> & _), Hy as (-> & _).
      left. cbn. lia.
  - intros i j ai aj ti tj r Hij Hi Hj Hti Htj Hr.
    pose proof (lookup_lt_Some _ _ _ Hj) as Hjn.
    fold row. rewrite filter_flat_map_length.
    rewrite (sum_support_seq _ 0 _ i).
    2:{ intros i' _ Hne. rewrite filter_none; [reflexivity|].
        intros b Hb. apply Hrow in Hb as (j' & _ & Hb).
        apply pair_bonds_range in Hb as (-> & _). cbn.
        apply andb_false_iff. left. apply Z.eqb_neq. lia. }
    replace ((0 <=? i)%nat && (i <? 0 + (length atoms - 1))%nat) with true
      by (symmetry; apply andb_true_iff; split;
          [apply Nat.leb_le | apply Nat.ltb_lt]; lia).
    unfold row. rewrite filter_flat_map_length.
    rewrite (sum_support_seq _ _ _ j).
    2:{ intros j' _ Hne. rewrite filter_none; [reflexivity|].
        intros b Hb. apply pair_bonds_range in Hb as (-> & _). cbn.
        apply andb_false_iff. right. apply Z.eqb_neq. lia. }
    replace ((i + 1 <=? j)%nat && (j <? i + 1 + (length atoms - (i + 1)))%nat)
      with true
      by (symmetry; apply andb_true_iff; split;
          [apply Nat.leb_le | apply Nat.ltb_lt]; lia).
    rewrite filter_all.
    2:{ intros b Hb. apply pair_bonds_range in Hb as (-> & _). cbn.
        now rewrite !Z.eqb_refl. }
    unfold pair_bonds. rewrite Hi, Hj, Hr, Hti, Htj, connectivity_pair_spec.
    apply length_map.
Qed.
End ConnectivitySpec.

Lemma unmatched_atoms_cons (ff : forcefield) (atoms : list atom) :
  unmatched_atoms ff atoms <> [] <->
  exists a, a ∈ atoms /\ atom_matching ff a = [].
Proof.
  split.
  - destruct (unmatched_atoms ff atoms) as [|a l] eqn:E; [congruence|].
    intros _. assert (Ha : In a (unmatched_atoms ff atoms))
      by (rewrite E; now left).
    apply filter_In in Ha as [Ha Hm]. exists a.
    split; [now apply list_elem_of_In|].
    destruct (atom_matching ff a); [reflexivity|discriminate].
  - intros (a & Ha & Hm) Hnil.
    apply (proj1 (unmatched_atoms_nil ff atoms) Hnil a Ha Hm).
Qed.

Lemma lookup_map {A B} (f : A -> B) (l : list A) (k : nat) :
  map f l !! k = f <$> (l !! k).
Proof.
  revert k. induction l as [|x l IH]; intros [|k]; cbn; auto.
Qed.

Lemma atom_type_nat (atoms : list atom) (i : nat) :
  atom_type atoms (Z.of_nat i)
  = match atoms !! i with
    | Some a => getattr (at_type a)
    | None => ([], Raise IndexError)
    end.
Proof.
  unfold atom_type. rewrite py_index_nat.
  destruct (atoms !! i) as [a|]; [|reflexivity].
  cbn. now destruct (getattr (at_type a)) as [o []].
Qed.

Lemma atoms_typed_label (ff : forcefield) (a : atom) :
  atom_matching ff a <> [] ->
  forall t, at_type (label_atom ff a) = Some t ->
  at_type (match last (atom_matching ff (label_atom ff a)) with
           | Some r => atom_typed r (label_atom ff a)
           | None => label_atom ff a
           end) = Some t.
Proof.
  intros Hne t Ht. rewrite label_atom_matching.
  destruct (label_atom_type ff a Hne) as (r & Hr & Hty).
  rewrite Hr. rewrite Hty in Ht. exact Ht.
Qed.

Section ConnectivityRuns.
Context `{Geometry}.


(** X7: typing after inference never misses a bond.  When [connectivity]
    has inferred all the bonds of a molecule and returned, the run of
    [setff] on the result (with its angles and dihedrals) does not end in
    [sys.exit(1)]: every atom and every inferred bond has a record. *)
Theorem connectivity_then_setff (ff : forcefield) (box box' : option cell)
    (self self1 : mol) (out1 out2 : list line) (r : result mol) :
  m_bond self = [] ->
  truthy (m_ff self) = true ->
  connectivity ff box self = (out1, Ok self1) ->
  setff ff box' (anglesdiheds self1) = (out2, r) ->
  r <> SysExit.
Proof.
  intros Hnb Hff Hconn Hset ->.
  destruct (connectivity_run _ _ _ _ _ Hconn) as (_ & Hx & Hok).
  destruct (Hok _ eq_refl) as (Hat & Hbd & _ & Hff1 & _).
  assert (Hall : forall a, a ∈ m_atom self -> atom_matching ff a <> []).
  { intros a Ha Hm. assert (Hne : unmatched_atoms ff (m_atom self) <> [])
      by (apply unmatched_atoms_cons; eauto).
    apply Hx in Hne. discriminate. }
  assert (Hff' : truthy (m_ff (anglesdiheds self1)) = true)
    by (cbn; now rewrite Hff1).
  destruct (setff_SysExit_inv ff box' _ out2 Hff' Hset)
    as [(a & Ha & Hm)|(bd & name & Hbdin & Hname & Hm)].
  - cbn [anglesdiheds m_atom] in Ha. rewrite Hat in Ha.
    apply list_elem_of_In, in_map_iff in Ha as (a0 & <- & Ha0).
    rewrite label_atom_matching in Hm.
    apply (Hall a0); [now apply list_elem_of_In|exact Hm].
  - cbn [anglesdiheds m_atom m_bond] in Hbdin, Hname.
    rewrite Hbd, Hnb in Hbdin. cbn [app] in Hbdin.
    apply list_elem_of_In, in_flat_map in Hbdin as (i & _ & Hbdin).
    apply in_flat_map in Hbdin as (j & _ & Hbdin).
    apply list_elem_of_In, elem_of_pair_bonds in Hbdin
      as (ai & aj & ti & tj & d & rec & Hi & Hj & Hti & Htj & _ & Hrec
          & Hmatch & _ & ->).
    assert (Htyped : forall k ak tk,
              map (label_atom ff) (m_atom self) !! k = Some ak ->
              at_type ak = Some tk ->
              atom_type (atoms_typed ff (m_atom self1)) (Z.of_nat k)
              = ([], Ok tk)).
    { intros k ak tk Hk Htk. rewrite atom_type_nat. unfold atoms_typed.
      rewrite Hat, !lookup_map. rewrite lookup_map in Hk.
      destruct (m_atom self !! k) as [a0|] eqn:E0; [|discriminate].
      cbn in Hk |- *. injection Hk as <-.
      rewrite (atoms_typed_label ff a0 (Hall a0 (list_elem_of_lookup_2 _ _ _ E0))
                 tk Htk).
      reflexivity. }
    unfold bond_name in Hname. cbn [bond_init b_i b_j] in Hname.
    rewrite (Htyped i ai ti Hi Hti), (Htyped j aj tj Hj Htj) in Hname.
    cbn in Hname. injection Hname as <-.
    assert (Hin : In rec (matching bond_fwd bond_rev (dash ti tj)
                            (ff_bond_list ff))).
    { apply filter_In. split; [now apply list_elem_of_In|exact Hmatch]. }
    rewrite Hm in Hin. destruct Hin.
Qed.
End ConnectivityRuns.

(** ** More on angles and dihedrals *)

Lemma neighbours_spec (i : Z) (bonds : list bond) :
  neighbours i bonds = map (other_end i) (List.filter (joins i) bonds).
Proof.
  induction bonds as [|b rest IH]; [reflexivity|].
  cbn [neighbours List.filter]. unfold joins at 1.
  destruct (i =? b_i b) eqn:E1; cbn [orb map].
  - change (other_end i b) with (if i =? b_i b then b_j b else b_i b).
    now rewrite E1, IH.
  - destruct (i =? b_j b) eqn:E2; cbn [map]; [|exact IH].
    change (other_end i b) with (if i =? b_i b then b_j b else b_i b).
    now rewrite E1, IH.
Qed.

Lemma before_cons {A} (x : A) (l : list A) (a b : A) :
  before (x :: l) a b <-> (a = x /\ b ∈ l) \/ before l a b.
Proof.
  unfold before. split.
  - intros (p & q & Hpq & Hp & Hq). destruct q as [|q]; [lia|].
    cbn in Hq. destruct p as [|p].
    + cbn in Hp. injection Hp as <-. left. split; [reflexivity|].
      eapply list_elem_of_lookup_2, Hq.
    + cbn in Hp. right. exists p, q. split; [lia|auto].
  - intros [[-> Hb]|(p & q & Hpq & Hp & Hq)].
    + apply list_elem_of_lookup_1 in Hb as [q Hq].
      exists 0%nat, (S q). split; [lia|auto].
    + exists (S p), (S q). split; [lia|auto].
Qed.

Lemma before_nil {A} (a b : A) : ~ before [] a b.
Proof. intros (p & q & _ & Hp & _). now rewrite lookup_nil in Hp. Qed.

Lemma map_seq_lookup {A B} `{Inhabited A} (g : A -> B) (l : list A) :
  map (fun m => g (l !!! m)) (seq 0 (length l)) = map g l.
Proof.
  induction l as [|x l IH]; [reflexivity|].
  cbn [length seq map]. f_equal.
  rewrite <- seq_shift, map_map. exact IH.
Qed.

Lemma flat_map_map {A B C} (f : B -> list C) (g : A -> B) (l : list A) :
  flat_map f (map g l) = flat_map (fun x => f (g x)) l.
Proof. induction l as [|x l IH]; [reflexivity|]. cbn. now rewrite IH. Qed.

(** The pairs that the double loop [for k in range(nb - 1): for l in
    range(k + 1, nb)] visits. *)
Lemma pairs_cons {A B} `{Inhabited A} (f : A -> A -> B) (x : A) (l : list A) :
  flat_map (fun k => map (fun m => f ((x :: l) !!! k) ((x :: l) !!! m))
                       (seq (k + 1) (length (x :: l) - (k + 1))))
    (seq 0 (length (x :: l) - 1))
  = map (f x) l ++
    flat_map (fun k => map (fun m => f (l !!! k) (l !!! m))
                         (seq (k + 1) (length l - (k + 1))))
      (seq 0 (length l - 1)).
Proof.
  cbn [length]. replace (S (length l) - 1)%nat with (length l) by lia.
  destruct (length l) as [|n] eqn:En.
  { destruct l; [reflexivity|discriminate]. }
  cbn [seq flat_map]. f_equal.
  - cbn [Nat.add]. replace (S (S n) - 1)%nat with (S n) by lia.
    rewrite <- seq_shift, map_map, <- En.
    apply (map_seq_lookup (f x) l).
  - replace (S n - 1)%nat with n by lia.
    rewrite <- seq_shift, flat_map_map.
    apply flat_map_ext. intros k.
    replace (S (S n) - (S k + 1))%nat with (S n - (k + 1))%nat by lia.
    replace (S k + 1)%nat with (S (k + 1)) by lia.
    rewrite <- seq_shift, map_map. reflexivity.
Qed.

Lemma elem_of_pairs {A B} `{Inhabited A} (f : A -> A -> B) (l : list A)
    (c : B) :
  c ∈ flat_map (fun k => map (fun m => f (l !!! k) (l !!! m))
                           (seq (k + 1) (length l - (k + 1))))
        (seq 0 (length l - 1))
  <-> exists a b, before l a b /\ c = f a b.
Proof.
  induction l as [|x l IH].
  - cbn. split; [intros Hc; now apply elem_of_nil in Hc|].
    intros (a & b & Hab & _). now apply before_nil in Hab.
  - rewrite pairs_cons, elem_of_app, IH. split.
    + intros [Hc|(a & b & Hab & ->)].
      * apply list_elem_of_In, in_map_iff in Hc as (b & <- & Hb).
        exists x, b. split; [|reflexivity]. apply before_cons. left.
        split; [reflexivity|now apply list_elem_of_In].
      * exists a, b. split; [|reflexivity]. apply before_cons. now right.
    + intros (a & b & Hab & ->). apply before_cons in Hab as [[-> Hb]|Hab].
      * left. apply list_elem_of_In, in_map_iff. exists b.
        split; [reflexivity|now apply list_elem_of_In].
      * right. eauto.
Qed.

Lemma before_map_filter {A B} (g : A -> B) (P : A -> bool) (l : list A)
    (a b : B) :
  before (map g (List.filter P l)) a b <->
  exists x y, before l x y /\ P x = true /\ P y = true /\
              a = g x /\ b = g y.
Proof.
  induction l as [|z l IH].
  - cbn. split; [intros Hb; now apply before_nil in Hb|].
    intros (x & y & Hb & _). now apply before_nil in Hb.
  - cbn [List.filter]. destruct (P z) eqn:Ez.
    + cbn [map]. rewrite before_cons, IH. split.
      * intros [[-> Hb]|(x & y & Hxy & Hrest)].
        -- apply list_elem_of_In, in_map_iff in Hb as (y & <- & Hy).
           apply filter_In in Hy as [Hy Py].
           exists z, y. split; [|auto]. apply before_cons. left.
           split; [reflexivity|now apply list_elem_of_In].
        -- exists x, y. split; [|exact Hrest]. apply before_cons. now right.
      * intros (x & y & Hxy & Px & Py & -> & ->).
        apply before_cons in Hxy as [[-> Hy]|Hxy].
        -- left. split; [reflexivity|].
           apply list_elem_of_In, in_map_iff. exists y. split; [reflexivity|].
           apply filter_In. split; [now apply list_elem_of_In|exact Py].
        -- right. exists x, y. auto.
    + rewrite IH. split.
      * intros (x & y & Hxy & Hrest). exists x, y. split; [|exact Hrest].
        apply before_cons. now right.
      * intros (x & y & Hxy & Px & Py & -> & ->).
        apply before_cons in Hxy as [[-> Hy]|Hxy]; [congruence|].
        exists x, y. auto.
Qed.

Lemma elem_of_angles_at (i : Z) (bonds : list bond) (an : angle) :
  an ∈ angles_at i bonds <->
  exists bp bq, before bonds bp bq /\
    joins i bp = true /\ joins i bq = true /\
    an = angle_init (other_end i bp) i (other_end i bq).
Proof.
  unfold angles_at.
  rewrite (elem_of_pairs (fun a b => angle_init a i b) (neighbours i bonds)).
  rewrite neighbours_spec. split.
  - intros (a & b & Hab & ->).
    apply before_map_filter in Hab as (x & y & Hxy & Px & Py & -> & ->).
    eauto 8.
  - intros (bp & bq & Hb & Pp & Pq & ->).
    exists (other_end i bp), (other_end i bq). split; [|reflexivity].
    apply before_map_filter. eauto 8.
Qed.

(** X8: the angles of a molecule are exactly the triples made of an atom
    and the far ends of two bonds that hold it, the bond that stands first
    in the bond list giving the first atom of the angle. *)
Theorem angles_spec (natom : nat) (bonds : list bond) (an : angle) :
  an ∈ all_angles natom bonds <->
  exists (i : nat) bp bq,
    (i < natom)%nat /\ before bonds bp bq /\
    joins (Z.of_nat i) bp = true /\ joins (Z.of_nat i) bq = true /\
    an = angle_init (other_end (Z.of_nat i) bp) (Z.of_nat i)
           (other_end (Z.of_nat i) bq).
Proof.
  unfold all_angles. rewrite list_elem_of_In, in_flat_map. split.
  - intros (i & Hi & Han). apply in_seq in Hi.
    apply list_elem_of_In, elem_of_angles_at in Han as (bp & bq & Hrest).
    exists i, bp, bq. split; [lia|exact Hrest].
  - intros (i & bp & bq & Hi & Hrest). exists i.
    split; [apply in_seq; lia|].
    apply list_elem_of_In, elem_of_angles_at. eauto.
Qed.

Lemma pairs_length {A B} `{Inhabited A} (f : A -> A -> B) (l : list A) :
  (2 * length (flat_map (fun k => map (fun m => f (l !!! k) (l !!! m))
                                    (seq (k + 1) (length l - (k + 1))))
                 (seq 0 (length l - 1)))
   = length l * (length l - 1))%nat.
Proof.
  induction l as [|x l IH]; [reflexivity|].
  rewrite pairs_cons, length_app, length_map. cbn [length].
  set (P := length (flat_map _ _)) in *. clearbody P.
  destruct (length l) as [|n]; cbn [Nat.sub] in *; [lia|].
  rewrite Nat.sub_0_r in *. nia.
Qed.

Lemma half_exact (a b : nat) : (2 * a = b)%nat -> a = (b / 2)%nat.
Proof.
  intros <-. rewrite Nat.mul_comm. symmetry. now apply Nat.div_mul.
Qed.

(** X9: an atom held by [d] bonds is the centre of [d (d - 1) / 2] angles,
    one for each pair of its bonds, and the angles of a molecule are those
    of its atoms, one atom after the other. *)
Theorem angles_count (natom : nat) (bonds : list bond) :
  length (all_angles natom bonds)
  = sum_list_with
      (fun i => let d := length (List.filter (joins (Z.of_nat i)) bonds) in
                (d * (d - 1) / 2)%nat)
      (seq 0 natom).
Proof.
  unfold all_angles. rewrite length_flat_map_sum.
  apply sum_list_with_ext_in. intros i _. cbv zeta.
  apply half_exact. unfold angles_at.
  rewrite (pairs_length (fun a b => angle_init a (Z.of_nat i) b)).
  now rewrite neighbours_spec, length_map.
Qed.

Lemma other_end_joins (i : Z) (b : bond) :
  joins i b = true ->
  ends b = (Z.min i (other_end i b), Z.max i (other_end i b)).
Proof.
  unfold joins, other_end, ends. intros Hj.
  destruct (Z.eqb_spec i (b_i b)) as [->|Hne]; [reflexivity|].
  cbn in Hj. apply Z.eqb_eq in Hj as ->.
  now rewrite Z.min_comm, Z.max_comm.
Qed.

Lemma other_end_neq (i : Z) (b : bond) :
  joins i b = true -> b_i b <> b_j b -> other_end i b <> i.
Proof.
  unfold joins, other_end. intros Hj Hne.
  destruct (Z.eqb_spec i (b_i b)) as [->|Hne']; [congruence|].
  cbn in Hj. apply Z.eqb_eq in Hj as ->. congruence.
Qed.

(** X10: in a molecule without a bond from an atom to itself and without
    two bonds between the same two atoms, the three atoms of every angle
    are different. *)
Theorem angles_distinct (natom : nat) (bonds : list bond) :
  Forall (fun b => b_i b <> b_j b) bonds ->
  NoDup (map ends bonds) ->
  Forall (fun an => an_i an <> an_j an /\ an_k an <> an_j an /\
                    an_i an <> an_k an)
    (all_angles natom bonds).
Proof.
  intros Hself Hnd. apply Forall_forall. intros an Han.
  apply list_elem_of_In, in_flat_map in Han as (i & _ & Han).
  apply list_elem_of_In, elem_of_angles_at in Han
    as (bp & bq & (p & q & Hpq & Hp & Hq) & Jp & Jq & ->).
  rewrite Forall_forall in Hself.
  pose proof (Hself bp (list_elem_of_lookup_2 _ _ _ Hp)) as Sp.
  pose proof (Hself bq (list_elem_of_lookup_2 _ _ _ Hq)) as Sq.
  cbn [an_i an_j an_k angle_init].
  split; [now apply other_end_neq|]. split; [now apply other_end_neq|].
  intros Heq.
  assert (He : ends bp = ends bq)
    by (rewrite (other_end_joins _ _ Jp), (other_end_joins _ _ Jq); congruence).
  assert (p = q); [|lia].
  apply (NoDup_lookup _ p q (ends bp) Hnd); rewrite lookup_map.
  - now rewrite Hp.
  - now rewrite Hq, He.
Qed.

Lemma angles_distinct_witness :
  Forall (fun an => an_i an <> an_j an /\ an_k an <> an_j an /\
                    an_i an <> an_k an)
    (all_angles 4 [bond_init 0 1; bond_init 2 1; bond_init 2 3; bond_init 1 3]).
Proof.
  apply angles_distinct.
  - repeat constructor; cbn; lia.
  - vm_compute. repeat constructor; rewrite ?elem_of_cons, ?elem_of_nil;
      intuition congruence.
Defined.

Lemma lookup_total_Some {A} `{Inhabited A} (l : list A) (k : nat) :
  (k < length l)%nat -> l !! k = Some (l !!! k).
Proof. intros Hk. now apply list_lookup_lookup_total_lt. Qed.

(** X11: the dihedrals of a molecule are exactly the quadruples built
    around a bond [(x, y)] of the list, read from its first atom to its
    second: the far end of another bond that holds [x], then [x], [y], and
    the far end of a third bond that holds [y]; the three bonds stand at
    three different places of the list. *)
Theorem diheds_spec (bonds : list bond) (dh : dihed) :
  dh ∈ all_diheds bonds <->
  exists k l j bk bl bj,
    bonds !! k = Some bk /\ bonds !! l = Some bl /\ bonds !! j = Some bj /\
    k <> l /\ j <> k /\ j <> l /\
    joins (b_i bk) bl = true /\ joins (b_j bk) bj = true /\
    dh = dihed_init (other_end (b_i bk) bl) (b_i bk) (b_j bk)
           (other_end (b_j bk) bj).
Proof.
  assert (Hklj : forall k l first,
            (k < length bonds)%nat ->
            dh ∈ diheds_klj bonds k l first <->
            exists j bj, bonds !! j = Some bj /\ j <> k /\ j <> l /\
              joins (b_j (bonds !!! k)) bj = true /\
              dh = dihed_init first (b_i (bonds !!! k)) (b_j (bonds !!! k))
                     (other_end (b_j (bonds !!! k)) bj)).
  { intros k l first Hk. unfold diheds_klj.
    rewrite list_elem_of_In, in_flat_map. split.
    - intros (j & Hj & Hd). apply in_seq in Hj.
      destruct (Nat.eqb_spec j k) as [->|Hjk]; [destruct Hd|].
      destruct (Nat.eqb_spec j l) as [->|Hjl]; [destruct Hd|].
      cbn [orb] in Hd. exists j, (bonds !!! j).
      split; [apply lookup_total_Some; lia|]. split; [exact Hjk|].
      split; [exact Hjl|]. unfold joins, other_end.
      destruct (b_j (bonds !!! k) =? b_i (bonds !!! j)).
      + destruct Hd as [<-|[]]. auto.
      + destruct (b_j (bonds !!! k) =? b_j (bonds !!! j)); [|destruct Hd].
        destruct Hd as [<-|[]]. auto.
    - intros (j & bj & Hj & Hjk & Hjl & Hjoin & ->).
      exists j. split; [apply in_seq; apply lookup_lt_Some in Hj; lia|].
      rewrite (list_lookup_total_correct _ _ _ Hj).
      destruct (Nat.eqb_spec j k); [contradiction|].
      destruct (Nat.eqb_spec j l); [contradiction|]. cbn [orb].
      unfold joins, other_end in *.
      destruct (b_j (bonds !!! k) =? b_i bj); [now left|].
      cbn in Hjoin. rewrite Hjoin. now left. }
  unfold all_diheds. rewrite list_elem_of_In, in_flat_map. split.
  - intros (k & Hk & Hd). apply in_seq in Hk.
    apply in_flat_map in Hd as (l & Hl & Hd). apply in_seq in Hl.
    unfold diheds_kl in Hd.
    destruct (Nat.eqb_spec k l) as [->|Hkl]; [destruct Hd|].
    assert (Hfirst : joins (b_i (bonds !!! k)) (bonds !!! l) = true /\
              In dh (diheds_klj bonds k l
                       (other_end (b_i (bonds !!! k)) (bonds !!! l)))).
    { unfold joins, other_end.
      destruct (b_i (bonds !!! k) =? b_i (bonds !!! l)); [auto|].
      destruct (b_i (bonds !!! k) =? b_j (bonds !!! l)); [auto|destruct Hd]. }
    destruct Hfirst as [Hjoin Hd'].
    apply list_elem_of_In, Hklj in Hd' as (j & bj & Hj & Hjk & Hjl & Hjj & ->);
      [|lia].
    exists k, l, j, (bonds !!! k), (bonds !!! l), bj.
    split; [apply lookup_total_Some; lia|].
    split; [apply lookup_total_Some; lia|]. auto 10.
  - intros (k & l & j & bk & bl & bj & Hk & Hl & Hj & Hkl & Hjk & Hjl
            & Hjoin & Hjj & ->).
    exists k. split; [apply in_seq; apply lookup_lt_Some in Hk; lia|].
    apply in_flat_map. exists l.
    split; [apply in_seq; apply lookup_lt_Some in Hl; lia|].
    unfold diheds_kl.
    destruct (Nat.eqb_spec k l); [contradiction|].
    pose proof (list_lookup_total_correct _ _ _ Hk) as Ek.
    pose proof (list_lookup_total_correct _ _ _ Hl) as El.
    assert (Hd : dihed_init (other_end (b_i bk) bl) (b_i bk) (b_j bk)
                   (other_end (b_j bk) bj)
                 ∈ diheds_klj bonds k l (other_end (b_i bk) bl)).
    { apply Hklj; [now apply lookup_lt_Some in Hk|]. rewrite Ek.
      exists j, bj. auto. }
    apply list_elem_of_In in Hd. rewrite Ek, El.
    unfold joins, other_end in Hjoin, Hd |- *.
    destruct (b_i bk =? b_i bl); [exact Hd|].
    cbn in Hjoin. now rewrite Hjoin.
Qed.

(** ** Molecules from z-matrices *)









Section FromZmat.
Context `{Geometry}.


End FromZmat.





Section FromZmatFacts.
Context `{Geometry}.

End FromZmatFacts.

Section ZmatChain.
Context `{Geometry}.

End ZmatChain.

(** ** What setff keeps, and charges *)

Lemma omap_sublist {T K} (f : T -> option T) (key : T -> K) (l : list T) :
  (forall t t', t ∈ l -> f t = Some t' -> key t' = key t) ->
  sublist (map key (omap f l)) (map key l).
Proof.
  induction l as [|t l IH]; intros Hkey; [constructor|].
  assert (IH' : sublist (map key (omap f l)) (map key l)).
  { apply IH. intros x x' Hx. apply Hkey. now right. }
  change (omap f (t :: l))
    with (match f t with Some y => y :: omap f l | None => omap f l end).
  destruct (f t) as [t'|] eqn:E; cbn [map].
  - rewrite (Hkey t t' ltac:(left) E). now constructor.
  - now constructor.
Qed.

Lemma charge_from_spec (atoms : list atom) (q : float) :
  Forall (fun a => is_Some (at_q a)) atoms ->
  charge_from q atoms
  = ([], Ok (fold_left (fun q a => (q + default 0%float (at_q a))%float)
               atoms q)).
Proof.
  intros Hall. revert q. induction Hall as [|a atoms [qa Hqa] _ IH]; intros q.
  - reflexivity.
  - cbn [charge_from fold_left]. rewrite Hqa. cbn [getattr bind ret default].
    rewrite IH. reflexivity.
Qed.

Lemma charge_from_missing (atoms : list atom) (q : float) :
  Exists (fun a => at_q a = None) atoms ->
  charge_from q atoms = ([], Raise AttributeError).
Proof.
  revert q. induction atoms as [|a atoms IH]; intros q Hex.
  - now apply Exists_nil in Hex.
  - cbn [charge_from]. destruct (at_q a) as [qa|] eqn:E; cbn.
    + apply Exists_cons in Hex as [Ha|Hex]; [congruence|].
      rewrite (IH _ Hex). reflexivity.
    + reflexivity.
Qed.

Lemma sum_zero_charges (atoms : list atom) :
  Forall (fun a => at_q a = Some 0%float) atoms ->
  sum_charges atoms = 0%float.
Proof.
  unfold sum_charges. intros Hall.
  induction Hall as [|a atoms Ha _ IH]; [reflexivity|].
  cbn [fold_left]. rewrite Ha. cbn [default]. exact IH.
Qed.

Section SetffKeeps.
Context `{Geometry}.

Lemma setff_atoms_typed (ff : forcefield) (box : option cell) (self : mol)
    (out : list line) (self' : mol) :
  setff ff box self = (out, Ok self') ->
  Forall2 (fun a a' =>
             (truthy (m_ff self) = true /\
              exists r, last (atom_matching ff a) = Some r /\
                        a' = atom_typed r a) \/
             (truthy (m_ff self) = false /\
              a' = atom_setpar (at_name a) 0 "lj" [0; 0]%float a))
    (m_atom self) (m_atom self').
Proof.
  intros Hrun. destruct (truthy (m_ff self)) eqn:Hff.
  - destruct (setff_Ok_inv ff box self out self' Hff Hrun)
      as (oa & _ & _ & _ & _ & _ & _ & _ & Ha & _).
    destruct (setff_each_Ok_inv _ _ _ _ _ _ Ha) as (Hf2 & Herr & _).
    destruct (Herr eq_refl) as [_ Hall].
    clear Ha Herr. induction Hf2 as [|a a' l l' (w & found & Hv & _) _ IH];
      [constructor|].
    apply Forall_cons in Hall as [(w1 & t1 & Hv1) Hall].
    constructor; [|now apply IH]. left. split; [reflexivity|].
    destruct (visit_atom_spec (m_name self) (m_ff self) ff a) as (w' & Hw & _).
    rewrite Hw in Hv, Hv1.
    apply pair_equal_spec in Hv as [_ Hv]. injection Hv as Ha' _.
    apply pair_equal_spec in Hv1 as [_ Hv1]. injection Hv1 as _ Hne.
    destruct (last (atom_matching ff a)) as [r|] eqn:El; [eauto|].
    apply last_None in El. rewrite El in Hne. discriminate.
  - unfold setff in Hrun. rewrite Hff in Hrun. cbn [negb] in Hrun.
    apply pair_equal_spec in Hrun as [_ Hrun]. injection Hrun as <-.
    cbn [m_atom]. induction (m_atom self) as [|a l IH]; cbn; constructor; auto.
Qed.

(** X15: [setff] never moves, renames or renumbers anything.  When it
    returns, the atoms are the same in number and order and keep their
    names, positions and type indices; the bonds are the same in number
    and order and join the same atoms; and the angles, dihedrals and
    impropers that are left are a part of the original lists, in the
    original order, joining the same atoms. *)
Theorem setff_keeps_places (ff : forcefield) (box : option cell)
    (self : mol) (out : list line) (self' : mol) :
  setff ff box self = (out, Ok self') ->
  Forall2 same_place (m_atom self) (m_atom self') /\
  map bond_atoms (m_bond self') = map bond_atoms (m_bond self) /\
  sublist (map angle_atoms (m_angle self')) (map angle_atoms (m_angle self)) /\
  sublist (map dihed_atoms (m_dihed self')) (map dihed_atoms (m_dihed self)) /\
  sublist (map dihed_atoms (m_dimpr self')) (map dihed_atoms (m_dimpr self)) /\
  m_name self' = m_name self /\ m_ff self' = m_ff self /\
  m_m self' = m_m self.
Proof.
  intros Hrun. split.
  { eapply Forall2_impl; [exact (setff_atoms_typed _ _ _ _ _ Hrun)|].
    intros a a' [(_ & r & _ & ->)|(_ & ->)]; now repeat split. }
  destruct (truthy (m_ff self)) eqn:Hff.
  2:{ unfold setff in Hrun. rewrite Hff in Hrun. cbn [negb] in Hrun.
      apply pair_equal_spec in Hrun as [_ Hrun]. injection Hrun as <-.
      cbn. repeat split; reflexivity. }
  destruct (setff_Ok_inv ff box self out self' Hff Hrun)
    as (oa & ob & on & od & oi & anmiss & dhmiss & dimiss
        & Ha & Hb & Hn & Hd & Hi & _).
  split; [|split; [|split; [|split]]].
  - destruct (setff_each_Ok_inv _ _ _ _ _ _ Hb) as (Hf2 & _).
    clear Hb. induction Hf2 as [|b b' l l' (w & found & Hv & _) _ IH];
      [reflexivity|].
    cbn [map]. rewrite IH. f_equal.
    apply visit_bond_inv in Hv as (name & r & _ & _ & _ & -> & _).
    now destruct (last _).
  - destruct (setff_prune_Ok_inv _ _ _ _ _ _ _ Hn) as (-> & _).
    apply omap_sublist. intros an an' _ Hk. unfold kept in Hk.
    destruct (visit_angle _ _ _ _ _ an) as [w [[[a1 f] c]| |e]] eqn:Ev;
      try discriminate.
    destruct (c && f); [|discriminate]. injection Hk as <-.
    apply visit_angle_inv in Ev as (name & th & _ & _ & _ & _ & -> & _).
    now destruct (last _).
  - destruct (setff_prune_Ok_inv _ _ _ _ _ _ _ Hd) as (-> & _).
    apply omap_sublist. intros dh dh' _ Hk. unfold kept in Hk.
    destruct (visit_dihed _ _ dh) as [w [[[a1 f] c]| |e]] eqn:Ev;
      try discriminate.
    destruct (c && f); [|discriminate]. injection Hk as <-.
    apply visit_dihed_inv in Ev as (name & _ & _ & _ & _ & -> & _).
    now destruct (last _).
  - destruct (setff_prune_Ok_inv _ _ _ _ _ _ _ Hi) as (-> & _).
    apply omap_sublist. intros dh dh' _ Hk. unfold kept in Hk.
    destruct (visit_dimpr _ _ _ dh) as [w [[[a1 f] c]| |e]] eqn:Ev;
      try discriminate.
    destruct (c && f); [|discriminate]. injection Hk as <-.
    apply visit_dimpr_inv in Ev as (name & _ & _ & _ & -> & _).
    now destruct (last _).
  - unfold setff in Hrun. rewrite Hff in Hrun. cbn [negb] in Hrun.
    repeat (apply bind_Ok_inv in Hrun as (? & ? & ? & _ & Hrun & _);
            try match type of Hrun with
                | context [let '(_, _) := ?p in _] => destruct p
                end).
    cbn in Hrun. apply pair_equal_spec in Hrun as [_ Hrun].
    injection Hrun as <-. repeat split; reflexivity.
Qed.

(** X16: after [setff] every atom has a type, a charge, a kind of
    potential and a parameter list, so that [charge] returns: the total
    charge is the running sum of the charges, from 0.0, in the order of
    the atoms.  Without a force field every charge is 0.0 and so is the
    total. *)
Theorem setff_then_charge (ff : forcefield) (box : option cell)
    (self : mol) (out : list line) (self' : mol) :
  setff ff box self = (out, Ok self') ->
  Forall has_parameters (m_atom self') /\
  charge self' = ([], Ok (sum_charges (m_atom self'))) /\
  (truthy (m_ff self) = false ->
   out = [] /\ charge self' = ([], Ok 0%float)).
Proof.
  intros Hrun. pose proof (setff_atoms_typed _ _ _ _ _ Hrun) as Hty.
  assert (Hpar : Forall has_parameters (m_atom self')).
  { clear Hrun. induction Hty as [|a a' l l' Ha _ IH]; constructor; [|exact IH].
    destruct Ha as [(_ & r & _ & ->)|(_ & ->)]; repeat split; eexists;
      reflexivity. }
  assert (Hch : charge self' = ([], Ok (sum_charges (m_atom self')))).
  { unfold charge, sum_charges. apply charge_from_spec.
    eapply Forall_impl; [exact Hpar|]. now intros a (_ & Hq & _). }
  split; [exact Hpar|]. split; [exact Hch|].
  intros Hff. split.
  - unfold setff in Hrun. rewrite Hff in Hrun. cbn [negb] in Hrun.
    now apply pair_equal_spec in Hrun as [<- _].
  - rewrite Hch. do 2 f_equal. apply sum_zero_charges.
    clear Hch Hpar Hrun. induction Hty as [|a a' l l' Ha _ IH]; constructor;
      [|exact IH].
    destruct Ha as [(Ht & _)|(_ & ->)]; [congruence|reflexivity].
Qed.

(** X17: [charge] prints nothing and never ends the program.  It returns
    exactly when every atom has a charge, and the total is then the running
    sum of the charges, from 0.0, in the order of the atoms; as soon as one
    atom has none (an atom that has not been through [setff]) it raises
    [AttributeError]. *)
Theorem charge_cases (self : mol) :
  (Forall (fun a => is_Some (at_q a)) (m_atom self) /\
   charge self = ([], Ok (sum_charges (m_atom self)))) \/
  (Exists (fun a => at_q a = None) (m_atom self) /\
   charge self = ([], Raise AttributeError)).
Proof.
  unfold charge, sum_charges.
  assert (Hdec : Forall (fun a => is_Some (at_q a)) (m_atom self) \/
                 Exists (fun a => at_q a = None) (m_atom self)).
  { induction (m_atom self) as [|a l [IH|IH]].
    - left. constructor.
    - destruct (at_q a) as [q|] eqn:E.
      + left. constructor; [rewrite E; eauto|exact IH].
      + right. now left.
    - right. now right. }
  destruct Hdec as [Hall|Hex].
  - left. split; [exact Hall|]. now apply charge_from_spec.
  - right. split; [exact Hex|]. now apply charge_from_missing.
Qed.
End SetffKeeps.

(** ** More on the type tables *)

Section TableFacts.
Context {obj : Type} `{EqDecision obj}.
Variable name : obj -> string.

Lemma first_of_each_name_sub (seen : list string) (l : list obj) (t : obj) :
  t ∈ first_of_each_name name seen l -> t ∈ l.
Proof.
  revert seen. induction l as [|a l IH]; intros seen; cbn.
  - intros Ht. now apply elem_of_nil in Ht.
  - destruct (bool_decide _).
    + intros Ht. right. eapply IH, Ht.
    + intros Ht. apply elem_of_cons in Ht as [->|Ht]; [left|right].
      eapply IH, Ht.
Qed.

Lemma all_terms_app (c : category) (s1 s2 : list (species obj)) :
  all_terms c (s1 ++ s2) = all_terms c s1 ++ all_terms c s2.
Proof. unfold all_terms. now rewrite map_app, concat_app. Qed.

Lemma first_index_app (l more : list obj) (s : string) (i : nat) :
  first_index name l s i -> first_index name (l ++ more) s i.
Proof.
  intros [(t & Ht & Hn) Hmin]. pose proof (lookup_lt_Some _ _ _ Ht) as Hi.
  split.
  - exists t. split; [|exact Hn]. now rewrite lookup_app_l.
  - intros j t' Hj Ht'. rewrite lookup_app_l in Ht' by lia. eauto.
Qed.

(** The tables and indices that [system.__init__] leaves, one class at a
    time. *)
Lemma system_init_table (spec : list (species obj)) (ityp0 : obj -> Z)
    (c : category) :
  let s := system_init name spec ityp0 in
  type_table c s = first_of_each_name name [] (all_terms c spec) /\
  forall o, o ∈ all_terms c spec ->
    indexed name (type_table c s) (ityp_of c s) o.
Proof.
  intros s.
  set (s0 := {| attype := []; bdtype := []; antype := []; dhtype := [];
                ditype := []; ityp_atom := ityp0; ityp_bond := ityp0;
                ityp_angle := ityp0; ityp_dihed := ityp0;
                ityp_dimpr := ityp0 |}).
  assert (Ht : type_table c s = build_type_list name (all_terms c spec) []).
  { subst s. unfold system_init. rewrite assign_indices_table.
    fold s0. rewrite build_tables_table. now destruct c. }
  split; [now rewrite Ht, build_type_list_spec|].
  intros o Ho. subst s. unfold system_init in *. fold s0 in Ht |- *.
  rewrite assign_indices_ityp. rewrite assign_indices_table in Ht |- *.
  apply assign_type_index_indexed; [|now left].
  intros x Hx. rewrite build_tables_table.
  now apply build_type_list_covers.
Qed.
End TableFacts.

(** X18: the tables of a system.  No two entries of a table have the same
    name, every entry is one of the terms of the species, the type index
    of the entry at position [i] is [i], and the type index of every term
    is a valid position of the table. *)
Theorem type_table_positions {obj : Type} `{EqDecision obj}
    (name : obj -> string) (spec : list (species obj)) (ityp0 : obj -> Z)
    (c : category) :
  let s := system_init name spec ityp0 in
  NoDup (name <$> type_table c s) /\
  (forall i t, type_table c s !! i = Some t ->
     t ∈ all_terms c spec /\ ityp_of c s t = Z.of_nat i) /\
  (forall a, a ∈ all_terms c spec ->
     0 <= ityp_of c s a < Z.of_nat (length (type_table c s))).
Proof.
  intros s. destruct (system_init_table name spec ityp0 c) as [Ht Hi].
  fold s in Ht, Hi.
  assert (Hnd : NoDup (name <$> type_table c s)).
  { rewrite Ht. apply (first_of_each_name_NoDup name [] _ (NoDup_nil_2)). }
  split; [exact Hnd|]. split.
  - intros i t Hit.
    assert (Hin : t ∈ all_terms c spec).
    { eapply (first_of_each_name_sub name []). rewrite <- Ht.
      eapply list_elem_of_lookup_2, Hit. }
    split; [exact Hin|].
    destruct (Hi t Hin) as (i' & [(t' & Ht' & Hn') _] & ->).
    f_equal. apply (NoDup_lookup _ i' i (name t) Hnd);
      rewrite list_lookup_fmap; [rewrite Ht' | rewrite Hit]; cbn; congruence.
  - intros a Ha. destruct (Hi a Ha) as (i & [(t & Ht' & _) _] & ->).
    apply lookup_lt_Some in Ht'. lia.
Qed.

(** X19: one more species at the end of the list leaves the tables and
    indices of the others as they are: the old table is the beginning of
    the new one, and every term of the old species keeps its index. *)
Theorem type_indices_stable {obj : Type} `{EqDecision obj}
    (name : obj -> string) (spec : list (species obj)) (sp : species obj)
    (ityp0 : obj -> Z) (c : category) :
  let s := system_init name spec ityp0 in
  let s' := system_init name (spec ++ [sp]) ityp0 in
  (exists more, type_table c s' = type_table c s ++ more) /\
  forall a, a ∈ all_terms c spec -> ityp_of c s' a = ityp_of c s a.
Proof.
  intros s s'.
  destruct (system_init_table name spec ityp0 c) as [Ht Hi].
  destruct (system_init_table name (spec ++ [sp]) ityp0 c) as [Ht' Hi'].
  fold s in Ht, Hi. fold s' in Ht', Hi'.
  assert (Hpre : exists more, type_table c s' = type_table c s ++ more).
  { rewrite Ht', Ht, all_terms_app.
    rewrite <- (app_nil_l (first_of_each_name name [] (_ ++ _))).
    rewrite <- (build_type_list_spec name _ []).
    rewrite build_type_list_app, !build_type_list_spec. cbn [app fmap].
    eexists. reflexivity. }
  split; [exact Hpre|]. destruct Hpre as [more Hmore].
  intros a Ha.
  destruct (Hi a Ha) as (i & Hfi & ->).
  destruct (Hi' a) as (i' & Hfi' & ->).
  { rewrite all_terms_app. apply elem_of_app. now left. }
  f_equal. rewrite Hmore in Hfi'.
  eapply first_index_unique; [exact Hfi'|]. now apply first_index_app.
Qed.

(** ** The van der Waals records of a system *)

Lemma py_index_nth {A} (l : list A) (j : nat) (d : A) :
  (j < length l)%nat -> py_index l (Z.of_nat j) = ([], Ok (nth j l d)).
Proof.
  intros Hj. rewrite py_index_nat, nth_lookup.
  destruct (lookup_lt_is_Some_2 l j Hj) as [a ->]. reflexivity.
Qed.

Lemma bind_nil_Ok {A B} (a : A) (k : A -> py B) : bind ([], Ok a) k = k a.
Proof. apply (bind_ret_l a k). Qed.

Lemma bind_assoc {A B C} (c : py A) (k : A -> py B) (g : B -> py C) :
  bind (bind c k) g = bind c (fun a => bind (k a) g).
Proof.
  destruct c as [o [a| |e]]; cbn; try reflexivity.
  destruct (k a) as [o2 [b| |e]]; cbn; try reflexivity.
  destruct (g b) as [o3 r3]. now rewrite app_assoc.
Qed.

Lemma bind_ext {A B} (c : py A) (k k' : A -> py B) :
  (forall a, k a = k' a) -> bind c k = bind c k'.
Proof. intros Hk. destruct c as [o [a| |e]]; cbn; now rewrite ?Hk. Qed.

Lemma bind_ret_r {A} (c : py A) : bind c ret = c.
Proof. destruct c as [o [a| |e]]; cbn; now rewrite ?app_nil_r. Qed.

Lemma vdw_each_app (mix : string) (l1 l2 : list (atom * atom)) :
  vdw_each mix (l1 ++ l2)
  = let* a := vdw_each mix l1 in
    let* b := vdw_each mix l2 in
    ret (a ++ b).
Proof.
  induction l1 as [|[x y] l1 IH]; cbn [app vdw_each].
  - rewrite bind_ret_l. cbn [app]. symmetry. apply bind_ret_r.
  - rewrite bind_assoc. apply bind_ext. intros v.
    rewrite IH, !bind_assoc. apply bind_ext. intros a.
    rewrite bind_ret_l, bind_assoc. apply bind_ext. intros b.
    now rewrite bind_ret_l.
Qed.

Lemma vdw_row_spec (attype : list atom) (mix : string) (i : nat)
    (js : list nat) (d : atom) :
  (i < length attype)%nat -> Forall (fun j => (j < length attype)%nat) js ->
  vdw_row attype mix i js
  = vdw_each mix (map (fun j => (nth i attype d, nth j attype d)) js).
Proof.
  intros Hi Hjs. induction Hjs as [|j js Hj _ IH]; [reflexivity|].
  cbn [vdw_row map vdw_each].
  rewrite (py_index_nth _ _ d Hi), (py_index_nth _ _ d Hj), !bind_nil_Ok.
  now rewrite IH.
Qed.

Lemma vdw_rows_spec (attype : list atom) (mix : string) (idx : list nat)
    (d : atom) :
  Forall (fun i => (i < length attype)%nat) idx ->
  vdw_rows attype mix (length attype) idx
  = vdw_each mix
      (flat_map (fun i => map (fun j => (nth i attype d, nth j attype d))
                            (seq i (length attype - i))) idx).
Proof.
  intros Hidx. induction Hidx as [|i idx Hi _ IH]; [reflexivity|].
  cbn [vdw_rows flat_map]. rewrite vdw_each_app, IH.
  rewrite (vdw_row_spec _ _ _ _ d Hi); [reflexivity|].
  apply Forall_forall. intros j Hj. apply elem_of_seq in Hj. lia.
Qed.

Lemma map_nth_suffix {B} (f : atom -> B) (pre l : list atom) (d : atom) :
  map (fun j => f (nth j (pre ++ l) d)) (seq (length pre) (length l))
  = map f l.
Proof.
  revert pre. induction l as [|a l IH]; intros pre; [reflexivity|].
  cbn [length seq map]. f_equal.
  - rewrite app_nth2 by lia. now rewrite Nat.sub_diag.
  - specialize (IH (pre ++ [a])). rewrite <- app_assoc in IH. cbn [app] in IH.
    rewrite length_app in IH. cbn [length] in IH.
    replace (length pre + 1)%nat with (S (length pre)) in IH by lia.
    exact IH.
Qed.

Lemma type_pairs_spec (pre l : list atom) (d : atom) :
  flat_map (fun i => map (fun j => (nth i (pre ++ l) d, nth j (pre ++ l) d))
                       (seq i (length (pre ++ l) - i)))
    (seq (length pre) (length l))
  = type_pairs l.
Proof.
  revert pre. induction l as [|a l IH]; intros pre; [reflexivity|].
  cbn [length seq flat_map type_pairs]. f_equal.
  - rewrite length_app. cbn [length].
    replace (length pre + S (length l) - length pre)%nat
      with (length (a :: l)) by (cbn; lia).
    rewrite (map_nth_suffix (fun x => (nth (length pre) (pre ++ a :: l) d, x))).
    rewrite app_nth2 by lia. now rewrite Nat.sub_diag.
  - specialize (IH (pre ++ [a])). rewrite <- app_assoc in IH. cbn [app] in IH.
    replace (length (pre ++ [a])) with (S (length pre)) in IH
      by (rewrite length_app; cbn [length]; lia).
    exact IH.
Qed.

Lemma system_vdw_spec (attype : list atom) (mix : string) :
  system_vdw attype mix = vdw_each mix (type_pairs attype).
Proof.
  unfold system_vdw. destruct attype as [|d rest]; [reflexivity|].
  rewrite (vdw_rows_spec _ _ _ d).
  - f_equal. exact (type_pairs_spec [] (d :: rest) d).
  - apply Forall_forall. intros i Hi. apply elem_of_seq in Hi. lia.
Qed.

Lemma type_pairs_length (l : list atom) :
  (2 * length (type_pairs l) = length l * (length l + 1))%nat.
Proof.
  induction l as [|a l IH]; [reflexivity|].
  cbn [type_pairs]. rewrite length_app, length_map. cbn [length]. nia.
Qed.

Lemma elem_of_type_pairs (l : list atom) (a b : atom) :
  (a, b) ∈ type_pairs l -> a ∈ l /\ b ∈ l.
Proof.
  induction l as [|x l IH]; cbn [type_pairs].
  - intros Hp. now apply elem_of_nil in Hp.
  - rewrite elem_of_app. intros [Hp|Hp].
    + apply list_elem_of_In, in_map_iff in Hp as (y & [= <- <-] & Hy).
      split; [left|now apply list_elem_of_In].
    + destruct (IH Hp). split; now right.
Qed.

Lemma silent_math_sqrt (x : float) : silent (math_sqrt x).
Proof. unfold math_sqrt. now destruct (PrimFloat.ltb _ _). Qed.

Lemma no_exit_math_sqrt (x : float) : no_exit (math_sqrt x).
Proof. unfold math_sqrt. now destruct (PrimFloat.ltb _ _). Qed.

Lemma bind_post {A B} (c : py A) (k : A -> py B) (Q : B -> Prop) :
  (forall a o b, k a = (o, Ok b) -> Q b) ->
  forall o b, bind c k = (o, Ok b) -> Q b.
Proof.
  intros Hk o b Hrun. apply bind_Ok_inv in Hrun as (o1 & a & o2 & _ & Hb & _).
  exact (Hk a o2 b Hb).
Qed.

Ltac quiet :=
  repeat first
    [ apply silent_ret | apply silent_py_index | apply silent_math_sqrt
    | apply silent_bind | apply no_exit_ret | apply no_exit_py_index
    | apply no_exit_math_sqrt | apply no_exit_bind | intro ].

(** What one call of the constructor prints and how it ends. *)
Lemma vdw_init_run (iat jat : atom) (mix : string) (o : list line)
    (r : result vdw) :
  vdw_init iat jat mix = (o, r) ->
  (forall v, r = Ok v ->
     o = [] /\ v_i v = at_name iat /\ v_j v = at_name jat /\
     v_ityp v = at_ityp iat /\ v_jtyp v = at_ityp jat /\
     at_pot iat = Some (v_pot v) /\ at_pot jat = Some (v_pot v)) /\
  (r = SysExit ->
   exists ipot jpot, at_pot iat = Some ipot /\ at_pot jat = Some jpot /\
     ((ipot <> jpot /\ o = [err_vdw_pot (at_name iat) (at_name jat)]) \/
      (ipot = jpot /\
       exists ipar jpar, at_par iat = Some ipar /\ at_par jat = Some jpar /\
         length ipar <> length jpar /\
         o = [err_vdw_len (at_name iat) (at_name jat)]))).
Proof.
  unfold vdw_init.
  destruct (at_pot iat) as [ipot|]; cbn [getattr];
    [rewrite bind_ret_l|cbn; intros [= <- <-]; split; intros; discriminate].
  destruct (at_pot jat) as [jpot|]; cbn [getattr];
    [rewrite bind_ret_l|cbn; intros [= <- <-]; split; intros; discriminate].
  destruct (String.eqb_spec ipot jpot) as [<-|Hne]; cbn [negb];
    [rewrite bind_ret_l|].
  2:{ cbn. intros [= <- <-]. split; [intros; discriminate|]. intros _.
      exists ipot, jpot. split; [reflexivity|]. split; [reflexivity|].
      now left. }
  destruct (at_par iat) as [ipar|]; cbn [getattr];
    [rewrite bind_ret_l|cbn; intros [= <- <-]; split; intros; discriminate].
  destruct (at_par jat) as [jpar|]; cbn [getattr];
    [rewrite bind_ret_l|cbn; intros [= <- <-]; split; intros; discriminate].
  destruct (Nat.eqb_spec (length ipar) (length jpar)) as [Hlen|Hlen];
    cbn [negb]; [rewrite bind_ret_l|].
  2:{ cbn. intros [= <- <-]. split; [intros; discriminate|]. intros _.
      exists ipot, ipot. split; [reflexivity|]. split; [reflexivity|].
      right. split; [reflexivity|]. exists ipar, jpar. auto. }
  match goal with |- ?t = _ -> _ =>
    assert (Hs : silent t);
    [|assert (Hn : no_exit t);
      [|assert (Hq : forall o v, t = (o, Ok v) ->
           v_i v = at_name iat /\ v_j v = at_name jat /\
           v_ityp v = at_ityp iat /\ v_jtyp v = at_ityp jat /\
           v_pot v = ipot)]]
  end.
  - destruct (String.eqb ipot "lj"); [|quiet].
    destruct (String.eqb (at_name iat) (at_name jat)); [quiet|].
    destruct (String.eqb mix "g"); quiet.
  - destruct (String.eqb ipot "lj"); [|quiet].
    destruct (String.eqb (at_name iat) (at_name jat)); [quiet|].
    destruct (String.eqb mix "g"); quiet.
  - destruct (String.eqb ipot "lj");
      [|intros o' v [= _ <-]; now cbn].
    destruct (String.eqb (at_name iat) (at_name jat));
      [intros o' v [= _ <-]; now cbn|].
    apply bind_post. intros par0. apply bind_post. intros p1.
    apply bind_post. intros q1. apply bind_post. intros par1.
    intros o' v [= _ <-]. now cbn.
  - intros Hrun. unfold silent, no_exit in Hs, Hn. rewrite Hrun in Hs, Hn.
    cbn in Hs, Hn. subst o. split; [|intros ->; now destruct Hn].
    intros v ->. destruct (Hq _ _ Hrun) as (H1 & H2 & H3 & H4 & <-).
    auto 10.
Qed.

(** What the loop over the pairs prints and how it ends. *)
Lemma vdw_each_run (mix : string) (ps : list (atom * atom)) (o : list line)
    (r : result (list vdw)) :
  vdw_each mix ps = (o, r) ->
  (forall vs, r = Ok vs ->
     o = [] /\ Forall2 (fun p v => vdw_init p.1 p.2 mix = ([], Ok v)) ps vs) /\
  (r = SysExit ->
   exists pre p post w,
     ps = pre ++ p :: post /\
     (exists vs, Forall2 (fun p v => vdw_init p.1 p.2 mix = ([], Ok v)) pre vs) /\
     vdw_init p.1 p.2 mix = (w, SysExit) /\ o = w).
Proof.
  revert o r. induction ps as [|[a b] ps IH]; intros o r; cbn [vdw_each].
  - intros [= <- <-]. split; [|discriminate]. intros vs [= <-].
    split; [reflexivity|constructor].
  - destruct (vdw_init a b mix) as [o1 r1] eqn:Ev.
    destruct (vdw_init_run _ _ _ _ _ Ev) as [Hok Hex].
    destruct r1 as [v| |e]; cbn [bind].
    + destruct (Hok v eq_refl) as [-> _].
      destruct (vdw_each mix ps) as [o2 r2] eqn:Er.
      destruct (IH _ _ eq_refl) as [IHok IHex].
      destruct r2 as [vs| |e]; cbn [bind ret app].
      * destruct (IHok vs eq_refl) as [-> HF].
        intros [= <- <-]. split; [|discriminate]. intros ? [= <-].
        split; [reflexivity|]. constructor; [exact Ev|exact HF].
      * intros [= <- <-]. split; [discriminate|]. intros _.
        destruct (IHex eq_refl) as (pre & p & post & w & -> & [vs HF] & Hp & ->).
        exists ((a, b) :: pre), p, post, w. split; [reflexivity|].
        split; [|split; [exact Hp|reflexivity]].
        exists (v :: vs). constructor; [exact Ev|exact HF].
      * intros [= <- <-]. split; intros; discriminate.
    + intros [= <- <-]. split; [discriminate|]. intros _.
      exists [], (a, b), ps, o1. split; [reflexivity|].
      split; [exists []; constructor|]. split; [exact Ev|reflexivity].
    + intros [= <- <-]. split; intros; discriminate.
Qed.

(** X20: the van der Waals records of a system are one record for every
    unordered pair of atom types, the pair of a type with itself included,
    in the order of the table: when the loop ends normally it has printed
    nothing and built n(n+1)/2 records, the record of each pair being the
    one the constructor gives for it; it stops the program only at a pair
    of types whose kinds of potential differ or whose parameter lists differ
    in length, after the message of that pair alone. *)
Theorem system_vdw_pairs (attype : list atom) (mix : string)
    (out : list line) (r : result (list vdw)) :
  system_vdw attype mix = (out, r) ->
  (forall vs, r = Ok vs ->
     out = [] /\
     Forall2 (fun p v => vdw_init p.1 p.2 mix = ([], Ok v) /\
                         v_i v = at_name p.1 /\ v_j v = at_name p.2 /\
                         v_ityp v = at_ityp p.1 /\ v_jtyp v = at_ityp p.2)
       (type_pairs attype) vs /\
     (2 * length vs = length attype * (length attype + 1))%nat) /\
  (r = SysExit ->
   exists iat jat ipot jpot,
     (iat, jat) ∈ type_pairs attype /\
     at_pot iat = Some ipot /\ at_pot jat = Some jpot /\
     ((ipot <> jpot /\ out = [err_vdw_pot (at_name iat) (at_name jat)]) \/
      (ipot = jpot /\
       exists ipar jpar, at_par iat = Some ipar /\ at_par jat = Some jpar /\
         length ipar <> length jpar /\
         out = [err_vdw_len (at_name iat) (at_name jat)]))).
Proof.
  rewrite system_vdw_spec. intros Hrun.
  destruct (vdw_each_run _ _ _ _ Hrun) as [Hok Hex]. split.
  - intros vs ->. destruct (Hok vs eq_refl) as [-> HF].
    split; [reflexivity|]. split.
    + eapply Forall2_impl; [exact HF|]. intros p v Hv. split; [exact Hv|].
      destruct (vdw_init_run _ _ _ _ _ Hv) as [Hf _].
      destruct (Hf v eq_refl) as (_ & H1 & H2 & H3 & H4 & _). auto.
    + rewrite <- (Forall2_length _ _ _ HF). apply type_pairs_length.
  - intros ->. destruct (Hex eq_refl) as (pre & [a b] & post & w & Hps & _ & Hp & ->).
    destruct (vdw_init_run _ _ _ _ _ Hp) as [_ Hx].
    destruct (Hx eq_refl) as (ipot & jpot & Hi & Hj & Hcase).
    exists a, b, ipot, jpot. split; [|auto].
    rewrite Hps. apply elem_of_app. right. left.
Qed.

(** ** Further examples *)

(** The small parameter file loads, record for record. *)
Lemma forcefield_loaded_witness :
  forcefield_init example_rows = ([], Ok example_ff) /\
  Forall2 atom_of_row (atom_rows example_rows) (ff_atom_list example_ff) /\
  Forall2 bond_of_row (bond_rows example_rows) (ff_bond_list example_ff) /\
  ff_dimpr_list example_ff = dimpr_rows example_rows.
Proof.
  assert (Hrun : forcefield_init example_rows = ([], Ok example_ff))
    by (vm_compute; reflexivity).
  split; [exact Hrun|].
  destruct (forcefield_loaded example_rows [] example_ff Hrun)
    as (Ha & Hb & _ & _ & Hi & _).
  split; [exact Ha|]. split; [exact Hb|exact Hi].
Defined.

(** A bond row of kind 'morse' stops the loading. *)
Lemma forcefield_failures_witness :
  forcefield_init [row_bond "CA" "HC" "morse" [1.08; 3071]%float]
  = ([err_bond_pot "morse"], SysExit) /\
  exists pre pot, known_pot pot = false /\
    (forall l, l ∈ pre -> is_weight_line l = true) /\
    (([err_bond_pot "morse"] = pre ++ [err_bond_pot pot] /\
      exists iatp jatp par,
        (iatp, jatp, pot, par)
        ∈ bond_rows [row_bond "CA" "HC" "morse" [1.08; 3071]%float]) \/
     ([err_bond_pot "morse"] = pre ++ [err_angle_pot pot] /\
      Forall (fun row => known_pot row.1.2 = true)
        (bond_rows [row_bond "CA" "HC" "morse" [1.08; 3071]%float]) /\
      exists iatp jatp katp par,
        (iatp, jatp, katp, pot, par)
        ∈ angle_rows [row_bond "CA" "HC" "morse" [1.08; 3071]%float])).
Proof.
  assert (Hrun : forcefield_init [row_bond "CA" "HC" "morse" [1.08; 3071]%float]
                 = ([err_bond_pot "morse"], SysExit))
    by (vm_compute; reflexivity).
  split; [exact Hrun|].
  exact (proj1 (forcefield_failures _ _ _ Hrun) eq_refl).
Defined.


Lemma connectivity_sorted_witness :
  exists new,
    m_bond example_connected = m_bond example_unbonded ++ new /\
    ordered pair_le new.
Proof.
  destruct (connectivity_sorted (H := example_geometry) example_ff None
              example_unbonded [] example_connected example_connect_ok)
    as (new & Hb & Hord & _).
  exists new. split; [exact Hb|exact Hord].
Defined.

Lemma connectivity_then_setff_witness :
  m_bond example_unbonded = [] /\
  (setff (H := example_geometry) example_ff None
     (anglesdiheds example_connected)).2 <> SysExit.
Proof.
  split; [reflexivity|].
  apply (connectivity_then_setff (H := example_geometry) example_ff None None
           example_unbonded example_connected []
           (setff (H := example_geometry) example_ff None
              (anglesdiheds example_connected)).1).
  - reflexivity.
  - reflexivity.
  - exact example_connect_ok.
  - apply surjective_pairing.
Defined.



(** The run of the example. *)
Lemma setff_keeps_places_witness :
  Forall2 same_place (m_atom example_mol) (m_atom example_typed) /\
  map bond_atoms (m_bond example_typed) = map bond_atoms (m_bond example_mol) /\
  sublist (map angle_atoms (m_angle example_typed))
    (map angle_atoms (m_angle example_mol)).
Proof.
  destruct (setff_keeps_places (H := example_geometry) example_ff None
              example_mol example_out example_typed example_run_ok)
    as (Ha & Hb & Hn & _).
  split; [exact Ha|]. split; [exact Hb|exact Hn].
Defined.

Lemma setff_then_charge_witness :
  Forall has_parameters (m_atom example_typed) /\
  charge example_typed = ([], Ok (sum_charges (m_atom example_typed))).
Proof.
  destruct (setff_then_charge (H := example_geometry) example_ff None
              example_mol example_out example_typed example_run_ok)
    as (Hp & Hc & _).
  split; [exact Hp|exact Hc].
Defined.

(** Two atom types give three records. *)
Lemma system_vdw_pairs_witness :
  match system_vdw [typed_atom "CT" 0 "lj" [0.066; 3.5]%float;
                    typed_atom "HC" 1 "lj" [0.03; 2.5]%float] "g" with
  | (out, Ok vs) => out = [] /\ length vs = 3%nat /\
                    map v_i vs = ["CT"; "CT"; "HC"]%string /\
                    map v_j vs = ["CT"; "HC"; "HC"]%string
  | _ => False
  end.
Proof.
  destruct (system_vdw [typed_atom "CT" 0 "lj" [0.066; 3.5]%float;
                        typed_atom "HC" 1 "lj" [0.03; 2.5]%float] "g")
    as [out [vs| |e]] eqn:E;
    [|vm_compute in E; discriminate|vm_compute in E; discriminate].
  destruct (system_vdw_pairs _ _ _ _ E) as [Hok _].
  destruct (Hok vs eq_refl) as (Hout & HF & Hlen).
  split; [exact Hout|]. split; [cbn in Hlen; lia|].
  cbn [type_pairs map app] in HF.
  inversion HF as [|p1 v1 ? ? (_ & Hi1 & Hj1 & _) HF1]; subst.
  inversion HF1 as [|p2 v2 ? ? (_ & Hi2 & Hj2 & _) HF2]; subst.
  inversion HF2 as [|p3 v3 ? ? (_ & Hi3 & Hj3 & _) HF3]; subst.
  inversion HF3; subst. cbn [map]. rewrite Hi1, Hi2, Hi3, Hj1, Hj2, Hj3.
  split; reflexivity.
Defined.
